(** * Integration-Agent: the DAG printers of [integration_agent/util/print.py]

    A shallow embedding of [print_dag] (forward walk), of
    [print_dag_in_reverse] with its inner [_print_dag_recursive] and
    [get_node_label] (post-order walk), and of [generate_code], followed by the
    properties of the traversal order, of termination and of error behaviour.

    Conventions of the embedding.
    - Python sets of node ids are [gset string]; a Python dict with string keys
      is an association list in insertion order.
    - A Python [str] is held as the bytes of its UTF-8 encoding, so its length
      is its number of code points, not of bytes.
    - A Python exception is a value of [exn]; a computation that may raise
      returns [result].  A recursive walk returns [option (outcome * state)]:
      [None] only when the recursion budget [fuel] is used up, and the state is
      returned also when the walk raises, since the sets and the output stream
      are mutated in place.
    - Everything the program prints, asks the language model or writes to disk
      is recorded in order in a [trace].
    - The host call stack is taken to be deep enough (no [RecursionError]),
      and writing the artifact file is taken to succeed. *)

From Stdlib Require Import ZArith String List Ascii.
From stdpp Require Import gmap strings list sets.

Set Warnings "-register-all,-clear-no-such-hyp".

Open Scope string_scope.
Open Scope list_scope.

(** ** Python values, dictionaries and exceptions *)

Module Py.

Inductive exn : Type :=
| KeyError (key : string)
| AttributeError (type_name attr : string)
| TypeError (msg : string)
| NetworkXError (msg : string)
| LLMError (msg : string).

Inductive result (A : Type) : Type :=
| Ok (a : A)
| Raise (e : exn).
Arguments Ok {A} a.
Arguments Raise {A} e.

Definition bind {A B : Type} (r : result A) (k : A -> result B) : result B :=
  match r with
  | Ok a => k a
  | Raise e => Raise e
  end.

(** The attribute values a node can carry. *)
Inductive pyval : Type :=
| PNone
| PStr (s : string)
| PList (items : list pyval)
| PDict (entries : list (string * pyval)).

Definition dict := list (string * pyval).

Fixpoint lookup (k : string) (d : dict) : option pyval :=
  match d with
  | [] => None
  | (k', v) :: rest => if String.eqb k k' then Some v else lookup k rest
  end.

(** [d.get(k, default)] on a dict. *)
Definition dict_get (d : dict) (k : string) (default : pyval) : pyval :=
  match lookup k d with
  | Some v => v
  | None => default
  end.

(** [v.get(k, default)] on an arbitrary value: only a dict has the method. *)
Definition get (v : pyval) (k : string) (default : pyval) : result pyval :=
  match v with
  | PDict d => Ok (dict_get d k default)
  | PStr _ => Raise (AttributeError "str" "get")
  | PList _ => Raise (AttributeError "list" "get")
  | PNone => Raise (AttributeError "NoneType" "get")
  end.

(** Truth value, as tested by [if v:]. *)
Definition truthy (v : pyval) : bool :=
  match v with
  | PNone => false
  | PStr s => negb (String.eqb s "")
  | PList l => match l with [] => false | _ => true end
  | PDict d => match d with [] => false | _ => true end
  end.

(** A byte of the form [10xxxxxx] continues a character begun earlier. *)
Definition continuation_byte (c : ascii) : bool :=
  match c with
  | Ascii _ _ _ _ _ _ b6 b7 => b7 && negb b6
  end.

(** The number of characters (code points) of a text held in UTF-8: every
    byte that does not continue a character starts one. *)
Fixpoint code_points (s : string) : nat :=
  match s with
  | EmptyString => 0
  | String c rest =>
      if continuation_byte c then code_points rest else S (code_points rest)
  end.

(** [len(v)]: the characters of a string, the items of a list, the keys of a
    dict. *)
Definition len (v : pyval) : result nat :=
  match v with
  | PNone => Raise (TypeError "object of type 'NoneType' has no len()")
  | PStr s => Ok (code_points s)
  | PList l => Ok (List.length l)
  | PDict d => Ok (List.length d)
  end.

End Py.

Import Py.

#[global] Instance result_ret : MRet Py.result := @Py.Ok.
#[global] Instance result_bind : MBind Py.result :=
  fun A B k r => Py.bind r k.

(** ** The graph store: the part of [networkx.DiGraph] the printers use *)

Module nx.

(** Nodes with their attribute dicts and edges, both in insertion order. *)
Record DiGraph : Type := {
  node_data : list (string * Py.dict);
  edge_list : list (string * string)
}.

(** [graph.nodes()] *)
Definition nodes (g : DiGraph) : list string := map fst (node_data g).

Fixpoint attrs_of (n : string) (l : list (string * Py.dict)) : option Py.dict :=
  match l with
  | [] => None
  | (n', a) :: rest => if String.eqb n n' then Some a else attrs_of n rest
  end.

(** [graph.nodes[n]] *)
Definition getitem (g : DiGraph) (n : string) : result Py.dict :=
  match attrs_of n (node_data g) with
  | Some a => Ok a
  | None => Raise (KeyError n)
  end.

Definition out_edges (g : DiGraph) (n : string) : list string :=
  map snd (filter (fun e => fst e = n) (edge_list g)).

(** [list(graph.successors(n))] *)
Definition successors (g : DiGraph) (n : string) : result (list string) :=
  if decide (n ∈ nodes g) then Ok (out_edges g n)
  else Raise (NetworkXError ("The node " +:+ n +:+ " is not in the digraph.")).

(** [graph.in_degree(n)] *)
Definition in_degree (g : DiGraph) (n : string) : nat :=
  length (filter (fun e => snd e = n) (edge_list g)).

(** What [add_node] and [add_edge] maintain: one entry per node, at most one
    edge per ordered pair, and both ends of an edge are nodes. *)
Definition wf (g : DiGraph) : Prop :=
  NoDup (nodes g) ∧ NoDup (edge_list g) ∧
  Forall (fun e => fst e ∈ nodes g ∧ snd e ∈ nodes g) (edge_list g).

Definition edge (g : DiGraph) (u v : string) : Prop := (u, v) ∈ edge_list g.

End nx.

(** ** Effects: what a run prints, synthesises and writes *)

Inductive event : Type :=
| ELabel (node text : string)     (* [print] of the line that labels [node] *)
| ERevisit (node text : string)   (* [print] of an (Already visited) line for [node] *)
| ECycle (node : string)          (* the cycle guard returned on [node]; nothing is printed *)
| ESynth (node text : string)     (* [generate_code] for [node] returned [text] *)
| EWrite (path content : string)  (* [open(path, 'w')] followed by [f.write(content)] *)
| EPrint (text : string).         (* any other [print] *)

Inductive outcome : Type :=
| Returned
| Raised (e : exn).

(** The lines sent to standard output, in order. *)
Definition stdout_line (e : event) : option string :=
  match e with
  | ELabel _ text | ERevisit _ text | EPrint text => Some text
  | ECycle _ | ESynth _ _ | EWrite _ _ => None
  end.

Definition stdout (t : list event) : list string := omap stdout_line t.

(** The nodes labelled (forward walk) or emitted (reverse walk), in order. *)
Definition label_node (e : event) : option string :=
  match e with
  | ELabel n _ => Some n
  | _ => None
  end.

Definition emitted (t : list event) : list string := omap label_node t.

(** The texts returned by the synthesis step, with their nodes, in order. *)
Definition synth_call (e : event) : option (string * string) :=
  match e with
  | ESynth n text => Some (n, text)
  | _ => None
  end.

Definition synthesized (t : list event) : list (string * string) := omap synth_call t.

Definition file_write (e : event) : option (string * string) :=
  match e with
  | EWrite path content => Some (path, content)
  | _ => None
  end.

Definition writes (t : list event) : list (string * string) := omap file_write t.

(** ** Shared pieces of the two printers *)

Definition nl : string := String "010"%char EmptyString.
Definition dquote : string := String "034"%char EmptyString.

Definition connector (is_last : bool) : string :=
  if is_last then "└── " else "├── ".

Definition indent (is_last : bool) : string :=
  if is_last then "    " else "│   ".

(** [max_depth is not None and depth >= max_depth] *)
Definition depth_limit_reached (max_depth : option Z) (depth : Z) : bool :=
  match max_depth with
  | None => false
  | Some m => (m <=? depth)%Z
  end.

(** [for i, x in enumerate(items): body], starting the count at [i]; an
    exception or an exhausted budget in [body] ends the loop. *)
Fixpoint for_enumerate {S : Type} (body : Z -> string -> S -> option (outcome * S))
    (i : Z) (items : list string) (st : S) : option (outcome * S) :=
  match items with
  | [] => Some (Returned, st)
  | x :: rest =>
      match body i x st with
      | Some (Returned, st') => for_enumerate body (i + 1)%Z rest st'
      | other => other
      end
  end.

Section Printers.

(** [str(v)] as an f-string field renders it; Python's, not the program's. *)
Variable py_str : pyval -> string.

(** [llm.get_instance().invoke(prompt).content.strip()]: the reply of the
    language model to the [k]-th request of the run, or the exception of the
    client. *)
Variable llm : nat -> string -> result string.

(** *** Forward walk: [print_dag] *)

Record pstate : Type := {
  p_visited : gset string;
  p_trace : list event
}.

Definition p_log (e : event) (st : pstate) : pstate :=
  {| p_visited := p_visited st; p_trace := p_trace st ++ [e] |}.

Definition p_add (n : string) (st : pstate) : pstate :=
  {| p_visited := {[n]} ∪ p_visited st; p_trace := p_trace st |}.

(** Lines 26 to 38 of [print_dag]: the label of the current node. *)
Definition print_dag_label (g : nx.DiGraph) (current_node_id new_prefix : string)
    : result string :=
  node_attrs ← nx.getitem g current_node_id;
  let dynamic_parts := dict_get node_attrs "dynamic_parts" (PList []) in
  key ← Py.get (dict_get node_attrs "content" (PStr "")) "key" (PStr "");
  let extracted_parts := dict_get node_attrs "extracted_parts" (PList []) in
  let input_variables := dict_get node_attrs "input_variables" (PList []) in
  let node_type := dict_get node_attrs "node_type" (PStr "") in
  let node_label := "[" +:+ py_str node_type +:+ "] [node_id: " +:+ current_node_id +:+ "]" in
  let node_label :=
    if truthy input_variables
    then node_label +:+ nl +:+ new_prefix +:+ "    [input_variables: " +:+ py_str input_variables +:+ "]"
    else node_label in
  let node_label :=
    node_label +:+ nl +:+ new_prefix +:+ "    [dynamic_parts: " +:+ py_str dynamic_parts +:+ "]" in
  let node_label :=
    node_label +:+ nl +:+ new_prefix +:+ "    [extracted_parts: " +:+ py_str extracted_parts +:+ "]" in
  let node_label := node_label +:+ nl +:+ new_prefix +:+ "    [" +:+ py_str key +:+ "]" in
  mret node_label.

Definition already_visited_line (new_prefix : string) (is_last_child : bool)
    (child_id : string) : string :=
  new_prefix +:+ connector is_last_child +:+ "(Already visited) [node_id: " +:+ child_id +:+ "]".

Fixpoint print_dag (fuel : nat) (g : nx.DiGraph) (current_node_id prefix : string)
    (is_last : bool) (depth : Z) (max_depth : option Z) (st : pstate)
    {struct fuel} : option (outcome * pstate) :=
  match fuel with
  | O => None
  | S fuel' =>
      let new_prefix := prefix +:+ indent is_last in
      match print_dag_label g current_node_id new_prefix with
      | Raise e => Some (Raised e, st)
      | Ok node_label =>
          let st := p_log (ELabel current_node_id (prefix +:+ connector is_last +:+ node_label)) st in
          let st := p_add current_node_id st in
          if depth_limit_reached max_depth depth then Some (Returned, st)
          else
            match nx.successors g current_node_id with
            | Raise e => Some (Raised e, st)
            | Ok children =>
                let child_count := Z.of_nat (length children) in
                for_enumerate
                  (fun i child_id st =>
                     let is_last_child := (i =? child_count - 1)%Z in
                     if decide (child_id ∈ p_visited st)
                     then Some (Returned,
                                p_log (ERevisit child_id
                                         (already_visited_line new_prefix is_last_child child_id)) st)
                     else print_dag fuel' g child_id new_prefix is_last_child
                            (depth + 1)%Z max_depth st)
                  0%Z children st
            end
      end
  end.

(** A call that leaves [prefix], [is_last], [visited] and [depth] to their
    defaults; the recursion is never deeper than the number of nodes. *)
Definition print_dag_from (g : nx.DiGraph) (start : string) (max_depth : option Z)
    : option (outcome * pstate) :=
  print_dag (S (length (nx.nodes g))) g start "" true 0%Z max_depth
    {| p_visited := ∅; p_trace := [] |}.

(** *** The synthesis step: [generate_code] *)

Definition parse_response_prompt (response extracted_parts : pyval) : string :=
  nl +:+
  "    The response is below:" +:+ nl +:+
  "    " +:+ py_str response +:+ nl +:+
  "    " +:+ nl +:+
  "    The below variables should be parsed out of the response:" +:+ nl +:+
  "    " +:+ py_str extracted_parts +:+ nl +:+
  "    ".

Definition get_input_variables_prompt (input_variables : pyval) : string :=
  nl +:+
  "    Assume these variables below are provided by the user:" +:+ nl +:+
  "    " +:+ py_str input_variables +:+ nl +:+
  nl +:+
  "    The key should be the variable name and the value should be the value to be passed in. " +:+ nl +:+
  "    ".

Definition prompt (curl response dynamic_parts extracted_parts input_variables : pyval)
    (to_parse_response : bool) : string :=
  nl +:+
  "    Task:" +:+ nl +:+
  "    Write me a python function with a descriptive name that makes a request like the cURL below:" +:+ nl +:+
  "    " +:+ py_str curl +:+ nl +:+
  "    " +:+ nl +:+
  "    Do not hard code cookie headers. Assume cookies are in a variable called "
    +:+ dquote +:+ "cookie_string" +:+ dquote +:+ nl +:+
  nl +:+
  "    The below variables should be passed into the request instead of hard coded:" +:+ nl +:+
  "    " +:+ py_str dynamic_parts +:+ nl +:+
  "    " +:+ nl +:+
  "    " +:+ (if to_parse_response
              then parse_response_prompt response extracted_parts
              else "# parse out the variables {extracted_parts} from the response") +:+ nl +:+
  "    " +:+ nl +:+
  "    " +:+ (if truthy input_variables
              then get_input_variables_prompt input_variables
              else "") +:+ nl +:+
  nl +:+
  "    Important:" +:+ nl +:+
  "    - Only output the python script and nothing else." +:+ nl +:+
  "    - Don't include any backticks." +:+ nl +:+
  "    - Do not use HTTP/2 pseudo-headers (those starting with ':') in the headers dictionary." +:+ nl +:+
  "    - Remove any 'priority' headers." +:+ nl +:+
  "    - Use standard HTTP/1.1 headers only." +:+ nl +:+
  "    ".

(** [generate_code(node_id, graph)], as the [k]-th request to the model. *)
Definition generate_code (k : nat) (node_id : string) (g : nx.DiGraph) : result string :=
  node_attrs ← nx.getitem g node_id;
  let content := dict_get node_attrs "content" (PStr "") in
  curl ← Py.get content "key" (PStr "");
  response ← Py.get content "value" (PStr "");
  let dynamic_parts := dict_get node_attrs "dynamic_parts" (PStr "") in
  let extracted_parts := dict_get node_attrs "extracted_parts" (PStr "") in
  let input_variables := dict_get node_attrs "input_variables" (PStr "") in
  response_len ← Py.len response;
  let to_parse_response := negb (800000 <? Z.of_nat response_len)%Z in
  llm k (prompt curl response dynamic_parts extracted_parts input_variables to_parse_response).

(** *** Reverse walk: [print_dag_in_reverse] *)

(** [visited] belongs to one walk; [fully_processed], the accumulator
    [generated_code] and the effects are shared by the whole run. *)
Record rstate : Type := {
  visited : gset string;
  fully_processed : gset string;
  generated_code : string;
  llm_calls : nat;
  trace : list event
}.

Definition r_log (e : event) (st : rstate) : rstate :=
  {| visited := visited st; fully_processed := fully_processed st;
     generated_code := generated_code st; llm_calls := llm_calls st;
     trace := trace st ++ [e] |}.

Definition set_visited (v : gset string) (st : rstate) : rstate :=
  {| visited := v; fully_processed := fully_processed st;
     generated_code := generated_code st; llm_calls := llm_calls st;
     trace := trace st |}.

Definition add_fully_processed (n : string) (st : rstate) : rstate :=
  {| visited := visited st; fully_processed := {[n]} ∪ fully_processed st;
     generated_code := generated_code st; llm_calls := llm_calls st;
     trace := trace st |}.

(** [generated_code += text + '\n\n'], with the request counted and recorded. *)
Definition append_code (n text : string) (st : rstate) : rstate :=
  {| visited := visited st; fully_processed := fully_processed st;
     generated_code := generated_code st +:+ (text +:+ nl +:+ nl);
     llm_calls := S (llm_calls st);
     trace := trace st ++ [ESynth n text] |}.

(** [visited.remove(n)]: a [KeyError] when [n] is not a member. *)
Definition visited_remove (n : string) (st : rstate) : outcome * rstate :=
  if decide (n ∈ visited st)
  then (Returned, set_visited (visited st ∖ {[n]}) st)
  else (Raised (KeyError n), st).

(** The inner [get_node_label]. *)
Definition get_node_label (g : nx.DiGraph) (node_id : string) : result string :=
  node_attrs ← nx.getitem g node_id;
  let dynamic_parts := dict_get node_attrs "dynamic_parts" (PStr "") in
  let extracted_parts := dict_get node_attrs "extracted_parts" (PStr "") in
  let content := dict_get node_attrs "content" (PStr "") in
  key ← Py.get content "key" (PStr "");
  let input_variables := dict_get node_attrs "input_variables" (PStr "") in
  let node_type := dict_get node_attrs "node_type" (PStr "") in
  let node_label := "[" +:+ py_str node_type +:+ "] " in
  let node_label := node_label +:+ "[node_id: " +:+ node_id +:+ "]" in
  let node_label := node_label +:+ " [dynamic_parts: " +:+ py_str dynamic_parts +:+ "]" in
  let node_label := node_label +:+ " [extracted_parts: " +:+ py_str extracted_parts +:+ "]" in
  let node_label := node_label +:+ " [input_variables: " +:+ py_str input_variables +:+ "]" in
  let node_label := node_label +:+ " [" +:+ py_str key +:+ "]" in
  mret node_label.

(** Lines 209 to 215: the node is printed, synthesised when asked for, marked
    fully processed and taken off the active path. *)
Definition emit_node (g : nx.DiGraph) (to_generate_code : bool)
    (current_node_id prefix : string) (is_last : bool) (st : rstate)
    : outcome * rstate :=
  match get_node_label g current_node_id with
  | Raise e => (Raised e, st)
  | Ok label =>
      let st := r_log (ELabel current_node_id (prefix +:+ connector is_last +:+ label)) st in
      let synth :=
        if to_generate_code
        then match generate_code (llm_calls st) current_node_id g with
             | Raise e => Raise e
             | Ok text => Ok (append_code current_node_id text st)
             end
        else Ok st in
      match synth with
      | Raise e => (Raised e, st)
      | Ok st =>
          let st := add_fully_processed current_node_id st in
          visited_remove current_node_id st
      end
  end.

Fixpoint _print_dag_recursive (fuel : nat) (g : nx.DiGraph) (max_depth : option Z)
    (to_generate_code : bool) (current_node_id prefix : string) (is_last : bool)
    (depth : Z) (st : rstate) {struct fuel} : option (outcome * rstate) :=
  match fuel with
  | O => None
  | S fuel' =>
      if decide (current_node_id ∈ fully_processed st) then Some (Returned, st)
      else if decide (current_node_id ∈ visited st)
      then Some (Returned, r_log (ECycle current_node_id) st)
      else
        let st := set_visited ({[current_node_id]} ∪ visited st) st in
        if depth_limit_reached max_depth depth
        then Some (visited_remove current_node_id st)
        else
          match nx.successors g current_node_id with
          | Raise e => Some (Raised e, st)
          | Ok children =>
              let child_count := Z.of_nat (length children) in
              match
                for_enumerate
                  (fun i child_id st =>
                     let is_last_child := (i =? child_count - 1)%Z in
                     let new_prefix := prefix +:+ indent is_last in
                     _print_dag_recursive fuel' g max_depth to_generate_code
                       child_id new_prefix is_last_child (depth + 1)%Z st)
                  0%Z children st
              with
              | Some (Returned, st) =>
                  Some (emit_node g to_generate_code current_node_id prefix is_last st)
              | other => other
              end
          end
  end.

Definition source_nodes (g : nx.DiGraph) : list string :=
  filter (fun n => nx.in_degree g n = 0) (nx.nodes g).

Definition initial_rstate : rstate :=
  {| visited := ∅; fully_processed := ∅; generated_code := "";
     llm_calls := 0; trace := [] |}.

Definition saved_notice : string := "Generated code has been saved to 'generated_code.txt'".

(** Lines 252 to 255: the artifact is written and the fact reported. *)
Definition save_generated_code (st : rstate) : rstate :=
  r_log (EPrint saved_notice)
    (r_log (EWrite "generated_code.txt" (generated_code st)) st).

Definition print_dag_in_reverse_with (fuel : nat) (g : nx.DiGraph)
    (max_depth : option Z) (to_generate_code : bool) : option (outcome * rstate) :=
  let source_nodes := source_nodes g in
  let source_count := Z.of_nat (length source_nodes) in
  match
    for_enumerate
      (fun idx source_node st =>
         let is_last_source := (idx =? source_count - 1)%Z in
         _print_dag_recursive fuel g max_depth to_generate_code
           source_node "" is_last_source 0%Z (set_visited ∅ st))
      0%Z source_nodes initial_rstate
  with
  | Some (Returned, st) =>
      if to_generate_code then Some (Returned, save_generated_code st)
      else Some (Returned, st)
  | other => other
  end.

(** The recursion is never deeper than the number of nodes plus one. *)
Definition print_dag_in_reverse (g : nx.DiGraph) (max_depth : option Z)
    (to_generate_code : bool) : option (outcome * rstate) :=
  print_dag_in_reverse_with (S (length (nx.nodes g))) g max_depth to_generate_code.

End Printers.

(** ** Vocabulary of the properties *)

(** [v] is reached from [u] along directed edges (possibly none). *)
Definition reaches (g : nx.DiGraph) (u v : string) : Prop := rtc (nx.edge g) u v.

(** A source node: a node of in-degree 0. *)
Definition is_source (g : nx.DiGraph) (s : string) : Prop :=
  s ∈ nx.nodes g ∧ nx.in_degree g s = 0.

Definition reachable_from_source (g : nx.DiGraph) (n : string) : Prop :=
  ∃ s, is_source g s ∧ reaches g s n.

(** The node carries the key [content], and it holds a dict. *)
Definition has_content (g : nx.DiGraph) (n : string) : Prop :=
  ∃ attrs d, nx.getitem g n = Ok attrs ∧ Py.lookup "content" attrs = Some (PDict d).

(** Moreover the response kept in [content], when there is one, is not [None]. *)
Definition has_response (g : nx.DiGraph) (n : string) : Prop :=
  ∃ attrs d, nx.getitem g n = Ok attrs ∧ Py.lookup "content" attrs = Some (PDict d) ∧
             Py.lookup "value" d ≠ Some PNone.

(** The model answers every request. *)
Definition answers (llm : nat → string → result string) : Prop :=
  ∀ k request, ∃ text, llm k request = Ok text.

(** No node reaches itself along one edge or more. *)
Definition acyclic (g : nx.DiGraph) : Prop := ∀ n, ¬ tc (nx.edge g) n n.

(** In the list [l], [a] occurs strictly before an occurrence of [b]. *)
Definition occurs_before (l : list string) (a b : string) : Prop :=
  ∃ l1 l2, l = l1 ++ b :: l2 ∧ a ∈ l1.

(** The blocks of the artifact: every text is followed by a blank line. *)
Fixpoint code_blocks (texts : list string) : string :=
  match texts with
  | [] => ""
  | text :: rest => (text +:+ nl +:+ nl) +:+ code_blocks rest
  end.

(** The events that precede the first return of the cycle guard. *)
Fixpoint before_first_cycle (t : list event) : list event :=
  match t with
  | [] => []
  | ECycle _ :: _ => []
  | e :: rest => e :: before_first_cycle rest
  end.

(** The nodes of [among] emitted in [t], in order. *)
Definition emitted_among (among : list string) (t : list event) : list string :=
  filter (fun n => n ∈ among) (emitted t).

Definition revisit_count (t : list event) : nat :=
  length (omap (fun e => match e with ERevisit n _ => Some n | _ => None end) t).

(** The sequencing of calls in a loop: the calls on [items] are related by [P]
    one after the other, and the first that raises ends the sequence. *)
Inductive chain {S : Type} (P : string -> S -> outcome -> S -> Prop)
  : list string -> S -> outcome -> S -> Prop :=
| chain_nil st : chain P [] st Returned st
| chain_raise x rest st e st' :
    P x st (Raised e) st' -> chain P (x :: rest) st (Raised e) st'
| chain_cons x rest st st1 out st' :
    P x st Returned st1 -> chain P rest st1 out st' -> chain P (x :: rest) st out st'.

(** ** Sample graphs and sample collaborators *)

(** A renderer and a model to run the printers on the samples. *)
Definition sample_str (v : pyval) : string :=
  match v with
  | PNone => "None"
  | PStr s => s
  | PList [] => "[]"
  | PList _ => "[...]"
  | PDict [] => "{}"
  | PDict _ => "{...}"
  end.

Definition sample_llm (k : nat) (request : string) : result string :=
  Ok ("def request_" +:+ String (ascii_of_nat (48 + k)) EmptyString +:+ "(): pass").

Definition request_node (curl : string) : Py.dict :=
  [("node_type", PStr "cURL");
   ("content", PDict [("key", PStr curl); ("value", PStr "{}")]);
   ("dynamic_parts", PList []);
   ("extracted_parts", PList []);
   ("input_variables", PList [])].


(** Nodes A, B, C with edges A→B, A→C, B→C. *)
Definition diamond : nx.DiGraph :=
  {| nx.node_data := [("A", request_node "curl a"); ("B", request_node "curl b");
                      ("C", request_node "curl c")];
     nx.edge_list := [("A", "B"); ("A", "C"); ("B", "C")] |}.

(** The same with a second source D, with edges D→C and D→B. *)
Definition two_sources : nx.DiGraph :=
  {| nx.node_data := [("A", request_node "curl a"); ("B", request_node "curl b");
                      ("C", request_node "curl c"); ("D", request_node "curl d")];
     nx.edge_list := [("A", "B"); ("A", "C"); ("B", "C"); ("D", "C"); ("D", "B")] |}.

(** A model whose client fails on every request. *)
Definition refusing_llm (k : nat) (request : string) : result string :=
  Raise (LLMError "no answer").

(** The bare cycle A→B→C→A: no node of in-degree 0. *)
Definition cycle3 : nx.DiGraph :=
  {| nx.node_data := [("A", request_node "curl a"); ("B", request_node "curl b");
                      ("C", request_node "curl c")];
     nx.edge_list := [("A", "B"); ("B", "C"); ("C", "A")] |}.

(** The cycle A→B→C→A entered from a source S. *)
Definition entered_cycle : nx.DiGraph :=
  {| nx.node_data := [("S", request_node "curl s"); ("A", request_node "curl a");
                      ("B", request_node "curl b"); ("C", request_node "curl c")];
     nx.edge_list := [("S", "A"); ("A", "B"); ("B", "C"); ("C", "A")] |}.

(** One node added with no attribute at all, as [G.add_node('A')] does. *)
Definition bare_node : nx.DiGraph :=
  {| nx.node_data := [("A", [])]; nx.edge_list := [] |}.

(** A node that has every key but [content]. *)
Definition no_content : nx.DiGraph :=
  {| nx.node_data := [("A", [("node_type", PStr "cURL"); ("dynamic_parts", PList []);
                             ("extracted_parts", PList []); ("input_variables", PList [])])];
     nx.edge_list := [] |}.

(** * Properties *)

(** ** The graph store *)

#[global] Instance wf_dec (g : nx.DiGraph) : Decision (nx.wf g).
Proof. unfold nx.wf. apply _. Defined.

#[global] Instance edge_dec (g : nx.DiGraph) (u v : string) : Decision (nx.edge g u v).
Proof. unfold nx.edge. apply _. Defined.

Lemma elem_of_out_edges (g : nx.DiGraph) (u v : string) :
  v ∈ nx.out_edges g u ↔ nx.edge g u v.
Proof.
  unfold nx.out_edges, nx.edge. rewrite list_elem_of_fmap. split.
  - intros [[a b] [-> Hin]]. apply list_elem_of_filter in Hin as [Hfst Hin].
    simpl in *. by subst.
  - intros Hin. exists (u, v). split; [done |].
    apply list_elem_of_filter. by split.
Qed.

Lemma successors_of_node (g : nx.DiGraph) (n : string) :
  n ∈ nx.nodes g → nx.successors g n = Ok (nx.out_edges g n).
Proof. intros Hn. unfold nx.successors. by rewrite decide_True. Qed.

Lemma successors_inv (g : nx.DiGraph) (n : string) (children : list string) :
  nx.successors g n = Ok children → children = nx.out_edges g n.
Proof. unfold nx.successors. case_decide; congruence. Qed.

Lemma edge_nodes (g : nx.DiGraph) (u v : string) :
  nx.wf g → nx.edge g u v → u ∈ nx.nodes g ∧ v ∈ nx.nodes g.
Proof.
  intros (_ & _ & Hends) Hedge. rewrite Forall_forall in Hends.
  apply (Hends (u, v)), Hedge.
Qed.

Lemma in_degree_zero (g : nx.DiGraph) (n : string) :
  nx.in_degree g n = 0 ↔ ∀ u, ¬ nx.edge g u n.
Proof.
  unfold nx.in_degree, nx.edge. rewrite length_zero_iff_nil. split.
  - intros Hnil u Hin.
    assert (Hf : (u, n) ∈ filter (λ e : string * string, e.2 = n) (nx.edge_list g))
      by (apply list_elem_of_filter; by split).
    rewrite Hnil in Hf. by apply not_elem_of_nil in Hf.
  - intros Hnone. apply elem_of_nil_inv. intros [a b] Hin.
    apply list_elem_of_filter in Hin as [Hb Hin]. simpl in Hb. subst b.
    by apply (Hnone a).
Qed.

Lemma elem_of_source_nodes (g : nx.DiGraph) (s : string) :
  s ∈ source_nodes g ↔ is_source g s.
Proof. unfold source_nodes, is_source. rewrite list_elem_of_filter. tauto. Qed.

Lemma getitem_of_node (g : nx.DiGraph) (n : string) :
  n ∈ nx.nodes g → ∃ a, nx.getitem g n = Ok a.
Proof.
  unfold nx.getitem, nx.nodes. destruct g as [data edges]. simpl.
  induction data as [| [n' a'] data IH]; simpl.
  - intros H. by apply not_elem_of_nil in H.
  - intros H. destruct (String.eqb_spec n n') as [-> | Hne]; [by eexists |].
    apply elem_of_cons in H as [H | H]; [done |]. by apply IH.
Qed.

(** ** Traces *)

Lemma emitted_app (t1 t2 : list event) : emitted (t1 ++ t2) = emitted t1 ++ emitted t2.
Proof. apply omap_app. Qed.

Lemma synthesized_app (t1 t2 : list event) :
  synthesized (t1 ++ t2) = synthesized t1 ++ synthesized t2.
Proof. apply omap_app. Qed.

Lemma writes_app (t1 t2 : list event) : writes (t1 ++ t2) = writes t1 ++ writes t2.
Proof. apply omap_app. Qed.

Lemma string_app_assoc (s1 s2 s3 : string) :
  (s1 +:+ s2) +:+ s3 = s1 +:+ (s2 +:+ s3).
Proof.
  induction s1 as [| a s1 IH]; [reflexivity |].
  change (String a ((s1 +:+ s2) +:+ s3) = String a (s1 +:+ (s2 +:+ s3))).
  by rewrite IH.
Qed.

Lemma string_app_nil_r (s : string) : s +:+ "" = s.
Proof.
  induction s as [| a s IH]; [reflexivity |].
  change (String a (s +:+ "") = String a s). by rewrite IH.
Qed.

Lemma code_blocks_app (l1 l2 : list string) :
  code_blocks (l1 ++ l2) = code_blocks l1 +:+ code_blocks l2.
Proof.
  induction l1 as [| text l1 IH]; [reflexivity |].
  change (code_blocks ((text :: l1) ++ l2))
    with ((text +:+ nl +:+ nl) +:+ code_blocks (l1 ++ l2)).
  change (code_blocks (text :: l1)) with ((text +:+ nl +:+ nl) +:+ code_blocks l1).
  rewrite IH. symmetry. apply string_app_assoc.
Qed.

(** ** Loops *)

Lemma for_enumerate_chain {S : Type} (body : Z → string → S → option (outcome * S))
    (P : string → S → outcome → S → Prop) (items : list string) :
  (∀ i x st out st', x ∈ items → body i x st = Some (out, st') → P x st out st') →
  ∀ i st out st',
    for_enumerate body i items st = Some (out, st') → chain P items st out st'.
Proof.
  induction items as [| x rest IH]; intros Hbody i st out st' Hrun; simpl in Hrun.
  - injection Hrun as <- <-. constructor.
  - destruct (body i x st) as [[[| e] st1] |] eqn:Hx; [| | done].
    + eapply chain_cons.
      * eapply Hbody; [apply list_elem_of_here | exact Hx].
      * eapply IH; [| exact Hrun]. intros. eapply Hbody; [by apply list_elem_of_further | done].
    + injection Hrun as <- <-. apply chain_raise.
      eapply Hbody; [apply list_elem_of_here | exact Hx].
Qed.

(** A loop whose body stays within an invariant [I] and always comes back
    under [I] comes back. *)
Lemma for_enumerate_returns {S : Type} (body : Z → string → S → option (outcome * S))
    (I : S → Prop) (items : list string) :
  (∀ i x st, x ∈ items → I st →
     ∃ out st', body i x st = Some (out, st') ∧ (out = Returned → I st')) →
  ∀ i st, I st → ∃ out st', for_enumerate body i items st = Some (out, st').
Proof.
  induction items as [| x rest IH]; intros Hbody i st HI; simpl.
  - by eexists _, _.
  - destruct (Hbody i x st) as (out & st1 & -> & Hnext); [apply list_elem_of_here | done |].
    destruct out as [| e]; [| by eexists _, _].
    apply IH; [| by apply Hnext].
    intros. apply Hbody; [by apply list_elem_of_further | done].
Qed.

(** A loop that comes back with one body comes back alike with any body that
    agrees with it wherever it answers. *)
Lemma for_enumerate_mono {S : Type} (body body' : Z → string → S → option (outcome * S))
    (items : list string) :
  (∀ i x st r, body i x st = Some r → body' i x st = Some r) →
  ∀ i st r, for_enumerate body i items st = Some r →
            for_enumerate body' i items st = Some r.
Proof.
  intros Hle. induction items as [| x rest IH]; intros i st r Hrun; simpl in *; [done |].
  destruct (body i x st) as [[[| e] st1] |] eqn:Hx; [| | done].
  - rewrite (Hle _ _ _ _ Hx). by apply IH.
  - by rewrite (Hle _ _ _ _ Hx).
Qed.

Lemma chain_impl {S : Type} (P Q : string → S → outcome → S → Prop)
    (items : list string) (st : S) (out : outcome) (st' : S) :
  (∀ x st out st', x ∈ items → P x st out st' → Q x st out st') →
  chain P items st out st' → chain Q items st out st'.
Proof.
  intros Himpl Hchain. induction Hchain.
  - constructor.
  - apply chain_raise. apply Himpl; [apply list_elem_of_here | done].
  - eapply chain_cons.
    + apply Himpl; [apply list_elem_of_here | done].
    + apply IHHchain. intros. apply Himpl; [by apply list_elem_of_further | done].
Qed.

(** ** The reverse walk: structure of a call *)

Section ReverseWalk.

Context (py_str : pyval → string) (llm : nat → string → result string).
Context (g : nx.DiGraph) (max_depth : option Z) (to_generate_code : bool).

Local Abbreviation walk fuel :=
  (_print_dag_recursive py_str llm fuel g max_depth to_generate_code).
Local Abbreviation emit := (emit_node py_str llm g to_generate_code).

Definition enter (n : string) (st : rstate) : rstate :=
  set_visited ({[n]} ∪ visited st) st.

(** Some call of the inner function on [n] takes [st] to [st']. *)
Definition walks (n : string) (st : rstate) (out : outcome) (st' : rstate) : Prop :=
  ∃ fuel prefix is_last depth, walk fuel n prefix is_last depth st = Some (out, st').

Lemma walk_unfold (fuel : nat) (n prefix : string) (is_last : bool) (depth : Z)
    (st : rstate) :
  walk (S fuel) n prefix is_last depth st =
    if decide (n ∈ fully_processed st) then Some (Returned, st)
    else if decide (n ∈ visited st) then Some (Returned, r_log (ECycle n) st)
    else if depth_limit_reached max_depth depth
    then Some (visited_remove n (enter n st))
    else
      match nx.successors g n with
      | Raise e => Some (Raised e, enter n st)
      | Ok children =>
          match
            for_enumerate
              (fun i child_id st =>
                 walk fuel child_id (prefix +:+ indent is_last)
                   (i =? Z.of_nat (length children) - 1)%Z (depth + 1)%Z st)
              0%Z children (enter n st)
          with
          | Some (Returned, st2) => Some (emit n prefix is_last st2)
          | other => other
          end
      end.
Proof. reflexivity. Qed.

Lemma enter_leave (n : string) (st : rstate) :
  n ∉ visited st → visited_remove n (enter n st) = (Returned, st).
Proof.
  intros Hn. unfold visited_remove, enter. simpl.
  rewrite decide_True by set_solver. f_equal.
  destruct st as [v fp code k t]. unfold set_visited. simpl. f_equal. set_solver.
Qed.

(** What emitting a node does when it returns... *)
Definition emit_returned (n : string) (st st' : rstate) : Prop :=
  ∃ line,
    visited st' = visited st ∖ {[n]} ∧
    fully_processed st' = {[n]} ∪ fully_processed st ∧
    ((to_generate_code = false ∧ trace st' = trace st ++ [ELabel n line] ∧
      generated_code st' = generated_code st)
     ∨ (to_generate_code = true ∧ ∃ text,
          trace st' = trace st ++ [ELabel n line; ESynth n text] ∧
          generated_code st' = generated_code st +:+ (text +:+ nl +:+ nl))).

(** ... and when the label or the synthesis step raises. *)
Definition emit_raised (n : string) (st st' : rstate) : Prop :=
  visited st' = visited st ∧ fully_processed st' = fully_processed st ∧
  generated_code st' = generated_code st ∧
  (trace st' = trace st ∨ ∃ line, trace st' = trace st ++ [ELabel n line]).

Lemma emit_node_cases (n prefix : string) (is_last : bool) (st : rstate)
    (out : outcome) (st' : rstate) :
  emit n prefix is_last st = (out, st') → n ∈ visited st →
  (out = Returned ∧ emit_returned n st st') ∨ (∃ e, out = Raised e ∧ emit_raised n st st').
Proof.
  unfold emit_node. intros Hemit Hn.
  destruct (get_node_label py_str g n) as [label | e].
  2: { injection Hemit as <- <-. right. exists e. unfold emit_raised. naive_solver. }
  destruct to_generate_code eqn:Hgen.
  - destruct (generate_code py_str llm _ n g) as [text | e].
    + unfold visited_remove in Hemit. simpl in Hemit.
      rewrite decide_True in Hemit by done. injection Hemit as <- <-.
      left. split; [done |]. eexists. simpl. split_and!; [done | done |].
      right. split; [done |]. exists text. split; [| done].
      by rewrite <- app_assoc.
    + injection Hemit as <- <-. right. exists e. unfold emit_raised. simpl.
      split_and!; try done. right. by eexists.
  - unfold visited_remove in Hemit. simpl in Hemit.
    rewrite decide_True in Hemit by done. injection Hemit as <- <-.
    left. split; [done |]. eexists. simpl. split_and!; [done | done |].
    left. by split_and!.
Qed.

Lemma chain_visited (items : list string) (st : rstate) (out : outcome) (st' : rstate) :
  chain (λ _ st out st', out = Returned → visited st' = visited st) items st out st' →
  out = Returned → visited st' = visited st.
Proof.
  intros Hchain.
  induction Hchain as [| | x rest st st1 out st' Hx Hrest IH]; [done | done |].
  intros Hout. rewrite IH by done. by apply Hx.
Qed.

(** The active path is the same after a call that returns as before it. *)
Lemma walk_restores_visited (fuel : nat) (n prefix : string) (is_last : bool)
    (depth : Z) (st : rstate) (out : outcome) (st' : rstate) :
  walk fuel n prefix is_last depth st = Some (out, st') →
  out = Returned → visited st' = visited st.
Proof.
  revert n prefix is_last depth st out st'.
  induction fuel as [| fuel IH]; intros n prefix is_last depth st out st' Hwalk Hout;
    [done |].
  rewrite walk_unfold in Hwalk.
  case_decide; [by injection Hwalk as <- <- |].
  case_decide; [by injection Hwalk as <- <- |].
  destruct (depth_limit_reached max_depth depth).
  { rewrite enter_leave in Hwalk by done. by injection Hwalk as <- <-. }
  destruct (nx.successors g n) as [children | e]; [| injection Hwalk as <- <-; done].
  destruct (for_enumerate _ _ _ _) as [[[| e] st2] |] eqn:Hloop; [| by simplify_eq | done].
  apply for_enumerate_chain
    with (P := λ _ st out st', out = Returned → visited st' = visited st) in Hloop.
  2: { intros i x s o s' _ Hx. by eapply IH. }
  apply chain_visited in Hloop; [| done]. simpl in Hloop.
  injection Hwalk as Hemit.
  assert (Hin : n ∈ visited st2) by (rewrite Hloop; set_solver).
  destruct (emit_node_cases _ _ _ _ _ _ Hemit Hin)
    as [[_ (line & Hv & _)] | (e & -> & _)]; [| done].
  rewrite Hv, Hloop. set_solver.
Qed.

Lemma walks_restores_visited (n : string) (st st' : rstate) :
  walks n st Returned st' → visited st' = visited st.
Proof. intros (fuel & prefix & is_last & depth & Hwalk). by eapply walk_restores_visited. Qed.

Lemma chain_walks_visited (P : string → rstate → outcome → rstate → Prop)
    (items : list string) (st st' : rstate) :
  chain (λ x st out st', P x st out st' ∧ walks x st out st') items st Returned st' →
  visited st' = visited st.
Proof.
  intros Hchain. apply (chain_visited items st Returned); [| done].
  eapply chain_impl; [| exact Hchain]. simpl.
  intros x s o s' _ [_ Hw] ->. by apply walks_restores_visited in Hw.
Qed.

(** *** Induction over the calls of the walk

    To show [P n st out st'] for every call of the inner function it is enough
    to show it for each way a call can end, where the calls on the children are
    known to satisfy [P] already. *)

Section WalkInduction.

Variable P : string → rstate → outcome → rstate → Prop.

Definition P_call (n : string) (st : rstate) (out : outcome) (st' : rstate) : Prop :=
  P n st out st' ∧ walks n st out st'.

Hypothesis P_processed : ∀ n st, n ∈ fully_processed st → P n st Returned st.

Hypothesis P_cycle : ∀ n st,
  n ∉ fully_processed st → n ∈ visited st → P n st Returned (r_log (ECycle n) st).

Hypothesis P_depth : ∀ n st,
  n ∉ fully_processed st → n ∉ visited st → max_depth ≠ None → P n st Returned st.

Hypothesis P_successors : ∀ n st e,
  n ∉ fully_processed st → n ∉ visited st → nx.successors g n = Raise e →
  P n st (Raised e) (enter n st).

Hypothesis P_child_raised : ∀ n st children e st',
  n ∉ fully_processed st → n ∉ visited st → nx.successors g n = Ok children →
  chain P_call children (enter n st) (Raised e) st' →
  P n st (Raised e) st'.

Hypothesis P_emit : ∀ n st children st2 prefix is_last out st',
  n ∉ fully_processed st → n ∉ visited st → nx.successors g n = Ok children →
  chain P_call children (enter n st) Returned st2 →
  visited st2 = {[n]} ∪ visited st →
  emit n prefix is_last st2 = (out, st') →
  P n st out st'.

Lemma walk_ind (fuel : nat) (n prefix : string) (is_last : bool) (depth : Z)
    (st : rstate) (out : outcome) (st' : rstate) :
  walk fuel n prefix is_last depth st = Some (out, st') → P n st out st'.
Proof.
  revert n prefix is_last depth st out st'.
  induction fuel as [| fuel IH]; intros n prefix is_last depth st out st' Hwalk; [done |].
  rewrite walk_unfold in Hwalk.
  case_decide as Hfp; [injection Hwalk as <- <-; by apply P_processed |].
  case_decide as Hvis; [injection Hwalk as <- <-; by apply P_cycle |].
  destruct (depth_limit_reached max_depth depth) eqn:Hdepth.
  { rewrite enter_leave in Hwalk by done. injection Hwalk as <- <-.
    apply P_depth; [done | done |]. by destruct max_depth. }
  destruct (nx.successors g n) as [children | e] eqn:Hsucc;
    [| injection Hwalk as <- <-; by apply P_successors].
  destruct (for_enumerate _ _ _ _) as [[[| e] st2] |] eqn:Hloop; [| | done].
  - apply for_enumerate_chain with (P := P_call) in Hloop.
    2: { intros i x s o s' _ Hx. split; [by eapply IH |]. by eexists _, _, _, _. }
    injection Hwalk as Hemit.
    eapply P_emit; [done | done | done | exact Hloop | | exact Hemit].
    by apply chain_walks_visited in Hloop.
  - apply for_enumerate_chain with (P := P_call) in Hloop.
    2: { intros i x s o s' _ Hx. split; [by eapply IH |]. by eexists _, _, _, _. }
    injection Hwalk as <- <-. by eapply P_child_raised.
Qed.

End WalkInduction.

(** *** What a call emits

    The events [t] a call appends emit pairwise distinct nodes, none of them
    processed before or on the active path, all of them taken from [R]; the set
    of processed nodes grows by these nodes and by nothing else. *)

Definition emits_fresh (R : string → Prop) (st : rstate) (out : outcome) (st' : rstate)
    : Prop :=
  ∃ t, trace st' = trace st ++ t ∧
       NoDup (emitted t) ∧
       (∀ x, x ∈ emitted t → (x ∉ fully_processed st) ∧ (x ∉ visited st) ∧ R x) ∧
       fully_processed st ⊆ fully_processed st' ∧
       (∀ x, x ∈ fully_processed st' → x ∈ fully_processed st ∨ x ∈ emitted t) ∧
       (out = Returned → ∀ x, x ∈ emitted t → x ∈ fully_processed st').

Lemma emits_fresh_nothing (R : string → Prop) (st st' : rstate) (out : outcome) :
  trace st' = trace st → fully_processed st' = fully_processed st →
  emits_fresh R st out st'.
Proof.
  intros Ht Hfp. exists []. rewrite Ht, Hfp, app_nil_r. simpl.
  split_and!; [done | constructor | | done | by left |];
    intros; by match goal with H : _ ∈ [] |- _ => apply not_elem_of_nil in H end.
Qed.

Lemma emits_fresh_chain (items : list string) (st : rstate) (out : outcome)
    (st' : rstate) :
  chain (P_call (λ x, emits_fresh (reaches g x))) items st out st' →
  emits_fresh (λ x, ∃ c, c ∈ items ∧ reaches g c x) st out st'.
Proof.
  intros Hchain.
  induction Hchain as [st | c rest st e st' [Hc _]
                       | c rest st st1 out st' [Hc Hw] Hrest IH].
  - by apply emits_fresh_nothing.
  - destruct Hc as (t & Ht & Hnd & Hnew & Hsub & Hsup & Hret).
    exists t. split_and!; try done.
    intros x Hx. destruct (Hnew x Hx) as (? & ? & ?).
    split_and!; [done | done |]. exists c. split; [apply list_elem_of_here | done].
  - destruct Hc as (t1 & Ht1 & Hnd1 & Hnew1 & Hsub1 & Hsup1 & Hret1).
    destruct IH as (t2 & Ht2 & Hnd2 & Hnew2 & Hsub2 & Hsup2 & Hret2).
    apply walks_restores_visited in Hw.
    exists (t1 ++ t2). rewrite emitted_app.
    split_and!.
    + by rewrite Ht2, Ht1, app_assoc.
    + apply NoDup_app. split_and!; [done | | done].
      intros x Hx1 Hx2. apply (Hret1 eq_refl) in Hx1. by apply Hnew2 in Hx2 as [? _].
    + intros x [Hx | Hx]%elem_of_app.
      * destruct (Hnew1 x Hx) as (? & ? & ?). split_and!; [done | done |].
        exists c. split; [apply list_elem_of_here | done].
      * destruct (Hnew2 x Hx) as (Hfp & Hvis & c' & Hc' & Hreach).
        split_and!; [set_solver | by rewrite <- Hw |].
        exists c'. split; [by apply list_elem_of_further | done].
    + set_solver.
    + intros x Hx. rewrite elem_of_app.
      destruct (Hsup2 x Hx) as [Hx1 | ?]; [| by auto].
      destruct (Hsup1 x Hx1); auto.
    + intros Hout x [Hx | Hx]%elem_of_app; [| by apply Hret2].
      apply Hsub2. by apply Hret1.
Qed.

Lemma walk_emits_fresh (fuel : nat) (n prefix : string) (is_last : bool) (depth : Z)
    (st : rstate) (out : outcome) (st' : rstate) :
  walk fuel n prefix is_last depth st = Some (out, st') →
  emits_fresh (reaches g n) st out st'.
Proof.
  revert fuel n prefix is_last depth st out st'.
  intros fuel n prefix is_last depth st out st'.
  apply (walk_ind (λ n, emits_fresh (reaches g n))); clear.
  - intros n st _. by apply emits_fresh_nothing.
  - intros n st _ _. exists [ECycle n]. simpl.
    split_and!; [done | constructor | | done | by left |];
      intros; by match goal with H : _ ∈ [] |- _ => apply not_elem_of_nil in H end.
  - intros n st _ _ _. by apply emits_fresh_nothing.
  - intros n st e _ _ _. by apply emits_fresh_nothing.
  - intros n st children e st' Hfp Hvis Hsucc Hchain.
    apply successors_inv in Hsucc as ->.
    apply emits_fresh_chain in Hchain
      as (t & Ht & Hnd & Hnew & Hsub & Hsup & Hret).
    exists t. split_and!; try done.
    intros x Hx. destruct (Hnew x Hx) as (Hxfp & Hxvis & c & Hc & Hreach).
    simpl in *. split_and!; [done | set_solver |].
    apply elem_of_out_edges in Hc. by eapply rtc_l.
  - intros n st children st2 prefix is_last out st' Hfp Hvis Hsucc Hchain Hv2 Hemit.
    apply successors_inv in Hsucc as ->.
    apply emits_fresh_chain in Hchain
      as (t & Ht & Hnd & Hnew & Hsub & Hsup & Hret).
    simpl in Ht, Hnew, Hsub, Hsup.
    assert (Hreach : ∀ x, x ∈ emitted t → reaches g n x).
    { intros x Hx. destruct (Hnew x Hx) as (_ & _ & c & Hc & Hreach).
      apply elem_of_out_edges in Hc. by eapply rtc_l. }
    assert (Hn : n ∉ emitted t).
    { intros Hx. destruct (Hnew n Hx) as (_ & Hxvis & _). set_solver. }
    assert (Hin : n ∈ visited st2) by (rewrite Hv2; set_solver).
    destruct (emit_node_cases _ _ _ _ _ _ Hemit Hin)
      as [[-> (line & Hv & Hfp' & Htrace)] | (e & -> & Hv & Hfp' & _ & Htrace)].
    + assert (∃ t', trace st' = trace st2 ++ t' ∧ emitted t' = [n]) as (t' & Ht' & Hem).
      { destruct Htrace as [(_ & -> & _) | (_ & text & -> & _)]; by eexists. }
      exists (t ++ t'). rewrite emitted_app, Hem.
      split_and!.
      * by rewrite Ht', Ht, app_assoc.
      * apply NoDup_app. split_and!; [done | set_solver | apply NoDup_singleton].
      * intros x [Hx | ->%list_elem_of_singleton]%elem_of_app.
        -- destruct (Hnew x Hx) as (? & ? & _). split_and!; [done | set_solver | by auto].
        -- split_and!; [done | done | apply rtc_refl].
      * set_solver.
      * intros x. rewrite Hfp', elem_of_app, list_elem_of_singleton.
        intros [->%elem_of_singleton | Hx]%elem_of_union; [by auto |].
        destruct (Hsup x Hx); auto.
      * intros _ x. rewrite Hfp'.
        intros [Hx | ->%list_elem_of_singleton]%elem_of_app; [| set_solver].
        specialize (Hret eq_refl x Hx). set_solver.
    + assert (∃ t', trace st' = trace st2 ++ t' ∧ (emitted t' = [] ∨ emitted t' = [n]))
        as (t' & Ht' & Hem).
      { destruct Htrace as [-> | (line & ->)]; [exists [] | eexists]; split;
          [by rewrite app_nil_r | by left | done | by right]. }
      exists (t ++ t'). rewrite emitted_app.
      split_and!.
      * by rewrite Ht', Ht, app_assoc.
      * destruct Hem as [-> | ->]; [by rewrite app_nil_r |].
        apply NoDup_app. split_and!; [done | set_solver | apply NoDup_singleton].
      * intros x [Hx | Hx]%elem_of_app.
        -- destruct (Hnew x Hx) as (? & ? & _). split_and!; [done | set_solver | by auto].
        -- destruct Hem as [Hem | Hem]; rewrite Hem in Hx;
             [by apply not_elem_of_nil in Hx |].
           apply list_elem_of_singleton in Hx as ->.
           split_and!; [done | done | apply rtc_refl].
      * set_solver.
      * intros x. rewrite Hfp', elem_of_app. intros Hx. destruct (Hsup x Hx); auto.
      * done.
Qed.

Lemma walks_emits_fresh (n : string) (st : rstate) (out : outcome) (st' : rstate) :
  walks n st out st' → emits_fresh (reaches g n) st out st'.
Proof. intros (fuel & prefix & is_last & depth & Hwalk). by eapply walk_emits_fresh. Qed.

Lemma walks_processed_mono (n : string) (st : rstate) (out : outcome) (st' : rstate) :
  walks n st out st' → fully_processed st ⊆ fully_processed st'.
Proof. intros (t & _ & _ & _ & Hsub & _)%walks_emits_fresh. done. Qed.

(** The processed nodes are the emitted ones, each emitted once. *)
Definition consistent (st : rstate) : Prop :=
  NoDup (emitted (trace st)) ∧ ∀ x, x ∈ fully_processed st ↔ x ∈ emitted (trace st).

Lemma emits_fresh_consistent (R : string → Prop) (st : rstate) (out : outcome)
    (st' : rstate) :
  emits_fresh R st out st' → consistent st →
  NoDup (emitted (trace st')) ∧ (out = Returned → consistent st').
Proof.
  intros (t & Ht & Hnd & Hnew & Hsub & Hsup & Hret) [Hnd0 Hsame].
  assert (Hall : NoDup (emitted (trace st'))).
  { rewrite Ht, emitted_app. apply NoDup_app. split_and!; [done | | done].
    intros x Hx Hx'. apply Hsame in Hx. by apply Hnew in Hx' as [? _]. }
  split; [done |]. intros Hout. split; [done |].
  intros x. rewrite Ht, emitted_app, elem_of_app. split.
  - intros Hx. destruct (Hsup x Hx) as [?%Hsame | ?]; auto.
  - intros [Hx%Hsame | Hx]; [by apply Hsub | by apply Hret].
Qed.

(** *** Without a depth limit every call that returns completes its node *)

(** Each successor of a processed node is processed or on the active path. *)
Definition closed (st : rstate) : Prop :=
  ∀ u v, u ∈ fully_processed st → nx.edge g u v →
         v ∈ fully_processed st ∨ v ∈ visited st.

Definition completes (n : string) (st : rstate) (out : outcome) (st' : rstate) : Prop :=
  out = Returned →
  (n ∈ fully_processed st' ∨ n ∈ visited st) ∧ (closed st → closed st').

Lemma completes_chain (items : list string) (st : rstate) (out : outcome) (st' : rstate) :
  chain (P_call completes) items st out st' → out = Returned →
  (∀ c, c ∈ items → c ∈ fully_processed st' ∨ c ∈ visited st) ∧ (closed st → closed st').
Proof.
  intros Hchain.
  induction Hchain as [st | | c rest st st1 out st' [Hc Hw] Hrest IH]; [| done |].
  - intros _. split; [| done]. intros c Hc. by apply not_elem_of_nil in Hc.
  - intros ->. destruct (Hc eq_refl) as [Hc1 Hcl1]. destruct (IH eq_refl) as [Hin Hcl].
    pose proof (walks_restores_visited _ _ _ Hw) as Hv.
    assert (Hmono : fully_processed st1 ⊆ fully_processed st').
    { clear -Hrest. remember Returned as o eqn:Ho.
      induction Hrest as [| | ? ? ? ? ? ? [_ Hw] ? IH]; [done | done |].
      apply walks_processed_mono in Hw. specialize (IH Ho). set_solver. }
    split; [| by auto].
    intros x [-> | Hx]%elem_of_cons.
    + destruct Hc1 as [Hc1 | Hc1]; [left; by apply Hmono | by right].
    + destruct (Hin x Hx) as [? | Hxv]; [by left | right; by rewrite <- Hv].
Qed.

Lemma walk_completes (fuel : nat) (n prefix : string) (is_last : bool) (depth : Z)
    (st : rstate) (out : outcome) (st' : rstate) :
  max_depth = None →
  walk fuel n prefix is_last depth st = Some (out, st') → completes n st out st'.
Proof.
  intros Hmd. apply (walk_ind completes); clear -Hmd.
  - intros n st Hn _. split; [by left | done].
  - intros n st _ Hn _. split; [by right | done].
  - done.
  - done.
  - done.
  - intros n st children st2 prefix is_last out st' Hfp Hvis Hsucc Hchain Hv2 Hemit Hout.
    apply successors_inv in Hsucc as ->.
    apply completes_chain in Hchain as [Hin Hcl]; [| done].
    assert (Hin2 : n ∈ visited st2) by (rewrite Hv2; set_solver).
    destruct (emit_node_cases _ _ _ _ _ _ Hemit Hin2)
      as [[_ (line & Hv & Hfp' & _)] | (e & -> & _)]; [| done].
    split; [left; rewrite Hfp'; set_solver |].
    intros Hclosed.
    assert (Hcl2 : closed st2).
    { apply Hcl. intros u v Hu Huv. simpl. destruct (Hclosed u v Hu Huv); set_solver. }
    intros u v. rewrite Hfp', Hv, Hv2.
    intros [->%elem_of_singleton | Hu]%elem_of_union Huv.
    + apply elem_of_out_edges in Huv. destruct (Hin v Huv) as [? | Hvv]; [set_solver |].
      simpl in Hvv. destruct (decide (v = n)) as [-> | ?]; set_solver.
    + destruct (Hcl2 u v Hu Huv) as [? | Hvv]; [set_solver |].
      rewrite Hv2 in Hvv. destruct (decide (v = n)) as [-> | ?]; set_solver.
Qed.

(** *** On an acyclic graph a node is emitted after its successors *)

(** Every node of the active path leads to [n] along one edge or more. *)
Definition on_path_to (st : rstate) (n : string) : Prop :=
  ∀ a, a ∈ visited st → tc (nx.edge g) a n.

(** Wherever [u] stands in the emitted sequence, its successors stand before. *)
Definition successors_first (l : list string) : Prop :=
  ∀ l1 u l2 v, l = l1 ++ u :: l2 → nx.edge g u v → v ∈ l1.

Definition post_order (n : string) (st : rstate) (out : outcome) (st' : rstate) : Prop :=
  on_path_to st n → consistent st → successors_first (emitted (trace st)) →
  out = Returned →
  n ∈ fully_processed st' ∧ successors_first (emitted (trace st')).

Lemma successors_first_snoc (l : list string) (n : string) :
  successors_first l → (∀ v, nx.edge g n v → v ∈ l) → successors_first (l ++ [n]).
Proof.
  intros Hl Hn l1 u l2 v Heq Huv.
  destruct l2 as [| y l2 _] using rev_ind.
  - apply app_inj_tail in Heq as [<- <-]. by apply Hn.
  - rewrite app_comm_cons, app_assoc in Heq.
    apply app_inj_tail in Heq as [-> _]. by eapply Hl.
Qed.

Lemma post_order_chain (items : list string) (st : rstate) (out : outcome)
    (st' : rstate) :
  chain (P_call post_order) items st out st' → out = Returned →
  (∀ c, c ∈ items → on_path_to st c) → consistent st →
  successors_first (emitted (trace st)) →
  (∀ c, c ∈ items → c ∈ fully_processed st') ∧ consistent st' ∧
  successors_first (emitted (trace st')).
Proof.
  intros Hchain.
  induction Hchain as [st | | c rest st st1 out st' [Hc Hw] Hrest IH]; [| done |].
  - intros _ _ Hcons Hord. split_and!; [| done | done].
    intros c Hc. by apply not_elem_of_nil in Hc.
  - intros -> Hpath Hcons Hord.
    destruct (Hc (Hpath c (list_elem_of_here _ _)) Hcons Hord eq_refl) as [Hc1 Hord1].
    pose proof (walks_restores_visited _ _ _ Hw) as Hv.
    pose proof (walks_emits_fresh _ _ _ _ Hw) as Hfresh.
    destruct (emits_fresh_consistent _ _ _ _ Hfresh Hcons) as [_ Hcons1].
    specialize (Hcons1 eq_refl).
    destruct IH as (Hin & Hcons' & Hord'); [done | | done | done |].
    { intros c' Hc' a Ha. rewrite Hv in Ha. apply Hpath; [by apply list_elem_of_further | done]. }
    assert (Hmono : fully_processed st1 ⊆ fully_processed st').
    { clear -Hrest. remember Returned as o eqn:Ho.
      induction Hrest as [| | ? ? ? ? ? ? [_ Hw] ? IH]; [done | done |].
      apply walks_processed_mono in Hw. specialize (IH Ho). set_solver. }
    split_and!; [| done | done].
    intros x [-> | Hx]%elem_of_cons; [by apply Hmono | by apply Hin].
Qed.

Lemma walk_post_order (fuel : nat) (n prefix : string) (is_last : bool) (depth : Z)
    (st : rstate) (out : outcome) (st' : rstate) :
  max_depth = None → acyclic g →
  walk fuel n prefix is_last depth st = Some (out, st') → post_order n st out st'.
Proof.
  intros Hmd Hacyclic. apply (walk_ind post_order); clear -Hmd Hacyclic.
  - intros n st Hn _ _ Hord _. done.
  - intros n st _ Hn Hpath. by destruct (Hacyclic n (Hpath n Hn)).
  - done.
  - done.
  - done.
  - intros n st children st2 prefix is_last out st' Hfp Hvis Hsucc Hchain Hv2 Hemit
      Hpath Hcons Hord Hout.
    apply successors_inv in Hsucc as ->.
    apply post_order_chain in Hchain as (Hin & Hcons2 & Hord2); [| done | | done | done].
    2: { intros c Hc%elem_of_out_edges a. simpl.
         intros [->%elem_of_singleton | Ha]%elem_of_union; [by apply tc_once |].
         eapply tc_r; [by apply Hpath | done]. }
    assert (Hin2 : n ∈ visited st2) by (rewrite Hv2; set_solver).
    destruct (emit_node_cases _ _ _ _ _ _ Hemit Hin2)
      as [[_ (line & Hv & Hfp' & Htrace)] | (e & -> & _)]; [| done].
    split; [rewrite Hfp'; set_solver |].
    assert (Hem : emitted (trace st') = emitted (trace st2) ++ [n]).
    { destruct Htrace as [(_ & -> & _) | (_ & text & -> & _)]; by rewrite emitted_app. }
    rewrite Hem. apply successors_first_snoc; [done |].
    intros v Hv'%elem_of_out_edges. by apply Hcons2, Hin.
Qed.

(** *** The accumulated code follows the emissions *)

(** The events [t] of a call write no file; the accumulator grows by the
    blocks of the texts synthesised in [t]; the nodes synthesised are the
    nodes emitted, in the same order, short of the last one at most when the
    call raises. *)
Definition code_follows (st : rstate) (out : outcome) (st' : rstate) : Prop :=
  ∃ t, trace st' = trace st ++ t ∧
       writes t = [] ∧
       generated_code st' = generated_code st +:+ code_blocks ((synthesized t).*2) ∧
       (synthesized t).*1 `prefix_of` emitted t ∧
       (to_generate_code = true → out = Returned → (synthesized t).*1 = emitted t) ∧
       (to_generate_code = false → synthesized t = []).

Lemma code_follows_nothing (st st' : rstate) (out : outcome) (t : list event) :
  trace st' = trace st ++ t → emitted t = [] → synthesized t = [] → writes t = [] →
  generated_code st' = generated_code st → code_follows st out st'.
Proof.
  intros Ht Hem Hsy Hwr Hcode. exists t. rewrite Hem, Hsy, Hcode. simpl.
  split_and!; try done. by rewrite string_app_nil_r.
Qed.

Lemma code_follows_trans (st st1 : rstate) (out : outcome) (st2 : rstate) :
  code_follows st Returned st1 → code_follows st1 out st2 → code_follows st out st2.
Proof.
  intros (t1 & Ht1 & Hw1 & Hc1 & Hp1 & He1 & Hn1) (t2 & Ht2 & Hw2 & Hc2 & Hp2 & He2 & Hn2).
  exists (t1 ++ t2). rewrite writes_app, synthesized_app, emitted_app, !fmap_app.
  split_and!.
  - by rewrite Ht2, Ht1, app_assoc.
  - by rewrite Hw1, Hw2.
  - by rewrite Hc2, Hc1, code_blocks_app, string_app_assoc.
  - destruct to_generate_code eqn:Hgen.
    + rewrite He1 by done. by apply prefix_app.
    + rewrite Hn1, Hn2 by done. apply prefix_nil.
  - intros Hgen Hout. by rewrite He1, He2.
  - intros Hgen. by rewrite Hn1, Hn2.
Qed.

Lemma code_follows_chain (items : list string) (st : rstate) (out : outcome)
    (st' : rstate) :
  chain (P_call (λ _, code_follows)) items st out st' → code_follows st out st'.
Proof.
  intros Hchain.
  induction Hchain as [st | c rest st e st' [Hc _]
                       | c rest st st1 out st' [Hc _] Hrest IH].
  - apply (code_follows_nothing _ _ _ []); try done. by rewrite app_nil_r.
  - done.
  - by eapply code_follows_trans.
Qed.

Lemma emit_code_follows (n prefix : string) (is_last : bool) (st : rstate)
    (out : outcome) (st' : rstate) :
  emit n prefix is_last st = (out, st') → n ∈ visited st → code_follows st out st'.
Proof.
  intros Hemit Hn.
  destruct (emit_node_cases _ _ _ _ _ _ Hemit Hn)
    as [[-> (line & _ & _ & Htrace)] | (e & -> & _ & _ & Hcode & Htrace)].
  - destruct Htrace as [(Hgen & Ht & Hcode) | (Hgen & text & Ht & Hcode)].
    + exists [ELabel n line]. rewrite Hgen, Hcode. simpl.
      split_and!; try done; [by rewrite string_app_nil_r | apply prefix_nil].
    + exists [ELabel n line; ESynth n text]. rewrite Hgen, Hcode. simpl.
      split_and!; try done. by rewrite string_app_nil_r.
  - destruct Htrace as [Ht | (line & Ht)].
    + apply (code_follows_nothing _ _ _ []); try done. by rewrite app_nil_r.
    + exists [ELabel n line]. rewrite Hcode. simpl.
      split_and!; try done; [by rewrite string_app_nil_r | apply prefix_nil].
Qed.

Lemma walk_code_follows (fuel : nat) (n prefix : string) (is_last : bool) (depth : Z)
    (st : rstate) (out : outcome) (st' : rstate) :
  walk fuel n prefix is_last depth st = Some (out, st') → code_follows st out st'.
Proof.
  apply (walk_ind (λ _, code_follows)); clear.
  - intros n st _. apply (code_follows_nothing _ _ _ []); try done. by rewrite app_nil_r.
  - intros n st _ _. by apply (code_follows_nothing _ _ _ [ECycle n]).
  - intros n st _ _ _. apply (code_follows_nothing _ _ _ []); try done. by rewrite app_nil_r.
  - intros n st e _ _ _.
    apply (code_follows_nothing _ _ _ []); try done. by rewrite app_nil_r.
  - intros n st children e st' _ _ _ Hchain. by apply code_follows_chain in Hchain.
  - intros n st children st2 prefix is_last out st' _ _ _ Hchain Hv2 Hemit.
    apply code_follows_chain in Hchain.
    eapply code_follows_trans; [exact Hchain |].
    eapply emit_code_follows; [done |]. rewrite Hv2. set_solver.
Qed.

(** *** Termination of the reverse walk *)

(** The nodes of the graph that are not on the active path. *)
Definition off_path (st : rstate) : gset string :=
  list_to_set (nx.nodes g) ∖ visited st.

Lemma off_path_enter (n : string) (st : rstate) :
  n ∈ nx.nodes g → n ∉ visited st → size (off_path (enter n st)) < size (off_path st).
Proof.
  intros Hn Hvis. apply subset_size. unfold off_path. simpl.
  apply strict_spec_alt. split; [set_solver |].
  intros Heq. assert (Hin : n ∈ (list_to_set (nx.nodes g) ∖ visited st : gset string)).
  { apply elem_of_difference. split; [by apply elem_of_list_to_set | done]. }
  rewrite <- Heq in Hin. set_solver.
Qed.

(** A budget above the number of nodes off the active path is enough. *)
Lemma walk_returns (fuel : nat) (n prefix : string) (is_last : bool) (depth : Z)
    (st : rstate) :
  nx.wf g → size (off_path st) < fuel →
  ∃ out st', walk fuel n prefix is_last depth st = Some (out, st').
Proof.
  intros Hwf. revert n prefix is_last depth st.
  induction fuel as [| fuel IH]; intros n prefix is_last depth st Hsize; [lia |].
  rewrite walk_unfold.
  case_decide as Hfp; [by eexists _, _ |].
  case_decide as Hvis; [by eexists _, _ |].
  destruct (depth_limit_reached max_depth depth).
  { rewrite enter_leave by done. by eexists _, _. }
  unfold nx.successors. case_decide as Hn; [| by eexists _, _].
  destruct (for_enumerate_returns
              (λ i child_id st,
                 walk fuel child_id (prefix +:+ indent is_last)
                   (i =? Z.of_nat (length (nx.out_edges g n)) - 1)%Z (depth + 1)%Z st)
              (λ s, visited s = visited (enter n st))
              (nx.out_edges g n)) with (i := 0%Z) (st := enter n st)
    as (out & st2 & Hloop); [| done |].
  - intros i x s Hx Hs.
    destruct (IH x (prefix +:+ indent is_last)
                (i =? Z.of_nat (length (nx.out_edges g n)) - 1)%Z (depth + 1)%Z s)
      as (out & s' & Hcall).
    { pose proof (off_path_enter n st Hn Hvis) as Hlt.
      unfold off_path in *. rewrite Hs. lia. }
    exists out, s'. split; [done |]. intros ->.
    rewrite <- Hs. by eapply walk_restores_visited.
  - rewrite Hloop. destruct out; [| by eexists _, _].
    destruct (emit n prefix is_last st2) as [out st'] eqn:Hemit. by eexists _, _.
Qed.

(** A larger budget changes nothing. *)
Lemma walk_fuel_mono (fuel fuel' : nat) (n prefix : string) (is_last : bool)
    (depth : Z) (st : rstate) (r : outcome * rstate) :
  (fuel ≤ fuel')%nat →
  walk fuel n prefix is_last depth st = Some r →
  walk fuel' n prefix is_last depth st = Some r.
Proof.
  revert fuel' n prefix is_last depth st r.
  induction fuel as [| fuel IH]; intros fuel' n prefix is_last depth st r Hle Hwalk;
    [done |].
  destruct fuel' as [| fuel']; [lia |].
  rewrite walk_unfold in *.
  case_decide; [done |]. case_decide; [done |].
  destruct (depth_limit_reached max_depth depth); [done |].
  destruct (nx.successors g n) as [children | e]; [| done].
  destruct (for_enumerate _ _ _ _) as [r2 |] eqn:Hloop in Hwalk; [| done].
  eapply for_enumerate_mono in Hloop as ->; [done |].
  intros i x s r' Hx. apply IH; [lia | done].
Qed.

End ReverseWalk.

(** ** The reverse run: one walk per source node *)

Section ReverseRun.

Context (py_str : pyval → string) (llm : nat → string → result string).
Context (g : nx.DiGraph) (max_depth : option Z) (to_generate_code : bool).

(** The walk started at a source: the active path is a fresh empty set. *)
Definition source_walk (s : string) (st : rstate) (out : outcome) (st' : rstate) : Prop :=
  walks py_str llm g max_depth to_generate_code s (set_visited ∅ st) out st'.

(** The run is the loop over the sources followed, if it returns and code was
    asked for, by the writing of the artifact. *)
Lemma run_structure (fuel : nat) (out : outcome) (st : rstate) :
  print_dag_in_reverse_with py_str llm fuel g max_depth to_generate_code = Some (out, st) →
  ∃ st0, chain source_walk (source_nodes g) initial_rstate out st0 ∧
         ((out = Returned ∧ to_generate_code = true ∧ st = save_generated_code st0)
          ∨ (out = Returned ∧ to_generate_code = false ∧ st = st0)
          ∨ ((∃ e, out = Raised e) ∧ st = st0)).
Proof.
  unfold print_dag_in_reverse_with. intros Hrun.
  destruct (for_enumerate _ _ _ _) as [[[| e] st0] |] eqn:Hloop; [| | done].
  - apply for_enumerate_chain with (P := source_walk) in Hloop.
    2: { intros i x s o s' _ Hx. by eexists _, _, _, _. }
    exists st0. destruct to_generate_code; injection Hrun as <- <-; auto 6.
  - apply for_enumerate_chain with (P := source_walk) in Hloop.
    2: { intros i x s o s' _ Hx. by eexists _, _, _, _. }
    injection Hrun as <- <-. exists st0. split; [done |]. right. right. by eauto.
Qed.

Lemma off_path_start (st : rstate) :
  nx.wf g → size (off_path g (set_visited ∅ st)) < S (length (nx.nodes g)).
Proof.
  intros (Hnd & _). unfold off_path. simpl.
  rewrite difference_empty_L, size_list_to_set by done. lia.
Qed.

(** On a well-formed graph the run ends, and a larger budget changes nothing. *)
Lemma run_returns :
  nx.wf g → ∃ out st, print_dag_in_reverse py_str llm g max_depth to_generate_code = Some (out, st).
Proof.
  intros Hwf. unfold print_dag_in_reverse, print_dag_in_reverse_with.
  destruct (for_enumerate_returns
              (λ idx source_node st,
                 _print_dag_recursive py_str llm (S (length (nx.nodes g))) g max_depth
                   to_generate_code source_node ""
                   (idx =? Z.of_nat (length (source_nodes g)) - 1)%Z 0%Z (set_visited ∅ st))
              (λ _, True) (source_nodes g)) with (i := 0%Z) (st := initial_rstate)
    as (out & st & Hloop); [| done |].
  - intros i x s _ _.
    destruct (walk_returns py_str llm g max_depth to_generate_code
                (S (length (nx.nodes g))) x ""
                (i =? Z.of_nat (length (source_nodes g)) - 1)%Z 0%Z (set_visited ∅ s))
      as (out & s' & Hcall); [done | by apply off_path_start |].
    by eexists _, _.
  - rewrite Hloop. destruct out; [| by eexists _, _].
    destruct to_generate_code; by eexists _, _.
Qed.

Lemma run_fuel_mono (fuel : nat) (r : outcome * rstate) :
  (S (length (nx.nodes g)) ≤ fuel)%nat →
  print_dag_in_reverse py_str llm g max_depth to_generate_code = Some r →
  print_dag_in_reverse_with py_str llm fuel g max_depth to_generate_code = Some r.
Proof.
  unfold print_dag_in_reverse, print_dag_in_reverse_with. intros Hle Hrun.
  destruct (for_enumerate _ _ _ _) as [r0 |] eqn:Hloop in Hrun; [| done].
  eapply for_enumerate_mono in Hloop as ->; [done |].
  intros i x s r' Hx. by eapply walk_fuel_mono.
Qed.

(** *** Invariants of the loop over the sources *)

Lemma sweep_emits_fresh (items : list string) (st : rstate) (out : outcome)
    (st' : rstate) :
  chain source_walk items st out st' → consistent st →
  NoDup (emitted (trace st')) ∧
  (∀ x, x ∈ emitted (trace st') →
        x ∈ emitted (trace st) ∨ ∃ s, s ∈ items ∧ reaches g s x) ∧
  (out = Returned → consistent st' ∧ fully_processed st ⊆ fully_processed st').
Proof.
  intros Hchain.
  induction Hchain as [st | s rest st e st' Hs | s rest st st1 out st' Hs Hrest IH];
    intros Hcons.
  - split_and!; [apply Hcons | by left | done].
  - apply walks_emits_fresh in Hs.
    destruct (emits_fresh_consistent _ _ _ _ Hs Hcons) as [Hnd _].
    split_and!; [done | | done].
    destruct Hs as (t & Ht & _ & Hnew & _). intros x.
    rewrite Ht, emitted_app, elem_of_app. simpl. intros [? | Hx]; [by left |].
    right. exists s. split; [apply list_elem_of_here | by apply Hnew].
  - apply walks_emits_fresh in Hs.
    destruct (emits_fresh_consistent _ _ _ _ Hs Hcons) as [_ Hcons1].
    specialize (Hcons1 eq_refl). destruct (IH Hcons1) as (Hnd & Hfrom & Hret).
    destruct Hs as (t & Ht & _ & Hnew & Hsub & _).
    split_and!; [done | |].
    + intros x Hx. destruct (Hfrom x Hx) as [Hx1 | (s' & Hs' & Hreach)].
      * rewrite Ht, emitted_app, elem_of_app in Hx1. simpl in Hx1.
        destruct Hx1 as [? | Hx1]; [by left |].
        right. exists s. split; [apply list_elem_of_here | by apply Hnew].
      * right. exists s'. split; [by apply list_elem_of_further | done].
    + intros Hout. destruct (Hret Hout) as [? Hsub']. split; [done |].
      simpl in Hsub. set_solver.
Qed.

(** Without a depth limit: once the loop returns, the processed set contains
    the sources and is closed under successors. *)
Lemma sweep_completes (items : list string) (st : rstate) (out : outcome)
    (st' : rstate) :
  max_depth = None →
  chain source_walk items st out st' → out = Returned →
  (∀ u v, u ∈ fully_processed st → nx.edge g u v → v ∈ fully_processed st) →
  (∀ s, s ∈ items → s ∈ fully_processed st') ∧
  (∀ u v, u ∈ fully_processed st' → nx.edge g u v → v ∈ fully_processed st').
Proof.
  intros Hmd Hchain.
  induction Hchain as [st | | s rest st st1 out st' Hs Hrest IH]; [| done |].
  - intros _ Hcl. split; [| done]. intros s Hs. by apply not_elem_of_nil in Hs.
  - intros -> Hcl.
    pose proof (walks_restores_visited _ _ _ _ _ _ _ _ Hs) as Hv.
    destruct Hs as (fuel & prefix & is_last & depth & Hwalk).
    destruct (walk_completes _ _ _ _ _ _ _ _ _ _ _ _ _ Hmd Hwalk eq_refl) as [Hin Hcl1].
    simpl in Hin, Hv.
    destruct IH as [Hall Hcl']; [done | |].
    { intros u v Hu Huv. destruct Hcl1 with u v as [? | Hvis]; [| done | done | done |].
      - intros u' v' Hu' Huv'. left. by eapply Hcl.
      - rewrite Hv in Hvis. set_solver. }
    split; [| done].
    intros x [-> | Hx]%elem_of_cons; [| by apply Hall].
    destruct Hin as [Hin | Hin]; [| set_solver].
    assert (Hmono : fully_processed st1 ⊆ fully_processed st').
    { clear -Hrest. remember Returned as o eqn:Ho.
      induction Hrest as [| | ? ? ? ? ? ? Hw ? IH]; [done | done |].
      apply walks_processed_mono in Hw. specialize (IH Ho). set_solver. }
    by apply Hmono.
Qed.

(** Without a depth limit on an acyclic graph: successors are emitted first. *)
Lemma sweep_post_order (items : list string) (st : rstate) (out : outcome)
    (st' : rstate) :
  max_depth = None → acyclic g →
  chain source_walk items st out st' → out = Returned →
  consistent st → successors_first g (emitted (trace st)) →
  successors_first g (emitted (trace st')).
Proof.
  intros Hmd Hacyclic Hchain.
  induction Hchain as [st | | s rest st st1 out st' Hs Hrest IH]; [done | done |].
  intros -> Hcons Hord.
  pose proof (walks_emits_fresh _ _ _ _ _ _ _ _ _ Hs) as Hfresh.
  destruct (emits_fresh_consistent _ _ _ _ Hfresh Hcons) as [_ Hcons1].
  destruct Hs as (fuel & prefix & is_last & depth & Hwalk).
  apply IH; [done | by apply Hcons1 |].
  eapply (walk_post_order _ _ _ _ _ _ _ _ _ _ _ _ _ Hmd Hacyclic Hwalk); try done.
Qed.

Lemma sweep_code_follows (items : list string) (st : rstate) (out : outcome)
    (st' : rstate) :
  chain source_walk items st out st' → code_follows to_generate_code st out st'.
Proof.
  intros Hchain.
  induction Hchain as [st | s rest st e st' Hs | s rest st st1 out st' Hs Hrest IH].
  - apply (code_follows_nothing _ _ _ _ []); try done. by rewrite app_nil_r.
  - destruct Hs as (fuel & prefix & is_last & depth & Hwalk).
    by apply walk_code_follows in Hwalk.
  - destruct Hs as (fuel & prefix & is_last & depth & Hwalk).
    apply walk_code_follows in Hwalk. by eapply code_follows_trans.
Qed.

Lemma initial_consistent : consistent initial_rstate.
Proof.
  split; [apply NoDup_nil_2 |]. intros x. simpl.
  by rewrite elem_of_empty, elem_of_nil.
Qed.

End ReverseRun.

(** ** The forward walk: structure of a call *)

Section ForwardWalk.

Context (py_str : pyval → string) (g : nx.DiGraph) (max_depth : option Z).

Local Abbreviation fwd fuel := (print_dag py_str fuel g).

(** The state once the current node is printed and marked visited. *)
Definition labelled (n line : string) (st : pstate) : pstate :=
  p_add n (p_log (ELabel n line) st).

Lemma print_dag_unfold (fuel : nat) (n prefix : string) (is_last : bool) (depth : Z)
    (st : pstate) :
  fwd (S fuel) n prefix is_last depth max_depth st =
    match print_dag_label py_str g n (prefix +:+ indent is_last) with
    | Raise e => Some (Raised e, st)
    | Ok node_label =>
        let st1 := labelled n (prefix +:+ connector is_last +:+ node_label) st in
        if depth_limit_reached max_depth depth then Some (Returned, st1)
        else
          match nx.successors g n with
          | Raise e => Some (Raised e, st1)
          | Ok children =>
              for_enumerate
                (fun i child_id st =>
                   if decide (child_id ∈ p_visited st)
                   then Some (Returned,
                              p_log (ERevisit child_id
                                       (already_visited_line (prefix +:+ indent is_last)
                                          (i =? Z.of_nat (length children) - 1)%Z child_id)) st)
                   else fwd fuel child_id (prefix +:+ indent is_last)
                          (i =? Z.of_nat (length children) - 1)%Z (depth + 1)%Z max_depth st)
                0%Z children st1
          end
    end.
Proof. reflexivity. Qed.

(** One turn of the loop over the children: an already visited child gets
    its line and nothing else happens; any other child is walked. *)
Definition child_step (Q : string → pstate → outcome → pstate → Prop)
    (x : string) (st : pstate) (out : outcome) (st' : pstate) : Prop :=
  (x ∈ p_visited st ∧ out = Returned ∧
   ∃ new_prefix is_last_child,
     st' = p_log (ERevisit x (already_visited_line new_prefix is_last_child x)) st)
  ∨ ((x ∉ p_visited st) ∧ Q x st out st').

Section ForwardInduction.

Variable P : string → pstate → outcome → pstate → Prop.

Hypothesis P_label_raised : ∀ n st new_prefix e,
  print_dag_label py_str g n new_prefix = Raise e → P n st (Raised e) st.

Hypothesis P_depth : ∀ n st line,
  max_depth ≠ None → P n st Returned (labelled n line st).

Hypothesis P_successors : ∀ n st line e,
  nx.successors g n = Raise e → P n st (Raised e) (labelled n line st).

Hypothesis P_children : ∀ n st line children out st',
  nx.successors g n = Ok children →
  chain (child_step P) children (labelled n line st) out st' →
  P n st out st'.

Lemma print_dag_ind (fuel : nat) (n prefix : string) (is_last : bool) (depth : Z)
    (st : pstate) (out : outcome) (st' : pstate) :
  fwd fuel n prefix is_last depth max_depth st = Some (out, st') → P n st out st'.
Proof.
  revert n prefix is_last depth st out st'.
  induction fuel as [| fuel IH]; intros n prefix is_last depth st out st' Hrun; [done |].
  rewrite print_dag_unfold in Hrun.
  destruct (print_dag_label py_str g n _) as [label | e] eqn:Hlabel;
    [| injection Hrun as <- <-; by eapply P_label_raised].
  simpl in Hrun.
  destruct (depth_limit_reached max_depth depth) eqn:Hdepth.
  { injection Hrun as <- <-. apply P_depth. by destruct max_depth. }
  destruct (nx.successors g n) as [children | e] eqn:Hsucc;
    [| injection Hrun as <- <-; by apply P_successors].
  eapply P_children; [done |].
  eapply for_enumerate_chain; [| exact Hrun].
  intros i x s o s' _ Hx. simpl in Hx. unfold child_step.
  case_decide as Hvis.
  - injection Hx as <- <-. left. split_and!; [done | done |]. by eexists _, _.
  - right. split; [done |]. by eapply IH.
Qed.

End ForwardInduction.

(** *** Each node is labelled at most once *)

(** Scanning the events with the set of nodes labelled so far: every
    (Already visited) line names a node of that set and has the fixed text. *)
Fixpoint revisits_known (seen : gset string) (t : list event) : Prop :=
  match t with
  | [] => True
  | ELabel n _ :: rest => revisits_known ({[n]} ∪ seen) rest
  | ERevisit c text :: rest =>
      c ∈ seen ∧
      (∃ new_prefix is_last_child, text = already_visited_line new_prefix is_last_child c) ∧
      revisits_known seen rest
  | _ :: rest => revisits_known seen rest
  end.

Lemma revisits_known_app (seen : gset string) (t1 t2 : list event) :
  revisits_known seen (t1 ++ t2) ↔
  revisits_known seen t1 ∧ revisits_known (list_to_set (emitted t1) ∪ seen) t2.
Proof.
  revert seen. induction t1 as [| e t1 IH]; intros seen.
  - simpl. rewrite union_empty_l_L. tauto.
  - destruct e as [n line | c text | | | |]; simpl; rewrite ?IH;
      try tauto.
    replace (list_to_set (emitted t1) ∪ ({[n]} ∪ seen))
      with (({[n]} ∪ list_to_set (emitted t1)) ∪ seen : gset string) by set_solver.
    tauto.
Qed.

Lemma revisits_known_at (seen : gset string) (t1 t2 : list event) (c text : string) :
  revisits_known seen (t1 ++ ERevisit c text :: t2) →
  (c ∈ seen ∨ c ∈ emitted t1) ∧
  ∃ new_prefix is_last_child, text = already_visited_line new_prefix is_last_child c.
Proof.
  rewrite revisits_known_app. simpl. intros (_ & Hc & Htext & _).
  split; [| done]. apply elem_of_union in Hc as [Hc | Hc]; [right | by left].
  by apply elem_of_list_to_set in Hc.
Qed.

(** The events [t] of a call label pairwise distinct nodes, none of them
    visited before; the visited set grows by exactly these nodes. *)
Definition labels_fresh (st : pstate) (st' : pstate) : Prop :=
  ∃ t, p_trace st' = p_trace st ++ t ∧
       NoDup (emitted t) ∧
       (∀ x, x ∈ emitted t → x ∉ p_visited st) ∧
       p_visited st' = list_to_set (emitted t) ∪ p_visited st ∧
       revisits_known (p_visited st) t.

Lemma labels_fresh_refl (st : pstate) : labels_fresh st st.
Proof.
  exists []. simpl. rewrite app_nil_r, union_empty_l_L.
  split_and!; [done | apply NoDup_nil_2 | | done | done].
  intros x Hx. by apply not_elem_of_nil in Hx.
Qed.

Lemma labels_fresh_trans (st st1 st2 : pstate) :
  labels_fresh st st1 → labels_fresh st1 st2 → labels_fresh st st2.
Proof.
  intros (t1 & Ht1 & Hnd1 & Hnew1 & Hv1 & Hr1) (t2 & Ht2 & Hnd2 & Hnew2 & Hv2 & Hr2).
  exists (t1 ++ t2). rewrite emitted_app.
  split_and!.
  - by rewrite Ht2, Ht1, app_assoc.
  - apply NoDup_app. split_and!; [done | | done].
    intros x Hx1 Hx2. apply Hnew2 in Hx2. rewrite Hv1 in Hx2.
    apply Hx2, elem_of_union. left. by apply elem_of_list_to_set.
  - intros x [Hx | Hx]%elem_of_app; [by apply Hnew1 |].
    apply Hnew2 in Hx. rewrite Hv1 in Hx. set_solver.
  - rewrite Hv2, Hv1, list_to_set_app_L. set_solver.
  - apply revisits_known_app. split; [done |]. by rewrite <- Hv1.
Qed.

Lemma labels_fresh_label (n line : string) (st : pstate) :
  n ∉ p_visited st → labels_fresh st (labelled n line st).
Proof.
  intros Hn. exists [ELabel n line]. simpl.
  split_and!; [done | apply NoDup_singleton | | set_solver | done].
  intros x ->%list_elem_of_singleton. done.
Qed.

Lemma labels_fresh_revisit (c new_prefix : string) (is_last_child : bool) (st : pstate) :
  c ∈ p_visited st →
  labels_fresh st (p_log (ERevisit c (already_visited_line new_prefix is_last_child c)) st).
Proof.
  intros Hc. eexists [ERevisit c _]. simpl. rewrite union_empty_l_L.
  split_and!; try done.
  - apply NoDup_nil_2.
  - intros x Hx. by apply not_elem_of_nil in Hx.
  - by eexists _, _.
Qed.

Lemma labels_fresh_chain (items : list string) (st : pstate) (out : outcome)
    (st' : pstate) :
  chain (child_step (λ x st _ st', x ∉ p_visited st → labels_fresh st st'))
    items st out st' →
  labels_fresh st st'.
Proof.
  intros Hchain.
  induction Hchain as [st | c rest st e st' Hc | c rest st st1 out st' Hc Hrest IH].
  - apply labels_fresh_refl.
  - destruct Hc as [(_ & ? & _) | [Hvis Hc]]; [done | by apply Hc].
  - eapply labels_fresh_trans; [| exact IH].
    destruct Hc as [(Hvis & _ & pre & last & ->) | [Hvis Hc]];
      [by apply labels_fresh_revisit | by apply Hc].
Qed.

Lemma print_dag_labels_fresh (fuel : nat) (n prefix : string) (is_last : bool)
    (depth : Z) (st : pstate) (out : outcome) (st' : pstate) :
  fwd fuel n prefix is_last depth max_depth st = Some (out, st') →
  n ∉ p_visited st → labels_fresh st st'.
Proof.
  apply (print_dag_ind (λ x st _ st', x ∉ p_visited st → labels_fresh st st')); clear.
  - intros n st _ e _ _. apply labels_fresh_refl.
  - intros n st line _ Hn. by apply labels_fresh_label.
  - intros n st line e _ Hn. by apply labels_fresh_label.
  - intros n st line children out st' _ Hchain Hn.
    eapply labels_fresh_trans; [by apply (labels_fresh_label n line) |].
    by apply labels_fresh_chain in Hchain.
Qed.

Lemma print_dag_visited_mono (fuel : nat) (n prefix : string) (is_last : bool)
    (depth : Z) (st : pstate) (out : outcome) (st' : pstate) :
  fwd fuel n prefix is_last depth max_depth st = Some (out, st') →
  n ∉ p_visited st → p_visited st ⊆ p_visited st'.
Proof.
  intros Hrun Hn.
  destruct (print_dag_labels_fresh _ _ _ _ _ _ _ _ Hrun Hn) as (t & _ & _ & _ & -> & _).
  set_solver.
Qed.

(** *** A node at the depth limit is labelled and not expanded *)


(** *** Every edge out of an expanded node is rendered once *)

Definition out_degree (n : string) : nat := length (nx.out_edges g n).

(** Without a depth limit, a call that returns has appended one line per
    labelled node and one (Already visited) line per remaining edge. *)
Definition edges_rendered (st : pstate) (out : outcome) (st' : pstate) : Prop :=
  out = Returned →
  ∃ t, p_trace st' = p_trace st ++ t ∧
       revisit_count t + length (emitted t) = 1 + sum_list_with out_degree (emitted t).

Lemma revisit_count_app (t1 t2 : list event) :
  revisit_count (t1 ++ t2) = revisit_count t1 + revisit_count t2.
Proof. unfold revisit_count. by rewrite omap_app, length_app. Qed.

Lemma edges_rendered_chain (items : list string) (st : pstate) (out : outcome)
    (st' : pstate) :
  chain (child_step (λ _, edges_rendered)) items st out st' → out = Returned →
  ∃ t, p_trace st' = p_trace st ++ t ∧
       revisit_count t + length (emitted t) =
         length items + sum_list_with out_degree (emitted t).
Proof.
  intros Hchain.
  induction Hchain as [st | | c rest st st1 out st' Hc Hrest IH]; [| done |].
  - intros _. exists []. by rewrite app_nil_r.
  - intros ->. destruct (IH eq_refl) as (t2 & Ht2 & Hcount2).
    assert (∃ t1, p_trace st1 = p_trace st ++ t1 ∧
                  revisit_count t1 + length (emitted t1) =
                    1 + sum_list_with out_degree (emitted t1)) as (t1 & Ht1 & Hcount1).
    { destruct Hc as [(_ & _ & pre & last & ->) | [_ Hc]]; [| by apply Hc].
      by eexists [ERevisit c _]. }
    exists (t1 ++ t2).
    rewrite revisit_count_app, emitted_app, sum_list_with_app, length_app.
    split; [by rewrite Ht2, Ht1, app_assoc |]. simpl. lia.
Qed.

Lemma print_dag_edges_rendered (fuel : nat) (n prefix : string) (is_last : bool)
    (depth : Z) (st : pstate) (out : outcome) (st' : pstate) :
  max_depth = None →
  fwd fuel n prefix is_last depth max_depth st = Some (out, st') →
  edges_rendered st out st'.
Proof.
  intros Hmd. apply (print_dag_ind (λ _, edges_rendered)); clear -Hmd.
  - done.
  - done.
  - done.
  - intros n st line children out st' Hsucc Hchain Hout.
    apply successors_inv in Hsucc as ->.
    apply edges_rendered_chain in Hchain as (t & Ht & Hcount); [| done].
    exists (ELabel n line :: t). split.
    + rewrite Ht. simpl. by rewrite <- app_assoc.
    + change (revisit_count (ELabel n line :: t)) with (revisit_count t).
      change (emitted (ELabel n line :: t)) with (n :: emitted t).
      simpl. unfold out_degree at 1. lia.
Qed.

(** *** Termination of the forward walk *)

Definition unvisited (st : pstate) : gset string :=
  list_to_set (nx.nodes g) ∖ p_visited st.

(** A budget of the number of unvisited nodes (and at least 1) is enough. *)
Lemma print_dag_returns (fuel : nat) (n prefix : string) (is_last : bool) (depth : Z)
    (st : pstate) :
  nx.wf g → n ∉ p_visited st → (size (unvisited st) ≤ fuel)%nat → (1 ≤ fuel)%nat →
  ∃ out st', fwd fuel n prefix is_last depth max_depth st = Some (out, st').
Proof.
  intros Hwf. revert n prefix is_last depth st.
  induction fuel as [| fuel IH]; intros n prefix is_last depth st Hn Hsize Hpos; [lia |].
  rewrite print_dag_unfold.
  destruct (print_dag_label py_str g n _) as [label | e]; [| by eexists _, _].
  simpl. destruct (depth_limit_reached max_depth depth); [by eexists _, _ |].
  unfold nx.successors. case_decide as Hnode; [| by eexists _, _].
  eapply (for_enumerate_returns _ (λ s, (size (unvisited s) ≤ fuel)%nat)).
  - intros i x s Hx Hs. simpl. case_decide as Hvis.
    + eexists _, _. split; [done |]. done.
    + assert (Hxn : x ∈ nx.nodes g).
      { apply elem_of_out_edges in Hx. by apply (edge_nodes g n x Hwf). }
      assert (Hpos' : (1 ≤ size (unvisited s))%nat).
      { assert (Hin : x ∈ unvisited s).
        { apply elem_of_difference. split; [by apply elem_of_list_to_set | done]. }
        destruct (decide (size (unvisited s) = 0)) as [Hzero | ?]; [| lia].
        apply size_empty_iff in Hzero. set_solver. }
      destruct (IH x (prefix +:+ indent is_last)
                  (i =? Z.of_nat (length (nx.out_edges g n)) - 1)%Z (depth + 1)%Z s)
        as (out & s' & Hcall); [done | done | lia |].
      exists out, s'. split; [done |]. intros _.
      apply print_dag_visited_mono in Hcall; [| done].
      etrans; [| exact Hs]. apply subseteq_size. unfold unvisited. set_solver.
  - assert (Hlt : (size (unvisited (labelled n (prefix +:+ connector is_last +:+ label) st))
                   < size (unvisited st))%nat).
    { apply subset_size. unfold unvisited. simpl.
      apply strict_spec_alt. split; [set_solver |].
      intros Heq.
      assert (Hin : n ∈ (list_to_set (nx.nodes g) ∖ p_visited st : gset string)).
      { apply elem_of_difference. split; [by apply elem_of_list_to_set | done]. }
      rewrite <- Heq in Hin. set_solver. }
    lia.
Qed.

Lemma print_dag_fuel_mono (fuel fuel' : nat) (n prefix : string) (is_last : bool)
    (depth : Z) (st : pstate) (r : outcome * pstate) :
  (fuel ≤ fuel')%nat →
  fwd fuel n prefix is_last depth max_depth st = Some r →
  fwd fuel' n prefix is_last depth max_depth st = Some r.
Proof.
  revert fuel' n prefix is_last depth st r.
  induction fuel as [| fuel IH]; intros fuel' n prefix is_last depth st r Hle Hrun;
    [done |].
  destruct fuel' as [| fuel']; [lia |].
  rewrite print_dag_unfold in *.
  destruct (print_dag_label py_str g n _) as [label | e]; [| done].
  simpl in *. destruct (depth_limit_reached max_depth depth); [done |].
  destruct (nx.successors g n) as [children | e]; [| done].
  eapply for_enumerate_mono; [| exact Hrun].
  intros i x s r' Hx. simpl in *. case_decide; [done |]. apply IH; [lia | done].
Qed.

End ForwardWalk.

(** ** When the reverse run cannot raise *)

Section ReverseNoRaise.

Context (py_str : pyval → string) (llm : nat → string → result string).
Context (g : nx.DiGraph) (max_depth : option Z) (to_generate_code : bool).

(** Every node can be labelled and, when code is asked for, synthesised. *)
Definition labels_ok : Prop :=
  ∀ n, n ∈ nx.nodes g → ∃ label, get_node_label py_str g n = Ok label.

Definition synthesis_ok : Prop :=
  to_generate_code = true →
  ∀ k n, n ∈ nx.nodes g → ∃ text, generate_code py_str llm k n g = Ok text.

Lemma has_content_labels_ok : (∀ n, n ∈ nx.nodes g → has_content g n) → labels_ok.
Proof.
  intros Hcontent n Hn. destruct (Hcontent n Hn) as (attrs & d & Hattrs & Hc).
  assert (Hd : dict_get attrs "content" (PStr "") = PDict d)
    by (unfold dict_get; by rewrite Hc).
  unfold get_node_label. rewrite Hattrs. simpl. rewrite Hd. simpl. by eexists.
Qed.

Lemma has_response_content (n : string) : has_response g n → has_content g n.
Proof. intros (attrs & d & ? & ? & _). by exists attrs, d. Qed.

Lemma has_response_synthesis_ok :
  (∀ n, n ∈ nx.nodes g → has_response g n) → answers llm → synthesis_ok.
Proof.
  intros Hresponse Hanswers _ k n Hn.
  destruct (Hresponse n Hn) as (attrs & d & Hattrs & Hc & Hv).
  assert (Hd : dict_get attrs "content" (PStr "") = PDict d)
    by (unfold dict_get; by rewrite Hc).
  unfold generate_code. rewrite Hattrs. simpl. rewrite Hd. simpl.
  destruct (dict_get d "value" (PStr "")) as [| s | l | c] eqn:Hvalue; simpl;
    [| apply Hanswers ..].
  unfold dict_get in Hvalue. destruct (Py.lookup "value" d); [by subst | done].
Qed.

Lemma chain_raised {S : Type} (P : string → S → outcome → S → Prop)
    (items : list string) (st : S) (e : exn) (st' : S) :
  chain P items st (Raised e) st' → ∃ x s, x ∈ items ∧ P x s (Raised e) st'.
Proof.
  remember (Raised e) as out eqn:Hout. intros Hchain.
  induction Hchain as [| x rest st e' st' Hx | x rest st st1 out st' Hx Hrest IH];
    [done | |].
  - exists x, st. split; [apply list_elem_of_here | done].
  - destruct (IH Hout) as (y & s & Hy & HP).
    exists y, s. split; [by apply list_elem_of_further | done].
Qed.

Lemma walk_no_raise (fuel : nat) (n prefix : string) (is_last : bool) (depth : Z)
    (st : rstate) (out : outcome) (st' : rstate) :
  nx.wf g → labels_ok → synthesis_ok →
  _print_dag_recursive py_str llm fuel g max_depth to_generate_code
    n prefix is_last depth st = Some (out, st') →
  n ∈ nx.nodes g → out = Returned.
Proof.
  intros Hwf Hlabels Hsynth.
  apply (walk_ind py_str llm g max_depth to_generate_code
           (λ n _ out _, n ∈ nx.nodes g → out = Returned));
    clear -Hwf Hlabels Hsynth; try done.
  - intros n st e _ _ Hsucc Hn. by rewrite successors_of_node in Hsucc.
  - intros n st children e st' _ _ Hsucc Hchain Hn.
    apply successors_inv in Hsucc as ->.
    apply chain_raised in Hchain as (x & s & Hx & [Hraised _]).
    apply elem_of_out_edges in Hx. apply Hraised. by apply (edge_nodes g n x Hwf).
  - intros n st children st2 prefix is_last out st' _ _ _ _ Hv2 Hemit Hn.
    unfold emit_node in Hemit. destruct (Hlabels n Hn) as [label Hlabel].
    rewrite Hlabel in Hemit. unfold visited_remove in Hemit.
    destruct to_generate_code eqn:Hgen.
    + destruct (Hsynth Hgen (llm_calls st2) n Hn) as [text Htext].
      simpl in Hemit. rewrite Htext in Hemit. simpl in Hemit.
      rewrite decide_True in Hemit by (rewrite Hv2; set_solver). by injection Hemit.
    + simpl in Hemit.
      rewrite decide_True in Hemit by (rewrite Hv2; set_solver). by injection Hemit.
Qed.

Lemma run_no_raise (out : outcome) (st : rstate) :
  nx.wf g → labels_ok → synthesis_ok →
  print_dag_in_reverse py_str llm g max_depth to_generate_code = Some (out, st) →
  out = Returned.
Proof.
  intros Hwf Hlabels Hsynth Hrun. unfold print_dag_in_reverse in Hrun.
  destruct (run_structure _ _ _ _ _ _ _ _ Hrun)
    as (st0 & Hchain & [(? & _) | [(? & _) | ([e ->] & _)]]); [done | done |].
  apply chain_raised in Hchain as (s & st1 & Hs & (fuel & prefix & is_last & depth & Hwalk)).
  apply walk_no_raise in Hwalk; [done | done | done | done |].
  by apply elem_of_source_nodes in Hs as [? _].
Qed.

End ReverseNoRaise.

(** ** Order in a sequence without repetition *)

Lemma NoDup_split_unique (l1 l1' l2 l2' : list string) (x : string) :
  NoDup (l1 ++ x :: l2) → l1 ++ x :: l2 = l1' ++ x :: l2' → l1 = l1'.
Proof.
  revert l1'. induction l1 as [| a l1 IH]; intros l1' Hnd Heq.
  - destruct l1' as [| b l1']; [done |]. simpl in *. injection Heq as <- ->.
    apply NoDup_cons in Hnd as [Hx _]. destruct Hx. set_solver.
  - destruct l1' as [| b l1']; simpl in *.
    + injection Heq as -> <-. apply NoDup_cons in Hnd as [Hx _]. destruct Hx. set_solver.
    + injection Heq as <- Heq. f_equal. apply NoDup_cons in Hnd as [_ Hnd]. by apply IH.
Qed.

Lemma occurs_before_trans (l : list string) (a b c : string) :
  NoDup l → occurs_before l a b → occurs_before l b c → occurs_before l a c.
Proof.
  intros Hnd (p & q & Hl & Ha) (l1 & l2 & Hl' & Hb).
  apply list_elem_of_split in Hb as (p' & q' & ->).
  exists (p' ++ b :: q'), l2. split; [done |].
  rewrite <- app_assoc in Hl'. simpl in Hl'.
  assert (p = p') as <-.
  { eapply NoDup_split_unique; [by rewrite <- Hl | by rewrite <- Hl, <- Hl']. }
  set_solver.
Qed.

Lemma occurs_before_irrefl (l : list string) (a : string) :
  NoDup l → ¬ occurs_before l a a.
Proof.
  intros Hnd (l1 & l2 & -> & Ha). apply NoDup_app in Hnd as (_ & Hdisj & _).
  apply (Hdisj a Ha). apply list_elem_of_here.
Qed.

Lemma successors_first_closure (g : nx.DiGraph) (l : list string) (n m : string) :
  NoDup l → successors_first g l → n ∈ l → tc (nx.edge g) n m → occurs_before l m n.
Proof.
  intros Hnd Hord Hn Hpath. induction Hpath as [n m Hedge | n x m Hedge Hpath IH].
  - apply list_elem_of_split in Hn as (l1 & l2 & ->).
    exists l1, l2. split; [done |]. by eapply Hord.
  - assert (Hx : occurs_before l x n).
    { apply list_elem_of_split in Hn as (l1 & l2 & ->).
      exists l1, l2. split; [done |]. by eapply Hord. }
    eapply occurs_before_trans; [done | | exact Hx].
    apply IH. destruct Hx as (l1 & l2 & -> & Hx). set_solver.
Qed.

(** A graph whose edges all go down a rank has no cycle. *)
Lemma ranked_acyclic (g : nx.DiGraph) (rank : string → nat) :
  Forall (λ e, rank e.2 < rank e.1) (nx.edge_list g) → acyclic g.
Proof.
  intros Hrank n Hcycle.
  assert (Hlt : ∀ a b, tc (nx.edge g) a b → rank b < rank a).
  { intros a b Hab. induction Hab as [a b Hedge | a x b Hedge _ IH].
    - rewrite Forall_forall in Hrank. apply (Hrank (a, b) Hedge).
    - rewrite Forall_forall in Hrank. specialize (Hrank (a, x) Hedge). simpl in *. lia. }
  specialize (Hlt n n Hcycle). lia.
Qed.

(** ** What a finished reverse run has emitted *)

Section ReverseResults.

Context (py_str : pyval → string) (llm : nat → string → result string).
Context (g : nx.DiGraph) (max_depth : option Z) (to_generate_code : bool).
Context (out : outcome) (st : rstate).

Hypothesis Hrun :
  print_dag_in_reverse py_str llm g max_depth to_generate_code = Some (out, st).

Lemma emitted_save_generated_code (st0 : rstate) :
  emitted (trace (save_generated_code st0)) = emitted (trace st0).
Proof.
  unfold save_generated_code. simpl. rewrite !emitted_app. simpl. by rewrite !app_nil_r.
Qed.

(** The run ends in the state [st0] of the loop over the sources, up to the
    two events of the artifact. *)
Lemma run_sweep :
  ∃ st0, chain (source_walk py_str llm g max_depth to_generate_code)
           (source_nodes g) initial_rstate out st0 ∧
         emitted (trace st) = emitted (trace st0) ∧
         ((out = Returned ∧ to_generate_code = true ∧ st = save_generated_code st0)
          ∨ (out = Returned ∧ to_generate_code = false ∧ st = st0)
          ∨ ((∃ e, out = Raised e) ∧ st = st0)).
Proof.
  destruct (run_structure _ _ _ _ _ _ _ _ Hrun) as (st0 & Hchain & Hcases).
  exists st0. split_and!; [done | | done].
  destruct Hcases as [(_ & _ & ->) | [(_ & _ & ->) | (_ & ->)]];
    [apply emitted_save_generated_code | done | done].
Qed.

Lemma run_emitted_once : NoDup (emitted (trace st)).
Proof.
  destruct run_sweep as (st0 & Hchain & -> & _).
  by destruct (sweep_emits_fresh _ _ _ _ _ _ _ _ _ Hchain initial_consistent) as [? _].
Qed.

Lemma run_emitted_reachable (n : string) :
  n ∈ emitted (trace st) → reachable_from_source g n.
Proof.
  destruct run_sweep as (st0 & Hchain & -> & _). intros Hn.
  destruct (sweep_emits_fresh _ _ _ _ _ _ _ _ _ Hchain initial_consistent)
    as (_ & Hfrom & _).
  destruct (Hfrom n Hn) as [Hnil | (s & Hs & Hreach)];
    [by apply not_elem_of_nil in Hnil |].
  exists s. split; [by apply elem_of_source_nodes | done].
Qed.

Lemma run_emitted_complete (n : string) :
  max_depth = None → out = Returned →
  reachable_from_source g n → n ∈ emitted (trace st).
Proof.
  intros Hmd Hout (s & Hs & Hreach).
  destruct run_sweep as (st0 & Hchain & -> & _).
  destruct (sweep_emits_fresh _ _ _ _ _ _ _ _ _ Hchain initial_consistent)
    as (_ & _ & Hcons).
  destruct (Hcons Hout) as [[_ Hsame] _].
  destruct (sweep_completes _ _ _ _ _ _ _ _ _ Hmd Hchain Hout) as [Hsrc Hclosed].
  { intros u v Hu. by apply not_elem_of_empty in Hu. }
  apply Hsame. apply elem_of_source_nodes in Hs. apply Hsrc in Hs.
  clear -Hs Hreach Hclosed. induction Hreach as [| s x n Hedge _ IH]; [done |].
  apply IH. by eapply Hclosed.
Qed.

Lemma run_successors_first :
  max_depth = None → acyclic g → out = Returned →
  successors_first g (emitted (trace st)).
Proof.
  intros Hmd Hacyclic Hout.
  destruct run_sweep as (st0 & Hchain & -> & _).
  apply (sweep_post_order _ _ _ _ _ _ _ _ _ Hmd Hacyclic Hchain Hout initial_consistent).
  intros l1 u l2 v Heq. by destruct l1.
Qed.

End ReverseResults.

(** ** The artifact of a finished reverse run *)

Section ReverseArtifact.

Context (py_str : pyval → string) (llm : nat → string → result string).
Context (g : nx.DiGraph) (max_depth : option Z) (to_generate_code : bool).
Context (out : outcome) (st : rstate).

Hypothesis Hrun :
  print_dag_in_reverse py_str llm g max_depth to_generate_code = Some (out, st).

(** The events [t] of the loop over the sources, and what follows them. *)
Lemma run_code :
  ∃ t, writes t = [] ∧
       (synthesized t).*1 `prefix_of` emitted t ∧
       (to_generate_code = true → out = Returned → (synthesized t).*1 = emitted t) ∧
       (to_generate_code = false → synthesized t = []) ∧
       ((out = Returned ∧ to_generate_code = true ∧
         trace st = t ++ [EWrite "generated_code.txt" (code_blocks ((synthesized t).*2));
                          EPrint saved_notice])
        ∨ (out = Returned ∧ to_generate_code = false ∧ trace st = t)
        ∨ ((∃ e, out = Raised e) ∧ trace st = t)).
Proof.
  destruct (run_structure _ _ _ _ _ _ _ _ Hrun) as (st0 & Hchain & Hcases).
  apply sweep_code_follows in Hchain as (t & Ht & Hw & Hcode & Hpre & Heq & Hnone).
  simpl in Ht, Hcode. exists t. split_and!; try done.
  destruct Hcases as [(? & ? & ->) | [(? & ? & ->) | (? & ->)]].
  - left. split_and!; [done | done |]. unfold save_generated_code. simpl.
    by rewrite Ht, Hcode, <- app_assoc.
  - right. left. by rewrite Ht.
  - right. right. by rewrite Ht.
Qed.

End ReverseArtifact.

(** ** Runs that emit nothing *)

Section ReverseNothing.

Context (py_str : pyval → string) (llm : nat → string → result string).
Context (g : nx.DiGraph) (to_generate_code : bool).

Lemma set_visited_same (st : rstate) : visited st = ∅ → set_visited ∅ st = st.
Proof. destruct st. unfold set_visited. simpl. by intros ->. Qed.

(** At the depth limit a call started off the active path changes nothing. *)
Lemma walk_at_limit (fuel : nat) (max_depth : option Z) (n prefix : string)
    (is_last : bool) (depth : Z) (st : rstate) :
  depth_limit_reached max_depth depth = true → n ∉ visited st →
  _print_dag_recursive py_str llm (S fuel) g max_depth to_generate_code
    n prefix is_last depth st = Some (Returned, st).
Proof.
  intros Hlimit Hn. rewrite walk_unfold.
  case_decide; [done |]. rewrite decide_False by done.
  rewrite Hlimit. by rewrite enter_leave.
Qed.

Lemma for_enumerate_unchanged {S : Type} (body : Z → string → S → option (outcome * S))
    (items : list string) (st : S) :
  (∀ i x, body i x st = Some (Returned, st)) →
  ∀ i, for_enumerate body i items st = Some (Returned, st).
Proof.
  intros Hbody. induction items as [| x rest IH]; intros i; simpl; [done |].
  by rewrite Hbody.
Qed.

(** The result of a run whose loop over the sources changes nothing. *)
Definition nothing_emitted : rstate :=
  if to_generate_code then save_generated_code initial_rstate else initial_rstate.

Lemma run_at_limit (max_depth : option Z) :
  depth_limit_reached max_depth 0 = true →
  print_dag_in_reverse py_str llm g max_depth to_generate_code =
    Some (Returned, nothing_emitted).
Proof.
  intros Hlimit. unfold print_dag_in_reverse, print_dag_in_reverse_with.
  rewrite for_enumerate_unchanged.
  - unfold nothing_emitted. by destruct to_generate_code.
  - intros i x. rewrite set_visited_same by done.
    apply walk_at_limit; [done | set_solver].
Qed.

Lemma run_without_source (max_depth : option Z) :
  source_nodes g = [] →
  print_dag_in_reverse py_str llm g max_depth to_generate_code =
    Some (Returned, nothing_emitted).
Proof.
  intros Hnone. unfold print_dag_in_reverse, print_dag_in_reverse_with.
  rewrite Hnone. simpl. unfold nothing_emitted. by destruct to_generate_code.
Qed.

Lemma no_source_nodes :
  (∀ n, n ∈ nx.nodes g → ∃ u, nx.edge g u n) → source_nodes g = [].
Proof.
  intros Hin. apply elem_of_nil_inv. intros s [Hs Hdeg]%elem_of_source_nodes.
  destruct (Hin s Hs) as [u Hu]. by apply (proj1 (in_degree_zero g s) Hdeg u).
Qed.

End ReverseNothing.

(** ** Cycles: nothing of a cycle is emitted before the cycle guard returns *)

Section CycleGuard.

Context (py_str : pyval → string) (llm : nat → string → result string).
Context (g : nx.DiGraph) (to_generate_code : bool).

(** A set of nodes each of which has a successor within the set, as the
    nodes of a directed cycle have. *)
Variable C : string → Prop.
Context {C_dec : ∀ x, Decision (C x)}.
Hypothesis C_next : ∀ x, C x → ∃ y, C y ∧ nx.edge g x y.

(** The cycle guard has returned on a node of [C]. *)
Definition fired (t : list event) : Prop := ∃ y, C y ∧ ECycle y ∈ t.

(** Up to the first return of the cycle guard on a node of [C], no node of
    [C] is emitted. *)
Fixpoint guard_first (t : list event) : Prop :=
  match t with
  | [] => True
  | ECycle y :: rest => C y ∨ guard_first rest
  | ELabel x _ :: rest => ¬ C x ∧ guard_first rest
  | _ :: rest => guard_first rest
  end.

Definition untouched (st : rstate) : Prop := ∀ x, C x → x ∉ fully_processed st.

Lemma fired_app (t1 t2 : list event) : fired (t1 ++ t2) ↔ fired t1 ∨ fired t2.
Proof.
  unfold fired. split.
  - intros (y & Hy & [? | ?]%elem_of_app); [left | right]; by exists y.
  - intros [(y & Hy & ?) | (y & Hy & ?)]; exists y; rewrite elem_of_app; auto.
Qed.

Lemma fired_cons (e : event) (t : list event) :
  fired (e :: t) ↔ (∃ y, e = ECycle y ∧ C y) ∨ fired t.
Proof.
  unfold fired. split.
  - intros (y & Hy & [<- | ?]%elem_of_cons); [left | right]; by exists y.
  - intros [(y & -> & Hy) | (y & Hy & ?)]; exists y; split; try done;
      [apply list_elem_of_here | by apply list_elem_of_further].
Qed.

Lemma fired_nil : ¬ fired [].
Proof. intros (y & _ & Hy). by apply not_elem_of_nil in Hy. Qed.

Lemma guard_first_app (t1 t2 : list event) :
  guard_first (t1 ++ t2) ↔ guard_first t1 ∧ (fired t1 ∨ guard_first t2).
Proof.
  induction t1 as [| e t1 IH].
  - pose proof fired_nil. simpl. tauto.
  - rewrite fired_cons. destruct e; simpl; rewrite ?IH; naive_solver.
Qed.

Lemma guard_first_at (t1 t2 : list event) (x line : string) :
  guard_first (t1 ++ ELabel x line :: t2) → C x → fired t1.
Proof.
  rewrite guard_first_app. simpl. intros [_ [? | [Hx _]]] HC; [done | by destruct Hx].
Qed.

(** What a call does to the guard: its events [t] respect [guard_first] when
    no node of [C] was processed before, and a call on a node of the active
    path records the return of the guard. *)
Definition guards (n : string) (st : rstate) (out : outcome) (st' : rstate) : Prop :=
  ∃ t, trace st' = trace st ++ t ∧
       (untouched st → guard_first t ∧ (fired t ∨ untouched st')) ∧
       (n ∈ visited st → n ∉ fully_processed st → ECycle n ∈ t).

Lemma guard_nothing (st st' : rstate) :
  fully_processed st' = fully_processed st →
  untouched st → guard_first [] ∧ (fired [] ∨ untouched st').
Proof.
  intros Hfp Hst. split; [exact I |]. right. intros x Hx. rewrite Hfp. by apply Hst.
Qed.

Lemma chain_processed_mono (P : string → rstate → outcome → rstate → Prop)
    (items : list string) (st : rstate) (out : outcome) (st' : rstate) :
  chain (P_call py_str llm g None to_generate_code P) items st out st' →
  fully_processed st ⊆ fully_processed st'.
Proof.
  intros Hchain.
  induction Hchain as [| ? ? ? ? ? [_ Hw] | ? ? ? ? ? ? [_ Hw] ? IH]; [done | |].
  - by apply walks_processed_mono in Hw.
  - apply walks_processed_mono in Hw. set_solver.
Qed.

Lemma guards_chain (items : list string) (st : rstate) (out : outcome) (st' : rstate) :
  chain (P_call py_str llm g None to_generate_code guards) items st out st' →
  ∃ t, trace st' = trace st ++ t ∧
       (untouched st → guard_first t ∧ (fired t ∨ untouched st')) ∧
       (out = Returned → ∀ c, c ∈ items → c ∈ fully_processed st' ∨ ECycle c ∈ t).
Proof.
  intros Hchain.
  induction Hchain as [st | c rest st e st' [Hc _]
                       | c rest st st1 out st' [Hc Hw] Hrest IH].
  - exists []. rewrite app_nil_r. split_and!; [done | by apply guard_nothing |].
    intros _ c Hc. by apply not_elem_of_nil in Hc.
  - destruct Hc as (t & Ht & Hguard & _). exists t. by split_and!.
  - destruct Hc as (t1 & Ht1 & Hguard1 & Hcycle1).
    destruct IH as (t2 & Ht2 & Hguard2 & Hitems2).
    pose proof (chain_processed_mono _ _ _ _ _ Hrest) as Hmono.
    pose proof (walks_processed_mono _ _ _ _ _ _ _ _ _ Hw) as Hmono1.
    exists (t1 ++ t2). split_and!.
    + by rewrite Ht2, Ht1, app_assoc.
    + intros Hst. rewrite guard_first_app, fired_app.
      destruct (Hguard1 Hst) as [Hg1 [Hf1 | Hst1]]; [by auto |].
      destruct (Hguard2 Hst1) as [Hg2 [Hf2 | Hst']]; by auto.
    + intros Hout c' [-> | Hc']%elem_of_cons.
      * destruct Hw as (fuel & prefix & is_last & depth & Hwalk).
        destruct (walk_completes _ _ _ _ _ _ _ _ _ _ _ _ _ eq_refl Hwalk eq_refl)
          as [[Hin | Hvis] _]; [left; by apply Hmono |].
        destruct (decide (c ∈ fully_processed st)) as [Hfp | Hfp];
          [left; set_solver |].
        right. apply elem_of_app. left. by apply Hcycle1.
      * destruct (Hitems2 Hout c' Hc') as [? | ?]; [by left |].
        right. apply elem_of_app. by right.
Qed.

Lemma walk_guards (fuel : nat) (n prefix : string) (is_last : bool) (depth : Z)
    (st : rstate) (out : outcome) (st' : rstate) :
  _print_dag_recursive py_str llm fuel g None to_generate_code
    n prefix is_last depth st = Some (out, st') →
  guards n st out st'.
Proof.
  apply (walk_ind py_str llm g None to_generate_code guards); clear -C_next C_dec.
  - intros n st Hn. exists []. rewrite app_nil_r.
    split_and!; [done | by apply guard_nothing | done].
  - intros n st _ _. exists [ECycle n]. split_and!; [done | | ].
    + intros Hst. split; [by right | by right].
    + intros _ _. apply list_elem_of_here.
  - done.
  - intros n st e _ Hn _. exists []. simpl. rewrite app_nil_r.
    split_and!; [done | by apply guard_nothing | done].
  - intros n st children e st' _ Hn _ Hchain.
    apply guards_chain in Hchain as (t & Ht & Hguard & _).
    exists t. split_and!; [done | done | done].
  - intros n st children st2 prefix is_last out st' Hfp Hn Hsucc Hchain Hv2 Hemit.
    apply successors_inv in Hsucc as ->.
    apply guards_chain in Hchain as (t & Ht & Hguard & Hitems).
    simpl in Ht. specialize (Hitems eq_refl).
    assert (Hfired : untouched st → C n → fired t).
    { intros Hst Hcn. destruct (C_next n Hcn) as (y & Hy & Hedge).
      apply elem_of_out_edges in Hedge.
      destruct (Hguard Hst) as [_ [? | Hst2]]; [done |].
      destruct (Hitems y Hedge) as [Hin | Hin]; [by destruct (Hst2 y Hy) |].
      by exists y. }
    assert (Hin : n ∈ visited st2) by (rewrite Hv2; set_solver).
    destruct (emit_node_cases _ _ _ _ _ _ _ _ _ _ Hemit Hin)
      as [[-> (line & _ & Hfp' & Htrace)] | (e & -> & _ & Hfp' & _ & Htrace)].
    + assert (∃ t', trace st' = trace st2 ++ ELabel n line :: t' ∧ guard_first t')
        as (t' & Ht' & Hg').
      { destruct Htrace as [(_ & -> & _) | (_ & text & -> & _)]; by eexists. }
      exists (t ++ ELabel n line :: t'). split_and!; [| | done].
      * by rewrite Ht', Ht, app_assoc.
      * intros Hst. destruct (Hguard Hst) as [Hg Hor].
        rewrite guard_first_app, fired_app. simpl.
        destruct (decide (C n)) as [Hcn | Hcn].
        -- pose proof (Hfired Hst Hcn). split; [by auto |]. by left; left.
        -- split; [by auto |].
           destruct Hor as [? | Hst2]; [by left; left |]. right.
           intros x Hx. rewrite Hfp'. specialize (Hst2 x Hx).
           assert (x ≠ n) by (by intros ->). set_solver.
    + assert (∃ t', trace st' = trace st2 ++ t' ∧ (t' = [] ∨ ∃ line, t' = [ELabel n line]))
        as (t' & Ht' & Hshape).
      { destruct Htrace as [-> | (line & ->)]; [exists [] | eexists]; split;
          [by rewrite app_nil_r | by left | done | right; by eexists]. }
      exists (t ++ t'). split_and!; [| | done].
      * by rewrite Ht', Ht, app_assoc.
      * intros Hst. destruct (Hguard Hst) as [Hg Hor].
        rewrite guard_first_app, fired_app.
        destruct Hshape as [-> | (line & ->)].
        -- split; [split; [done | by right] |].
           destruct Hor as [? | Hst2]; [by left; left |].
           right. intros x Hx. rewrite Hfp'. by apply Hst2.
        -- simpl. destruct (decide (C n)) as [Hcn | Hcn].
           ++ pose proof (Hfired Hst Hcn). split; [by auto |]. by left; left.
           ++ split; [split; [done | right; by split] |].
              destruct Hor as [? | Hst2]; [by left; left |]. right.
              intros x Hx. rewrite Hfp'. by apply Hst2.
Qed.

Lemma sweep_guards (items : list string) (st : rstate) (out : outcome) (st' : rstate) :
  chain (source_walk py_str llm g None to_generate_code) items st out st' →
  ∃ t, trace st' = trace st ++ t ∧
       (untouched st → guard_first t ∧ (fired t ∨ untouched st')).
Proof.
  intros Hchain.
  induction Hchain as [st | s rest st e st' Hs | s rest st st1 out st' Hs Hrest IH].
  - exists []. rewrite app_nil_r. split; [done | by apply guard_nothing].
  - destruct Hs as (fuel & prefix & is_last & depth & Hwalk).
    apply walk_guards in Hwalk as (t & Ht & Hguard & _). by exists t.
  - destruct Hs as (fuel & prefix & is_last & depth & Hwalk).
    apply walk_guards in Hwalk as (t1 & Ht1 & Hguard1 & _).
    destruct IH as (t2 & Ht2 & Hguard2).
    exists (t1 ++ t2). split; [by rewrite Ht2, Ht1, app_assoc |].
    intros Hst. rewrite guard_first_app, fired_app.
    destruct (Hguard1 Hst) as [Hg1 [Hf1 | Hst1]]; [by auto |].
    destruct (Hguard2 Hst1) as [Hg2 [Hf2 | Hst']]; by auto.
Qed.

(** In a run without a depth limit, before any node of [C] is emitted the
    cycle guard has returned on a node of [C]. *)
Lemma run_guard_first (out : outcome) (st : rstate) (t1 t2 : list event)
    (x line : string) :
  print_dag_in_reverse py_str llm g None to_generate_code = Some (out, st) →
  trace st = t1 ++ ELabel x line :: t2 → C x → ∃ y, C y ∧ ECycle y ∈ t1.
Proof.
  intros Hrun Htrace Hx.
  destruct (run_structure _ _ _ _ _ _ _ _ Hrun) as (st0 & Hchain & Hcases).
  apply sweep_guards in Hchain as (t & Ht & Hguard). simpl in Ht.
  destruct Hguard as [Hg _]; [intros y _; apply not_elem_of_empty |].
  assert (Hall : guard_first (trace st)).
  { destruct Hcases as [(_ & _ & ->) | [(_ & _ & ->) | (_ & ->)]];
      [| by rewrite Ht | by rewrite Ht].
    unfold save_generated_code. simpl. rewrite Ht, <- app_assoc.
    apply guard_first_app. split; [done | by right]. }
  rewrite Htrace in Hall. by apply guard_first_at in Hall.
Qed.

End CycleGuard.

(** ** The events of a reverse run *)

Section ReverseEvents.

Context (py_str : pyval → string) (llm : nat → string → result string).
Context (g : nx.DiGraph) (max_depth : option Z) (to_generate_code : bool).

(** An event of a walk: a printed line is the label of its node after a
    prefix and a connector; the other events of a walk print nothing. *)
Definition walk_event (e : event) : Prop :=
  match e with
  | ELabel n line =>
      ∃ prefix is_last label,
        get_node_label py_str g n = Ok label ∧
        line = prefix +:+ connector is_last +:+ label
  | ECycle _ | ESynth _ _ => True
  | ERevisit _ _ | EWrite _ _ | EPrint _ => False
  end.

(** The events [t] between two states are events of a walk, and the texts
    synthesised in [t] are what [generate_code] returned for their nodes, as
    consecutive requests to the model. *)
Definition events_faithful (st st' : rstate) : Prop :=
  ∃ t, trace st' = trace st ++ t ∧
       Forall walk_event t ∧
       llm_calls st' = llm_calls st + length (synthesized t) ∧
       (to_generate_code = false → synthesized t = []) ∧
       ∀ i n text, synthesized t !! i = Some (n, text) →
                   generate_code py_str llm (llm_calls st + i) n g = Ok text.

Lemma events_faithful_refl (st st' : rstate) :
  trace st' = trace st → llm_calls st' = llm_calls st → events_faithful st st'.
Proof.
  intros Ht Hk. exists []. rewrite app_nil_r. simpl.
  split_and!; [done | constructor | lia | done | done].
Qed.

Lemma events_faithful_trans (st st1 st2 : rstate) :
  events_faithful st st1 → events_faithful st1 st2 → events_faithful st st2.
Proof.
  intros (t1 & Ht1 & Hev1 & Hk1 & Hno1 & Hgen1) (t2 & Ht2 & Hev2 & Hk2 & Hno2 & Hgen2).
  exists (t1 ++ t2). rewrite synthesized_app, length_app. split_and!.
  - by rewrite Ht2, Ht1, app_assoc.
  - by apply Forall_app.
  - lia.
  - intros Hgen. by rewrite Hno1, Hno2.
  - intros i n text Hi. apply lookup_app_Some in Hi as [Hi | [Hle Hi]].
    + by apply Hgen1.
    + apply Hgen2 in Hi. rewrite Hk1 in Hi.
      by replace (llm_calls st + i) with (llm_calls st + length (synthesized t1)
                                          + (i - length (synthesized t1))) by lia.
Qed.

Lemma events_faithful_chain (items : list string) (st : rstate) (out : outcome)
    (st' : rstate) :
  chain (P_call py_str llm g max_depth to_generate_code (λ _ st _ st', events_faithful st st'))
    items st out st' →
  events_faithful st st'.
Proof.
  intros Hchain.
  induction Hchain as [st | c rest st e st' [Hc _]
                       | c rest st st1 out st' [Hc _] Hrest IH].
  - by apply events_faithful_refl.
  - done.
  - by eapply events_faithful_trans.
Qed.

Lemma emit_events_faithful (n prefix : string) (is_last : bool) (st : rstate)
    (out : outcome) (st' : rstate) :
  emit_node py_str llm g to_generate_code n prefix is_last st = (out, st') →
  events_faithful st st'.
Proof.
  unfold emit_node. intros Hemit.
  destruct (get_node_label py_str g n) as [label | e] eqn:Hlabel.
  2: { injection Hemit as <- <-. by apply events_faithful_refl. }
  assert (Hline : walk_event (ELabel n (prefix +:+ connector is_last +:+ label))).
  { simpl. by eexists _, _, _. }
  destruct to_generate_code eqn:Hgen.
  - simpl in Hemit.
    destruct (generate_code py_str llm (llm_calls st) n g) as [text | e] eqn:Htext.
    + assert (Hst' : trace st' = trace st ++ [ELabel n (prefix +:+ connector is_last +:+ label);
                                              ESynth n text] ∧
                     llm_calls st' = S (llm_calls st)).
      { unfold visited_remove in Hemit. simpl in Hemit.
        case_decide; injection Hemit as <- <-; simpl; by rewrite <- app_assoc. }
      destruct Hst' as [Ht Hk]. eexists. split; [exact Ht |]. simpl.
      split_and!.
      * apply Forall_cons_2; [exact Hline |]. apply Forall_cons_2; [exact I | constructor].
      * lia.
      * congruence.
      * intros [| i] n' text' Hi; [| done]. simpl in Hi. injection Hi as <- <-.
        by rewrite Nat.add_0_r.
    + injection Hemit as <- <-. eexists [ELabel n _]. simpl.
      split_and!; [done | | lia | done | done].
      apply Forall_cons_2; [exact Hline | constructor].
  - assert (Hst' : trace st' = trace st ++ [ELabel n (prefix +:+ connector is_last +:+ label)] ∧
                   llm_calls st' = llm_calls st).
    { unfold visited_remove in Hemit. simpl in Hemit.
      case_decide; by injection Hemit as <- <-. }
    destruct Hst' as [Ht Hk]. eexists. split; [exact Ht |]. simpl.
    split_and!; [| lia | done | done].
    apply Forall_cons_2; [exact Hline | constructor].
Qed.

Lemma walk_events_faithful (fuel : nat) (n prefix : string) (is_last : bool)
    (depth : Z) (st : rstate) (out : outcome) (st' : rstate) :
  _print_dag_recursive py_str llm fuel g max_depth to_generate_code
    n prefix is_last depth st = Some (out, st') →
  events_faithful st st'.
Proof.
  apply (walk_ind py_str llm g max_depth to_generate_code
           (λ _ st _ st', events_faithful st st')); clear.
  - intros n st _. by apply events_faithful_refl.
  - intros n st _ _. exists [ECycle n]. simpl.
    split_and!; [done | | lia | done | done].
    apply Forall_cons_2; [exact I | constructor].
  - intros n st _ _ _. by apply events_faithful_refl.
  - intros n st e _ _ _. by apply events_faithful_refl.
  - intros n st children e st' _ _ _ Hchain. by apply events_faithful_chain in Hchain.
  - intros n st children st2 prefix is_last out st' _ _ _ Hchain _ Hemit.
    apply events_faithful_chain in Hchain.
    eapply events_faithful_trans; [exact Hchain |]. by eapply emit_events_faithful.
Qed.

Lemma sweep_events_faithful (items : list string) (st : rstate) (out : outcome)
    (st' : rstate) :
  chain (source_walk py_str llm g max_depth to_generate_code) items st out st' →
  events_faithful st st'.
Proof.
  intros Hchain.
  induction Hchain as [st | s rest st e st' Hs | s rest st st1 out st' Hs Hrest IH].
  - by apply events_faithful_refl.
  - destruct Hs as (fuel & prefix & is_last & depth & Hwalk).
    by apply walk_events_faithful in Hwalk.
  - destruct Hs as (fuel & prefix & is_last & depth & Hwalk).
    apply walk_events_faithful in Hwalk. by eapply events_faithful_trans.
Qed.

(** The lines printed by events of a walk are the lines of its labels. *)
Lemma walk_events_stdout (t : list event) :
  Forall walk_event t →
  Forall2 (λ n line, ∃ prefix is_last label,
                       get_node_label py_str g n = Ok label ∧
                       line = prefix +:+ connector is_last +:+ label)
    (emitted t) (stdout t).
Proof.
  induction 1 as [| e t He _ IH]; [constructor |].
  destruct e; simpl in *; try done. by constructor.
Qed.

End ReverseEvents.

Lemma stdout_app (t1 t2 : list event) : stdout (t1 ++ t2) = stdout t1 ++ stdout t2.
Proof. apply omap_app. Qed.

(** With code generation, the [i]-th text recorded by a run is the answer of
    [generate_code] for its node, as request number [i]. *)
Lemma run_synthesized_faithful (py_str : pyval → string)
    (llm : nat → string → result string) (g : nx.DiGraph) (max_depth : option Z)
    (to_generate_code : bool) (out : outcome) (st : rstate) :
  print_dag_in_reverse py_str llm g max_depth to_generate_code = Some (out, st) →
  ∀ i n text, synthesized (trace st) !! i = Some (n, text) →
              generate_code py_str llm i n g = Ok text.
Proof.
  intros Hrun. unfold print_dag_in_reverse in Hrun.
  destruct (run_structure _ _ _ _ _ _ _ _ Hrun) as (st0 & Hchain & Hcases).
  apply sweep_events_faithful in Hchain as (t & Ht & _ & _ & _ & Hgen).
  simpl in Ht, Hgen.
  assert (Hs : synthesized (trace st) = synthesized t).
  { destruct Hcases as [(_ & _ & ->) | [(_ & _ & ->) | (_ & ->)]]; rewrite ?Ht; [| done | done].
    unfold save_generated_code. simpl. rewrite Ht, !synthesized_app. simpl.
    by rewrite !app_nil_r. }
  rewrite Hs. exact Hgen.
Qed.

(** * The claims *)

(** C1 does not hold of every run: a run that raises stops before it has
    emitted the nodes still to come.  On the graph made of one node added
    without attributes, the node is a source, and the run raises before it
    emits it; on the graph A→B, A→C, B→C with a model whose client fails, the
    run with code generation raises after it has emitted C alone. *)
Lemma reverse_emits_each_reachable_node_once_counterexample :
  (reachable_from_source bare_node "A" ∧
   ∃ st, print_dag_in_reverse sample_str sample_llm bare_node None false
           = Some (Raised (AttributeError "str" "get"), st) ∧
         emitted (trace st) = []) ∧
  (reachable_from_source diamond "A" ∧ reachable_from_source diamond "B" ∧
   ∃ st, print_dag_in_reverse sample_str refusing_llm diamond None true
           = Some (Raised (LLMError "no answer"), st) ∧
         emitted (trace st) = ["C"]).
Proof.
  split.
  - split.
    + exists "A". split; [split; [compute_done | reflexivity] | apply rtc_refl].
    + eexists. split; [vm_compute; reflexivity | reflexivity].
  - split_and!.
    + exists "A". split; [split; [compute_done | reflexivity] | apply rtc_refl].
    + exists "A". split; [split; [compute_done | reflexivity] |].
      apply rtc_once. compute_done.
    + eexists. split; [vm_compute; reflexivity | reflexivity].
Qed.

(** C1, amended.  Run without a depth limit over the source nodes (the nodes
    of in-degree 0) of a well-formed graph, the reverse traversal ends; no
    node is emitted twice; every emitted node is reachable from a source; and
    when the run returns, every node reachable from a source has been
    emitted.  The run does return when every node carries a [content] dict
    and, if code is generated, every response has a length and the model
    answers: then the emitted nodes are exactly the nodes reachable from a
    source, each emitted exactly once, however many sources or paths lead to
    it. *)
Theorem reverse_emits_each_reachable_node_once
    (py_str : pyval → string) (llm : nat → string → result string)
    (g : nx.DiGraph) (to_generate_code : bool) :
  nx.wf g →
  (∃ out st,
     print_dag_in_reverse py_str llm g None to_generate_code = Some (out, st) ∧
     NoDup (emitted (trace st)) ∧
     (∀ n, n ∈ emitted (trace st) → reachable_from_source g n) ∧
     (out = Returned → ∀ n, reachable_from_source g n → n ∈ emitted (trace st))) ∧
  ((∀ n, n ∈ nx.nodes g → has_content g n) →
   (to_generate_code = true →
    (∀ n, n ∈ nx.nodes g → has_response g n) ∧ answers llm) →
   ∃ st,
     print_dag_in_reverse py_str llm g None to_generate_code = Some (Returned, st) ∧
     NoDup (emitted (trace st)) ∧
     (∀ n, n ∈ emitted (trace st) ↔ reachable_from_source g n)).
Proof.
  intros Hwf.
  destruct (run_returns py_str llm g None to_generate_code Hwf) as (out & st & Hrun).
  pose proof (run_emitted_once _ _ _ _ _ _ _ Hrun) as Hnd.
  split.
  - exists out, st. split_and!; [done | done | |].
    + intros n. by eapply run_emitted_reachable.
    + intros Hout n. by eapply run_emitted_complete.
  - intros Hcontent Hsynth.
    assert (out = Returned) as ->.
    { eapply run_no_raise; [exact Hwf | by apply has_content_labels_ok | | exact Hrun].
      intros Hgen. destruct (Hsynth Hgen) as [Hresponse Hanswers].
      by apply (has_response_synthesis_ok py_str llm g to_generate_code). }
    exists st. split_and!; [done | done |]. intros n. split.
    + by eapply run_emitted_reachable.
    + by eapply run_emitted_complete.
Qed.

Lemma reverse_emits_each_reachable_node_once_witness :
  nx.wf two_sources ∧
  (∀ n, n ∈ nx.nodes two_sources → has_content two_sources n) ∧
  (∀ n, n ∈ nx.nodes two_sources → has_response two_sources n) ∧
  answers sample_llm ∧
  source_nodes two_sources = ["A"; "D"] ∧
  ∃ st,
    print_dag_in_reverse sample_str sample_llm two_sources None true
      = Some (Returned, st) ∧
    emitted (trace st) = ["C"; "B"; "A"; "D"] ∧
    NoDup (emitted (trace st)) ∧
    (∀ n, n ∈ emitted (trace st) ↔ reachable_from_source two_sources n).
Proof.
  assert (Hwf : nx.wf two_sources) by compute_done.
  assert (Hresponse : ∀ n, n ∈ nx.nodes two_sources → has_response two_sources n).
  { intros n Hn. cbn in Hn.
    repeat (apply elem_of_cons in Hn as [-> | Hn]);
      [.. | by apply not_elem_of_nil in Hn];
      (eexists _, _; split_and!; [reflexivity | reflexivity | done]). }
  assert (Hcontent : ∀ n, n ∈ nx.nodes two_sources → has_content two_sources n).
  { intros n Hn. destruct (Hresponse n Hn) as (attrs & d & ? & ? & _). by exists attrs, d. }
  assert (Hanswers : answers sample_llm) by (intros k request; by eexists).
  split_and!; [done | done | done | done | reflexivity |].
  destruct (proj2 (reverse_emits_each_reachable_node_once sample_str sample_llm
                     two_sources true Hwf) Hcontent (λ _, conj Hresponse Hanswers))
    as (st & Hrun & Hnd & Hall).
  exists st. split_and!; [done | | done | done].
  assert (Hc : ∃ st', print_dag_in_reverse sample_str sample_llm two_sources None true
                        = Some (Returned, st') ∧
                      emitted (trace st') = ["C"; "B"; "A"; "D"])
    by (eexists; split; [vm_compute; reflexivity | reflexivity]).
  destruct Hc as (st' & Hrun' & Hemitted).
  rewrite Hrun in Hrun'. by injection Hrun' as ->.
Defined.

(** C2. On a well-formed acyclic graph the reverse traversal without a depth
    limit ends, and when it returns every emitted node [n] stands in the
    emitted sequence, which has no repetition, strictly after every node [m]
    reached from [n] along one edge or more.  On the graph with nodes A, B, C
    and edges A→B, A→C, B→C, whose only source is A, the emitted sequence is
    exactly C, B, A. *)
Theorem reverse_post_order_on_acyclic_graph
    (py_str : pyval → string) (llm : nat → string → result string)
    (g : nx.DiGraph) (to_generate_code : bool) :
  nx.wf g → acyclic g →
  (∃ out st,
     print_dag_in_reverse py_str llm g None to_generate_code = Some (out, st) ∧
     NoDup (emitted (trace st)) ∧
     (out = Returned →
      ∀ n m, n ∈ emitted (trace st) → tc (nx.edge g) n m →
             occurs_before (emitted (trace st)) m n ∧
             ¬ occurs_before (emitted (trace st)) n m)) ∧
  (source_nodes diamond = ["A"] ∧
   ∃ st, print_dag_in_reverse py_str llm diamond None false = Some (Returned, st) ∧
         emitted (trace st) = ["C"; "B"; "A"]).
Proof.
  intros Hwf Hacyclic. split.
  - destruct (run_returns py_str llm g None to_generate_code Hwf) as (out & st & Hrun).
    exists out, st.
    assert (Hnd : NoDup (emitted (trace st))) by by eapply run_emitted_once.
    split_and!; [done | done |].
    intros Hout n m Hn Hpath.
    assert (Hbefore : occurs_before (emitted (trace st)) m n).
    { eapply successors_first_closure; [done | | done | done].
      by eapply run_successors_first. }
    split; [done |]. intros Hafter.
    apply (occurs_before_irrefl (emitted (trace st)) n Hnd).
    by eapply occurs_before_trans.
  - split; [reflexivity |]. eexists. split; [vm_compute; reflexivity | reflexivity].
Qed.

Lemma reverse_post_order_on_acyclic_graph_witness :
  nx.wf diamond ∧ acyclic diamond ∧
  ∃ out st,
    print_dag_in_reverse sample_str sample_llm diamond None true = Some (out, st) ∧
    NoDup (emitted (trace st)) ∧
    (out = Returned →
     ∀ n m, n ∈ emitted (trace st) → tc (nx.edge diamond) n m →
            occurs_before (emitted (trace st)) m n ∧
            ¬ occurs_before (emitted (trace st)) n m).
Proof.
  assert (Hwf : nx.wf diamond) by compute_done.
  assert (Hacyclic : acyclic diamond).
  { apply (ranked_acyclic diamond (λ n, String.length (if String.eqb n "A" then "aa"
                                                       else if String.eqb n "B" then "b"
                                                       else ""))).
    compute_done. }
  split_and!; [done | done |].
  apply (reverse_post_order_on_acyclic_graph sample_str sample_llm diamond true
           Hwf Hacyclic).
Defined.

(** C4, as stated, fails.  On the cycle A→B→C→A entered from the source S the
    run returns having emitted C, B, A, S: all three nodes of the cycle, and
    none of them before the cycle guard returns on A.  So neither before the
    first re-entry nor in the whole run are exactly two of the three emitted.
    On the bare cycle, which has no source, nothing is emitted at all. *)
Lemma reverse_cycle_emits_two_counterexample :
  nx.wf entered_cycle ∧
  nx.edge entered_cycle "A" "B" ∧ nx.edge entered_cycle "B" "C" ∧
  nx.edge entered_cycle "C" "A" ∧
  (∃ st,
     print_dag_in_reverse sample_str sample_llm entered_cycle None false
       = Some (Returned, st) ∧
     emitted (trace st) = ["C"; "B"; "A"; "S"] ∧
     before_first_cycle (trace st) = [] ∧
     length (emitted_among ["A"; "B"; "C"] (before_first_cycle (trace st))) ≠ 2 ∧
     length (emitted_among ["A"; "B"; "C"] (trace st)) ≠ 2) ∧
  (∃ st,
     print_dag_in_reverse sample_str sample_llm cycle3 None false = Some (Returned, st) ∧
     length (emitted_among ["A"; "B"; "C"] (trace st)) ≠ 2).
Proof.
  split_and!; try compute_done.
  - eexists. split; [vm_compute; reflexivity |]. split_and!; compute_done.
  - eexists. split; [vm_compute; reflexivity |]. compute_done.
Qed.

(** C4, amended.  On every well-formed graph that contains a directed cycle
    a→b→c→a the reverse traversal without a depth limit ends; it emits no
    node twice; it emits no node of the cycle before the cycle guard has
    returned, silently, on a node of the cycle; and when the run returns, the
    three nodes are emitted all together or not at all, according to whether
    the cycle is reachable from a source. *)
Theorem reverse_cycle_emitted_after_guard
    (py_str : pyval → string) (llm : nat → string → result string)
    (g : nx.DiGraph) (to_generate_code : bool) (a b c : string) :
  nx.wf g → nx.edge g a b → nx.edge g b c → nx.edge g c a →
  ∃ out st,
    print_dag_in_reverse py_str llm g None to_generate_code = Some (out, st) ∧
    NoDup (emitted (trace st)) ∧
    (∀ t1 x line t2,
       trace st = t1 ++ ELabel x line :: t2 → x ∈ [a; b; c] →
       ∃ y, y ∈ [a; b; c] ∧ ECycle y ∈ t1) ∧
    (out = Returned →
     (a ∈ emitted (trace st) ↔ reachable_from_source g a) ∧
     (b ∈ emitted (trace st) ↔ a ∈ emitted (trace st)) ∧
     (c ∈ emitted (trace st) ↔ a ∈ emitted (trace st))).
Proof.
  intros Hwf Hab Hbc Hca.
  destruct (run_returns py_str llm g None to_generate_code Hwf) as (out & st & Hrun).
  exists out, st. split_and!; [done | by eapply run_emitted_once | |].
  - intros t1 x line t2 Htrace Hx.
    eapply (run_guard_first py_str llm g to_generate_code (λ x, x ∈ [a; b; c]));
      [| done | done | done].
    intros y Hy. repeat (apply elem_of_cons in Hy as [-> | Hy]).
    + exists b. split; [set_solver | done].
    + exists c. split; [set_solver | done].
    + exists a. split; [set_solver | done].
    + by apply not_elem_of_nil in Hy.
  - intros Hout.
    assert (Hiff : ∀ n, n ∈ emitted (trace st) ↔ reachable_from_source g n).
    { intros n. split; [by eapply run_emitted_reachable | by eapply run_emitted_complete]. }
    assert (Hstep : ∀ u v, nx.edge g u v → reachable_from_source g u →
                           reachable_from_source g v).
    { intros u v Huv (s & Hs & Hreach). exists s. split; [done |].
      eapply rtc_r; [exact Hreach | done]. }
    rewrite !Hiff. split_and!; [done | |]; split; eauto.
Qed.

Lemma reverse_cycle_emitted_after_guard_witness :
  nx.wf entered_cycle ∧
  ∃ out st,
    print_dag_in_reverse sample_str sample_llm entered_cycle None true = Some (out, st) ∧
    NoDup (emitted (trace st)) ∧
    (∀ t1 x line t2,
       trace st = t1 ++ ELabel x line :: t2 → x ∈ ["A"; "B"; "C"] →
       ∃ y, y ∈ ["A"; "B"; "C"] ∧ ECycle y ∈ t1) ∧
    (out = Returned →
     ("A" ∈ emitted (trace st) ↔ reachable_from_source entered_cycle "A") ∧
     ("B" ∈ emitted (trace st) ↔ "A" ∈ emitted (trace st)) ∧
     ("C" ∈ emitted (trace st) ↔ "A" ∈ emitted (trace st))).
Proof.
  assert (Hwf : nx.wf entered_cycle) by compute_done.
  split; [done |].
  apply (reverse_cycle_emitted_after_guard sample_str sample_llm entered_cycle true
           "A" "B" "C" Hwf); compute_done.
Defined.

(** Keys other than [content] may be missing: the labels are still built. *)
Lemma labels_tolerate_other_keys (py_str : pyval → string) (g : nx.DiGraph)
    (n new_prefix : string) (attrs : Py.dict) (d : Py.dict) :
  nx.getitem g n = Ok attrs → Py.lookup "content" attrs = Some (PDict d) →
  (∃ label, print_dag_label py_str g n new_prefix = Ok label) ∧
  (∃ label, get_node_label py_str g n = Ok label).
Proof.
  intros Hattrs Hcontent. unfold print_dag_label, get_node_label.
  rewrite Hattrs. simpl. unfold dict_get. rewrite Hcontent. simpl.
  split; by eexists.
Qed.

(** Without the key [content] both labellings raise. *)
Lemma labels_raise_without_content (py_str : pyval → string) (g : nx.DiGraph)
    (n new_prefix : string) (attrs : Py.dict) :
  nx.getitem g n = Ok attrs → Py.lookup "content" attrs = None →
  print_dag_label py_str g n new_prefix = Raise (AttributeError "str" "get") ∧
  get_node_label py_str g n = Raise (AttributeError "str" "get").
Proof.
  intros Hattrs Hcontent. unfold print_dag_label, get_node_label.
  rewrite Hattrs. simpl. unfold dict_get. by rewrite Hcontent.
Qed.

(** C3 fails on the code: a node without the key [content] makes both
    labellings raise.  The default taken for the missing value is the empty
    string, and a string has no method [get]; so on a graph made of one node
    added without attributes, and on one whose node has every key but
    [content], the forward walk and the reverse run end with
    [AttributeError] before anything is printed. *)
Theorem missing_content_raises
    (py_str : pyval → string) (llm : nat → string → result string)
    (to_generate_code : bool) :
  print_dag_from py_str bare_node "A" None
    = Some (Raised (AttributeError "str" "get"), {| p_visited := ∅; p_trace := [] |}) ∧
  print_dag_from py_str no_content "A" None
    = Some (Raised (AttributeError "str" "get"), {| p_visited := ∅; p_trace := [] |}) ∧
  (∃ st, print_dag_in_reverse py_str llm bare_node None to_generate_code
           = Some (Raised (AttributeError "str" "get"), st) ∧ trace st = []) ∧
  (∃ st, print_dag_in_reverse py_str llm no_content None to_generate_code
           = Some (Raised (AttributeError "str" "get"), st) ∧ trace st = []).
Proof.
  split_and!; [reflexivity | reflexivity | |];
    (eexists; split; [vm_compute; reflexivity | reflexivity]).
Qed.

(** C5. From any start node of a well-formed graph the forward traversal
    ends; no node is labelled, hence expanded, twice; the visited set at the
    end is the set of all labelled nodes (nothing is ever taken out of it);
    every (Already visited) line names a node labelled earlier and has the
    text [(Already visited) [node_id: ...]] after its prefix and connector;
    and without a depth limit a run that returns has rendered every edge out
    of a labelled node exactly once, either by labelling its target for the
    first time or by such a line. *)
Theorem forward_expands_each_node_once
    (py_str : pyval → string) (g : nx.DiGraph) (start : string) (max_depth : option Z) :
  nx.wf g →
  ∃ out st,
    print_dag_from py_str g start max_depth = Some (out, st) ∧
    NoDup (emitted (p_trace st)) ∧
    p_visited st = list_to_set (emitted (p_trace st)) ∧
    (∀ t1 c text t2,
       p_trace st = t1 ++ ERevisit c text :: t2 →
       c ∈ emitted t1 ∧
       ∃ new_prefix is_last_child,
         text = new_prefix +:+ connector is_last_child +:+
                "(Already visited) [node_id: " +:+ c +:+ "]") ∧
    (max_depth = None → out = Returned →
     revisit_count (p_trace st) + length (emitted (p_trace st))
       = 1 + sum_list_with (out_degree g) (emitted (p_trace st))).
Proof.
  intros Hwf.
  destruct (print_dag_returns py_str g max_depth (S (length (nx.nodes g))) start "" true 0%Z
              {| p_visited := ∅; p_trace := [] |} Hwf)
    as (out & st & Hrun); [set_solver | | lia |].
  { unfold unvisited. simpl. destruct Hwf as (Hnd & _).
    rewrite difference_empty_L, size_list_to_set by done. lia. }
  exists out, st. split; [done |].
  destruct (print_dag_labels_fresh _ _ _ _ _ _ _ _ _ _ _ Hrun)
    as (t & Ht & Hnd & _ & Hv & Hknown); [set_solver |].
  simpl in Ht, Hv, Hknown. rewrite Ht.
  split_and!; [done | by rewrite Hv, union_empty_r_L | |].
  - intros t1 c text t2 Heq. rewrite Heq in Hknown.
    apply revisits_known_at in Hknown as [[Hc | Hc] Htext]; [set_solver | done].
  - intros Hmd Hout.
    destruct (print_dag_edges_rendered _ _ _ _ _ _ _ _ _ _ _ Hmd Hrun Hout)
      as (t' & Ht' & Hcount).
    simpl in Ht'. rewrite <- Ht, Ht'. done.
Qed.

Lemma forward_expands_each_node_once_witness :
  nx.wf entered_cycle ∧
  ∃ out st,
    print_dag_from sample_str entered_cycle "S" None = Some (out, st) ∧
    NoDup (emitted (p_trace st)) ∧
    p_visited st = list_to_set (emitted (p_trace st)) ∧
    (∀ t1 c text t2,
       p_trace st = t1 ++ ERevisit c text :: t2 →
       c ∈ emitted t1 ∧
       ∃ new_prefix is_last_child,
         text = new_prefix +:+ connector is_last_child +:+
                "(Already visited) [node_id: " +:+ c +:+ "]") ∧
    ((None : option Z) = None → out = Returned →
     revisit_count (p_trace st) + length (emitted (p_trace st))
       = 1 + sum_list_with (out_degree entered_cycle) (emitted (p_trace st))).
Proof.
  split; [compute_done |].
  apply (forward_expands_each_node_once sample_str entered_cycle "S" None).
  compute_done.
Defined.



(** C7. When code generation is requested on a well-formed graph the run
    ends; the synthesis step is called at most once per node, on the emitted
    nodes in the order of their emission, and the [i]-th text recorded is
    what [generate_code] answered for its node as request number [i]; when
    the run returns, every emitted node has been synthesised, and the last
    thing the run does is one write of the file [generated_code.txt] whose
    content is the returned texts in that order, each followed by a blank
    line.  A run that raises writes nothing.  When every node carries a
    [content] dict whose response has a length and the model answers, the run
    returns, and without a depth limit every node reachable from a source has
    its text in the file. *)
Theorem generated_code_follows_emission_order
    (py_str : pyval → string) (llm : nat → string → result string)
    (g : nx.DiGraph) (max_depth : option Z) :
  nx.wf g →
  ∃ out st,
    print_dag_in_reverse py_str llm g max_depth true = Some (out, st) ∧
    NoDup ((synthesized (trace st)).*1) ∧
    (synthesized (trace st)).*1 `prefix_of` emitted (trace st) ∧
    (∀ i n text,
       synthesized (trace st) !! i = Some (n, text) →
       generate_code py_str llm i n g = Ok text) ∧
    (out = Returned →
     (synthesized (trace st)).*1 = emitted (trace st) ∧
     writes (trace st)
       = [("generated_code.txt", code_blocks ((synthesized (trace st)).*2))] ∧
     ∃ t, trace st = t ++ [EWrite "generated_code.txt"
                             (code_blocks ((synthesized (trace st)).*2));
                           EPrint saved_notice] ∧
          writes t = []) ∧
    (out ≠ Returned → writes (trace st) = []) ∧
    ((∀ n, n ∈ nx.nodes g → has_response g n) → answers llm →
     out = Returned ∧
     (max_depth = None →
      ∀ n, reachable_from_source g n → n ∈ (synthesized (trace st)).*1)).
Proof.
  intros Hwf.
  destruct (run_returns py_str llm g max_depth true Hwf) as (out & st & Hrun).
  exists out, st. split; [done |].
  pose proof (run_emitted_once _ _ _ _ _ _ _ Hrun) as Hnd.
  destruct (run_code _ _ _ _ _ _ _ Hrun) as (t & Hw & Hpre & Heq & _ & Hcases).
  assert (Hsame : out = Returned →
                  synthesized (trace st) = synthesized t ∧ emitted (trace st) = emitted t ∧
                  trace st = t ++ [EWrite "generated_code.txt"
                                     (code_blocks ((synthesized t).*2));
                                   EPrint saved_notice]).
  { intros ->. destruct Hcases as [(_ & _ & Ht) | [(_ & ? & _) | ([e ?] & _)]];
      [| done | done].
    rewrite Ht, synthesized_app, emitted_app. simpl. by rewrite !app_nil_r. }
  assert (Hprefix : (synthesized (trace st)).*1 `prefix_of` emitted (trace st)).
  { destruct Hcases as [(Hout & _ & _) | [(_ & ? & _) | (_ & ->)]]; [| done | done].
    destruct (Hsame Hout) as (-> & -> & _). done. }
  assert (Hall : out = Returned → (synthesized (trace st)).*1 = emitted (trace st)).
  { intros Hout. destruct (Hsame Hout) as (-> & -> & _). by apply Heq. }
  split_and!; [| done | | | |].
  - destruct Hprefix as [k Hk]. rewrite Hk in Hnd. by apply NoDup_app in Hnd as [? _].
  - by eapply run_synthesized_faithful.
  - intros Hout. destruct (Hsame Hout) as (Hs & He & Ht).
    split; [by apply Hall |]. rewrite Hs. split; [| by exists t].
    rewrite Ht, writes_app, Hw. done.
  - intros Hout.
    destruct Hcases as [(? & _) | [(? & _) | (_ & ->)]]; [done | done | done].
  - intros Hresponse Hanswers.
    assert (Hout : out = Returned).
    { eapply run_no_raise; [exact Hwf | | | exact Hrun].
      - apply has_content_labels_ok. intros n Hn.
        by apply has_response_content, Hresponse.
      - by apply (has_response_synthesis_ok py_str llm g true). }
    split; [done |]. intros Hmd n Hn. rewrite (Hall Hout).
    by eapply run_emitted_complete.
Qed.

Lemma generated_code_follows_emission_order_witness :
  nx.wf diamond ∧
  (∀ n, n ∈ nx.nodes diamond → has_response diamond n) ∧
  answers sample_llm ∧
  ∃ st,
    print_dag_in_reverse sample_str sample_llm diamond None true = Some (Returned, st) ∧
    emitted (trace st) = ["C"; "B"; "A"] ∧
    synthesized (trace st)
      = [("C", "def request_0(): pass"); ("B", "def request_1(): pass");
         ("A", "def request_2(): pass")] ∧
    writes (trace st)
      = [("generated_code.txt",
          "def request_0(): pass" +:+ nl +:+ nl +:+
          "def request_1(): pass" +:+ nl +:+ nl +:+
          "def request_2(): pass" +:+ nl +:+ nl)] ∧
    (∀ n, reachable_from_source diamond n → n ∈ (synthesized (trace st)).*1).
Proof.
  assert (Hwf : nx.wf diamond) by compute_done.
  assert (Hresponse : ∀ n, n ∈ nx.nodes diamond → has_response diamond n).
  { intros n Hn. cbn in Hn.
    repeat (apply elem_of_cons in Hn as [-> | Hn]);
      [.. | by apply not_elem_of_nil in Hn];
      (eexists _, _; split_and!; [reflexivity | reflexivity | done]). }
  assert (Hanswers : answers sample_llm) by (intros k request; by eexists).
  split_and!; [done | done | done |].
  destruct (generated_code_follows_emission_order sample_str sample_llm diamond None Hwf)
    as (out & st & Hrun & _ & _ & _ & _ & _ & Hok).
  destruct (Hok Hresponse Hanswers) as [-> Hall].
  exists st.
  assert (Hc : ∃ st', print_dag_in_reverse sample_str sample_llm diamond None true
                        = Some (Returned, st') ∧
                      emitted (trace st') = ["C"; "B"; "A"] ∧
                      synthesized (trace st')
                        = [("C", "def request_0(): pass"); ("B", "def request_1(): pass");
                           ("A", "def request_2(): pass")] ∧
                      writes (trace st')
                        = [("generated_code.txt",
                            "def request_0(): pass" +:+ nl +:+ nl +:+
                            "def request_1(): pass" +:+ nl +:+ nl +:+
                            "def request_2(): pass" +:+ nl +:+ nl)])
    by (eexists; split; [vm_compute; reflexivity | split_and!; reflexivity]).
  destruct Hc as (st' & Hrun' & Hemitted & Hsynth & Hwrites).
  rewrite Hrun in Hrun'. injection Hrun' as ->.
  split_and!; [done | done | done | done |]. by apply Hall.
Defined.

(** C8. On a well-formed graph, cyclic or not, the forward traversal from any
    start node ends, with any depth limit or none: a recursion budget of the
    number of nodes (and at least 1) is enough, because each nested call is
    made on a node that is not yet in the visited set, which only grows. *)
Theorem forward_traversal_terminates
    (py_str : pyval → string) (g : nx.DiGraph) (start : string) (max_depth : option Z)
    (fuel : nat) :
  nx.wf g → (length (nx.nodes g) ≤ fuel)%nat → (1 ≤ fuel)%nat →
  ∃ out st,
    print_dag py_str fuel g start "" true 0%Z max_depth {| p_visited := ∅; p_trace := [] |}
      = Some (out, st) ∧
    print_dag_from py_str g start max_depth = Some (out, st) ∧
    p_visited st = list_to_set (emitted (p_trace st)).
Proof.
  intros Hwf Hfuel Hpos.
  assert (Hsize : size (unvisited g {| p_visited := ∅; p_trace := [] |})
                  = length (nx.nodes g)).
  { unfold unvisited. simpl. destruct Hwf as (Hnd & _).
    by rewrite difference_empty_L, size_list_to_set. }
  destruct (print_dag_returns py_str g max_depth fuel start "" true 0%Z
              {| p_visited := ∅; p_trace := [] |} Hwf)
    as (out & st & Hrun); [set_solver | lia | done |].
  destruct (print_dag_returns py_str g max_depth (S (length (nx.nodes g))) start "" true 0%Z
              {| p_visited := ∅; p_trace := [] |} Hwf)
    as (out' & st' & Hrun'); [set_solver | lia | lia |].
  assert (Heq : (out', st') = (out, st)).
  { destruct (Nat.le_ge_cases fuel (S (length (nx.nodes g)))) as [Hle | Hle].
    - apply (print_dag_fuel_mono _ _ _ _ _ _ _ _ _ _ _ Hle) in Hrun. congruence.
    - apply (print_dag_fuel_mono _ _ _ _ _ _ _ _ _ _ _ Hle) in Hrun'. congruence. }
  injection Heq as -> ->.
  exists out, st. split_and!; [done | done |].
  destruct (print_dag_labels_fresh _ _ _ _ _ _ _ _ _ _ _ Hrun)
    as (t & Ht & _ & _ & Hv & _); [set_solver |].
  simpl in Ht, Hv. by rewrite Ht, Hv, union_empty_r_L.
Qed.

Lemma forward_traversal_terminates_witness :
  nx.wf cycle3 ∧ (length (nx.nodes cycle3) ≤ 3)%nat ∧ (1 ≤ 3)%nat ∧
  ∃ out st,
    print_dag sample_str 3 cycle3 "A" "" true 0%Z None {| p_visited := ∅; p_trace := [] |}
      = Some (out, st) ∧
    print_dag_from sample_str cycle3 "A" None = Some (out, st) ∧
    p_visited st = list_to_set (emitted (p_trace st)).
Proof.
  assert (Hwf : nx.wf cycle3) by compute_done.
  split_and!; [done | simpl; lia | lia |].
  apply (forward_traversal_terminates sample_str cycle3 "A" None 3 Hwf); simpl; lia.
Defined.

(** C9. With [max_depth = 0] the reverse traversal returns having emitted no
    node and called the synthesis step for none: every walk started at a
    source puts the source on the active path, meets the depth limit, takes it
    off again and returns.  With code generation requested the file is written
    with the empty string.  The forward traversal differs: at [max_depth = 0]
    the start node is labelled, as on the sample graph. *)
Theorem reverse_depth_zero_emits_nothing
    (py_str : pyval → string) (llm : nat → string → result string)
    (g : nx.DiGraph) (to_generate_code : bool) :
  (∃ st,
     print_dag_in_reverse py_str llm g (Some 0%Z) to_generate_code = Some (Returned, st) ∧
     emitted (trace st) = [] ∧
     synthesized (trace st) = [] ∧
     llm_calls st = 0 ∧
     generated_code st = "" ∧
     fully_processed st = ∅ ∧
     writes (trace st)
       = (if to_generate_code then [("generated_code.txt", "")] else []) ∧
     stdout (trace st) = (if to_generate_code then [saved_notice] else [])) ∧
  (∃ st,
     print_dag_from py_str diamond "A" (Some 0%Z) = Some (Returned, st) ∧
     emitted (p_trace st) = ["A"]).
Proof.
  split.
  - exists (nothing_emitted to_generate_code). split; [by apply run_at_limit |].
    unfold nothing_emitted. by destruct to_generate_code.
  - eexists. split; [vm_compute; reflexivity | reflexivity].
Qed.

(** C10. On a well-formed graph the reverse traversal, with any depth limit
    or none, ends and emits only nodes reachable from a node of in-degree 0.
    So when every node has an incoming edge, as on a single directed cycle,
    there is no walk at all: the run returns having emitted and synthesised
    nothing and, with code generation requested, writes the empty string. *)
Theorem reverse_emits_only_below_sources
    (py_str : pyval → string) (llm : nat → string → result string)
    (g : nx.DiGraph) (max_depth : option Z) (to_generate_code : bool) :
  nx.wf g →
  ∃ out st,
    print_dag_in_reverse py_str llm g max_depth to_generate_code = Some (out, st) ∧
    (∀ n, n ∈ emitted (trace st) → reachable_from_source g n) ∧
    ((∀ n, n ∈ nx.nodes g → ∃ u, nx.edge g u n) →
     out = Returned ∧
     emitted (trace st) = [] ∧
     synthesized (trace st) = [] ∧
     writes (trace st)
       = (if to_generate_code then [("generated_code.txt", "")] else [])).
Proof.
  intros Hwf.
  destruct (run_returns py_str llm g max_depth to_generate_code Hwf) as (out & st & Hrun).
  exists out, st. split_and!; [done | |].
  - intros n. by eapply run_emitted_reachable.
  - intros Hin. apply no_source_nodes in Hin.
    rewrite (run_without_source py_str llm g to_generate_code max_depth Hin) in Hrun.
    injection Hrun as <- <-. unfold nothing_emitted. by destruct to_generate_code.
Qed.

Lemma reverse_emits_only_below_sources_witness :
  nx.wf cycle3 ∧
  ∃ out st,
    print_dag_in_reverse sample_str sample_llm cycle3 None true = Some (out, st) ∧
    (∀ n, n ∈ emitted (trace st) → reachable_from_source cycle3 n) ∧
    ((∀ n, n ∈ nx.nodes cycle3 → ∃ u, nx.edge cycle3 u n) →
     out = Returned ∧
     emitted (trace st) = [] ∧
     synthesized (trace st) = [] ∧
     writes (trace st) = [("generated_code.txt", "")]).
Proof.
  split; [compute_done |].
  apply (reverse_emits_only_below_sources sample_str sample_llm cycle3 None true).
  compute_done.
Defined.

(** * Further properties of the printers *)

(** [v] is reached from [u] along at most [k] edges. *)
Inductive reach_within (g : nx.DiGraph) : nat → string → string → Prop :=
| reach_here k u : reach_within g k u u
| reach_step k u x v :
    nx.edge g u x → reach_within g k x v → reach_within g (S k) u v.

Lemma reach_within_reaches (g : nx.DiGraph) (k : nat) (u v : string) :
  reach_within g k u v → reaches g u v.
Proof.
  induction 1 as [| k u x v Hedge _ IH]; [apply rtc_refl | by eapply rtc_l].
Qed.

Lemma reach_within_mono (g : nx.DiGraph) (k k' : nat) (u v : string) :
  (k ≤ k')%nat → reach_within g k u v → reach_within g k' u v.
Proof.
  intros Hle Hreach. revert k' Hle.
  induction Hreach as [| k u x v Hedge _ IH]; intros k' Hle; [constructor |].
  destruct k' as [| k']; [lia |]. eapply reach_step; [done |]. apply IH. lia.
Qed.

(** ** The forward walk: which nodes it labels, and in which order *)

Section ForwardReach.

Context (py_str : pyval → string) (g : nx.DiGraph) (max_depth : option Z).

Local Abbreviation fwd fuel := (print_dag py_str fuel g).

(** Induction over the calls of the forward walk, keeping track of the depth. *)
Section ForwardInductionAt.

Variable P : string → Z → pstate → outcome → pstate → Prop.

Hypothesis P_label_raised : ∀ n depth st new_prefix e,
  print_dag_label py_str g n new_prefix = Raise e → P n depth st (Raised e) st.

Hypothesis P_depth : ∀ n depth st line,
  depth_limit_reached max_depth depth = true →
  P n depth st Returned (labelled n line st).

Hypothesis P_successors : ∀ n depth st line e,
  nx.successors g n = Raise e → P n depth st (Raised e) (labelled n line st).

Hypothesis P_children : ∀ n depth st line children out st',
  depth_limit_reached max_depth depth = false →
  nx.successors g n = Ok children →
  chain (child_step (λ x, P x (depth + 1)%Z)) children (labelled n line st) out st' →
  P n depth st out st'.

Lemma print_dag_ind_at (fuel : nat) (n prefix : string) (is_last : bool) (depth : Z)
    (st : pstate) (out : outcome) (st' : pstate) :
  fwd fuel n prefix is_last depth max_depth st = Some (out, st') → P n depth st out st'.
Proof.
  revert n prefix is_last depth st out st'.
  induction fuel as [| fuel IH]; intros n prefix is_last depth st out st' Hrun; [done |].
  rewrite print_dag_unfold in Hrun.
  destruct (print_dag_label py_str g n _) as [label | e] eqn:Hlabel;
    [| injection Hrun as <- <-; by eapply P_label_raised].
  simpl in Hrun.
  destruct (depth_limit_reached max_depth depth) eqn:Hdepth.
  { injection Hrun as <- <-. by apply P_depth. }
  destruct (nx.successors g n) as [children | e] eqn:Hsucc;
    [| injection Hrun as <- <-; by apply P_successors].
  eapply P_children; [done | done |].
  eapply for_enumerate_chain; [| exact Hrun].
  intros i x s o s' _ Hx. simpl in Hx. unfold child_step.
  case_decide as Hvis.
  - injection Hx as <- <-. left. split_and!; [done | done |]. by eexists _, _.
  - right. split; [done |]. by eapply IH.
Qed.

End ForwardInductionAt.

(** The nodes a call labels: the events [t] of a call on [n] at [depth] label
    [n] first, unless the label cannot be built.  Each other labelled node has
    a predecessor labelled before it in [t], lies within the depth limit (if
    any) from [n], and the call marks visited what it labels. *)
Definition predecessors_first (l : list string) : Prop :=
  ∀ l1 x l2, l = l1 ++ x :: l2 → l1 ≠ [] → ∃ u, u ∈ l1 ∧ nx.edge g u x.

Definition within_limit (depth : Z) (n x : string) : Prop :=
  match max_depth with
  | None => reaches g n x
  | Some m => reach_within g (Z.to_nat (m - depth)) n x
  end.

Definition labels_tree (n : string) (depth : Z) (st : pstate) (out : outcome)
    (st' : pstate) : Prop :=
  ∃ t, p_trace st' = p_trace st ++ t ∧
       (t = [] ∧ out ≠ Returned ∨
        ∃ rest, emitted t = n :: rest ∧ predecessors_first (n :: rest)) ∧
       (∀ x, x ∈ emitted t → within_limit depth n x).

Lemma within_limit_here (depth : Z) (n : string) : within_limit depth n n.
Proof. unfold within_limit. destruct max_depth; [constructor | apply rtc_refl]. Qed.

Lemma within_limit_child (depth : Z) (n c x : string) :
  depth_limit_reached max_depth depth = false → nx.edge g n c →
  within_limit (depth + 1) c x → within_limit depth n x.
Proof.
  unfold within_limit, depth_limit_reached. destruct max_depth as [m |].
  - intros Hlimit%Z.leb_gt Hedge Hreach.
    replace (Z.to_nat (m - depth)) with (S (Z.to_nat (m - (depth + 1)))) by lia.
    by eapply reach_step.
  - intros _ Hedge Hreach. by eapply rtc_l.
Qed.

(** The labels of a loop over successors of [n]: each has [n] or an earlier
    label of the loop for predecessor. *)
Lemma labels_tree_chain (n : string) (depth : Z) (items : list string) (st : pstate)
    (out : outcome) (st' : pstate) :
  depth_limit_reached max_depth depth = false →
  (∀ c, c ∈ items → nx.edge g n c) →
  chain (child_step (λ x, labels_tree x (depth + 1)%Z)) items st out st' →
  ∃ t, p_trace st' = p_trace st ++ t ∧
       (∀ l1 x l2, emitted t = l1 ++ x :: l2 →
                   nx.edge g n x ∨ ∃ u, u ∈ l1 ∧ nx.edge g u x) ∧
       (∀ x, x ∈ emitted t → within_limit depth n x).
Proof.
  intros Hlimit Hitems Hchain.
  induction Hchain as [st | c rest st e st' Hc | c rest st st1 out st' Hc Hrest IH].
  - exists []. rewrite app_nil_r. split_and!; [done | |].
    + intros l1 x l2 Heq. by destruct l1.
    + intros x Hx. by apply not_elem_of_nil in Hx.
  - destruct Hc as [(_ & ? & _) | [_ (t & Ht & Hshape & Hlim)]]; [done |].
    exists t. split_and!; [done | |].
    + intros l1 x l2 Heq.
      destruct Hshape as [[-> _] | (r & Hr & Hpred)]; [by destruct l1 |].
      rewrite Hr in Heq. destruct l1 as [| y l1].
      * injection Heq as <- _. left. apply Hitems, list_elem_of_here.
      * right. by apply (Hpred _ _ _ Heq).
    + intros x Hx. eapply within_limit_child; [done | | by apply Hlim].
      apply Hitems, list_elem_of_here.
  - destruct IH as (t2 & Ht2 & Hpred2 & Hlim2).
    { intros c' Hc'. by apply Hitems, list_elem_of_further. }
    assert (∃ t1, p_trace st1 = p_trace st ++ t1 ∧
                  (∀ l1 x l2, emitted t1 = l1 ++ x :: l2 →
                              nx.edge g n x ∨ ∃ u, u ∈ l1 ∧ nx.edge g u x) ∧
                  (∀ x, x ∈ emitted t1 → within_limit depth n x))
      as (t1 & Ht1 & Hpred1 & Hlim1).
    { destruct Hc as [(_ & _ & pre & last & ->) | [_ (t & Ht & Hshape & Hlim)]].
      - eexists [ERevisit c _]. split_and!; [done | |].
        + intros l1 x l2 Heq. by destruct l1.
        + intros x Hx. by apply not_elem_of_nil in Hx.
      - exists t. split_and!; [done | |].
        + intros l1 x l2 Heq.
          destruct Hshape as [[-> _] | (r & Hr & Hpred)]; [by destruct l1 |].
          rewrite Hr in Heq. destruct l1 as [| y l1].
          * injection Heq as <- _. left. apply Hitems, list_elem_of_here.
          * right. by apply (Hpred _ _ _ Heq).
        + intros x Hx. eapply within_limit_child; [done | | by apply Hlim].
          apply Hitems, list_elem_of_here. }
    exists (t1 ++ t2). rewrite emitted_app. split_and!.
    + by rewrite Ht2, Ht1, app_assoc.
    + intros l1 x l2 Heq.
      apply app_eq_inv in Heq as [(k & Heq1 & Heq2) | (k & -> & Heq2)].
      * destruct k as [| y k].
        -- rewrite app_nil_r in Heq1. simpl in Heq2.
           destruct (Hpred2 [] x l2 (eq_sym Heq2)) as [? | (u & Hu & _)]; [by left |].
           by apply not_elem_of_nil in Hu.
        -- simpl in Heq2. injection Heq2 as -> _.
           destruct (Hpred1 l1 y k Heq1) as [? | (u & Hu & ?)]; [by left |].
           right. by exists u.
      * destruct (Hpred2 k x l2 Heq2) as [? | (u & Hu & ?)]; [by left |].
        right. exists u. split; [| done]. apply elem_of_app. by right.
    + intros x [Hx | Hx]%elem_of_app; [by apply Hlim1 | by apply Hlim2].
Qed.

Lemma print_dag_labels_tree (fuel : nat) (n prefix : string) (is_last : bool)
    (depth : Z) (st : pstate) (out : outcome) (st' : pstate) :
  fwd fuel n prefix is_last depth max_depth st = Some (out, st') →
  labels_tree n depth st out st'.
Proof.
  apply (print_dag_ind_at labels_tree); clear.
  - intros n depth st _ e _. exists []. rewrite app_nil_r. split_and!; [done | by left |].
    intros x Hx. by apply not_elem_of_nil in Hx.
  - intros n depth st line _. exists [ELabel n line]. split_and!; [done | |].
    + right. exists []. split; [done |]. intros l1 x l2 Heq Hne.
      destruct l1 as [| y l1]; [done |]. by destruct l1.
    + intros x ->%list_elem_of_singleton. apply within_limit_here.
  - intros n depth st line e _. exists [ELabel n line]. split_and!; [done | |].
    + right. exists []. split; [done |]. intros l1 x l2 Heq Hne.
      destruct l1 as [| y l1]; [done |]. by destruct l1.
    + intros x ->%list_elem_of_singleton. apply within_limit_here.
  - intros n depth st line children out st' Hlimit Hsucc Hchain.
    apply successors_inv in Hsucc as ->.
    apply (labels_tree_chain n depth) in Hchain as (t & Ht & Hpred & Hlim);
      [| done | by intros c Hc%elem_of_out_edges].
    exists (ELabel n line :: t). split_and!.
    + rewrite Ht. simpl. by rewrite <- app_assoc.
    + right. exists (emitted t). split; [done |].
      intros l1 x l2 Heq Hne. destruct l1 as [| y l1]; [done |].
      simpl in Heq. injection Heq as <- Heq.
      destruct (Hpred l1 x l2 Heq) as [? | (u & Hu & ?)].
      * exists n. split; [apply list_elem_of_here | done].
      * exists u. split; [by apply list_elem_of_further | done].
    + intros x [-> | Hx]%elem_of_cons; [apply within_limit_here | by apply Hlim].
Qed.

End ForwardReach.

Section ForwardComplete.

Context (py_str : pyval → string) (g : nx.DiGraph).

(** Without a depth limit, a call that returns has visited its node, and all
    successors of the nodes it has newly visited are visited. *)
Definition expands_all (n : string) (st : pstate) (out : outcome) (st' : pstate) : Prop :=
  out = Returned →
  n ∈ p_visited st' ∧ p_visited st ⊆ p_visited st' ∧
  ∀ u v, u ∈ p_visited st' → u ∉ p_visited st → nx.edge g u v → v ∈ p_visited st'.

Lemma expands_all_chain (items : list string) (st : pstate) (out : outcome)
    (st' : pstate) :
  chain (child_step expands_all) items st out st' → out = Returned →
  p_visited st ⊆ p_visited st' ∧
  (∀ c, c ∈ items → c ∈ p_visited st') ∧
  ∀ u v, u ∈ p_visited st' → u ∉ p_visited st → nx.edge g u v → v ∈ p_visited st'.
Proof.
  intros Hchain.
  induction Hchain as [st | | c rest st st1 out st' Hc Hrest IH]; [| done |].
  - intros _. split_and!; [done | | done]. intros c Hc. by apply not_elem_of_nil in Hc.
  - intros ->. destruct (IH eq_refl) as (Hmono & Hitems & Hclosed).
    assert (c ∈ p_visited st1 ∧ p_visited st ⊆ p_visited st1 ∧
            ∀ u v, u ∈ p_visited st1 → u ∉ p_visited st → nx.edge g u v →
                   v ∈ p_visited st1) as (Hc1 & Hmono1 & Hclosed1).
    { destruct Hc as [(Hvis & _ & pre & last & ->) | [_ Hc]]; [| by apply Hc].
      simpl. split_and!; [done | done | done]. }
    split_and!; [set_solver | |].
    + intros x [-> | Hx]%elem_of_cons; [by apply Hmono | by apply Hitems].
    + intros u v Hu Hnew Huv.
      destruct (decide (u ∈ p_visited st1)) as [Hu1 | Hu1].
      * apply Hmono. by eapply Hclosed1.
      * by eapply Hclosed.
Qed.

Lemma print_dag_expands_all (fuel : nat) (n prefix : string) (is_last : bool)
    (depth : Z) (st : pstate) (out : outcome) (st' : pstate) :
  print_dag py_str fuel g n prefix is_last depth None st = Some (out, st') →
  expands_all n st out st'.
Proof.
  apply (print_dag_ind py_str g None expands_all); clear; try done.
  intros n st line children out st' Hsucc Hchain Hout.
  apply successors_inv in Hsucc as ->.
  apply expands_all_chain in Hchain as (Hmono & Hitems & Hclosed); [| done].
  simpl in Hmono, Hclosed. split_and!; [set_solver | set_solver |].
  intros u v Hu Hnew Huv. destruct (decide (u = n)) as [-> | Hne].
  - by apply Hitems, elem_of_out_edges.
  - eapply Hclosed; [done | set_solver | done].
Qed.

End ForwardComplete.

(** The call with default arguments ends on a well-formed graph; its visited
    set is then the set of the labelled nodes. *)
Lemma print_dag_from_returns (py_str : pyval → string) (g : nx.DiGraph)
    (start : string) (max_depth : option Z) :
  nx.wf g →
  ∃ out st, print_dag_from py_str g start max_depth = Some (out, st) ∧
            p_visited st = list_to_set (emitted (p_trace st)).
Proof.
  intros Hwf.
  destruct (print_dag_returns py_str g max_depth (S (length (nx.nodes g))) start "" true 0%Z
              {| p_visited := ∅; p_trace := [] |} Hwf)
    as (out & st & Hrun); [set_solver | | lia |].
  { unfold unvisited. simpl. destruct Hwf as (Hnd & _).
    rewrite difference_empty_L, size_list_to_set by done. lia. }
  exists out, st. split; [done |].
  destruct (print_dag_labels_fresh _ _ _ _ _ _ _ _ _ _ _ Hrun)
    as (t & Ht & _ & _ & Hv & _); [set_solver |].
  simpl in Ht, Hv. by rewrite Ht, Hv, union_empty_r_L.
Qed.

Lemma print_dag_from_labels_reachable (py_str : pyval → string) (g : nx.DiGraph)
    (start : string) (out : outcome) (st : pstate) :
  print_dag_from py_str g start None = Some (out, st) →
  p_visited st = list_to_set (emitted (p_trace st)) →
  (∀ x, x ∈ emitted (p_trace st) → reaches g start x) ∧
  (out = Returned → ∀ x, reaches g start x → x ∈ emitted (p_trace st)).
Proof.
  intros Hrun Hv.
  destruct (print_dag_labels_tree _ _ _ _ _ _ _ _ _ _ _ Hrun) as (t & Ht & _ & Hlim).
  simpl in Ht. split; [by rewrite Ht |].
  intros Hout x Hreach.
  destruct (print_dag_expands_all _ _ _ _ _ _ _ _ _ _ Hrun Hout) as (Hstart & _ & Hclosed).
  assert (Hx : x ∈ p_visited st).
  { clear -Hstart Hclosed Hreach. induction Hreach as [| u x v Hedge _ IH]; [done |].
    apply IH. eapply Hclosed; [done | | done]. simpl. set_solver. }
  rewrite Hv in Hx. by apply elem_of_list_to_set in Hx.
Qed.

(** X1. Without a depth limit the forward traversal from [start] labels
    nodes reachable from [start] only, and when it returns it has labelled
    every node reachable from [start]. *)
Theorem forward_labels_exactly_the_reachable_nodes
    (py_str : pyval → string) (g : nx.DiGraph) (start : string) :
  nx.wf g →
  ∃ out st,
    print_dag_from py_str g start None = Some (out, st) ∧
    (∀ x, x ∈ emitted (p_trace st) → reaches g start x) ∧
    (out = Returned → ∀ x, reaches g start x → x ∈ emitted (p_trace st)).
Proof.
  intros Hwf.
  destruct (print_dag_from_returns py_str g start None Hwf) as (out & st & Hrun & Hv).
  exists out, st. split; [done |].
  by apply (print_dag_from_labels_reachable py_str g start out st).
Qed.

Lemma forward_labels_exactly_the_reachable_nodes_witness :
  nx.wf entered_cycle ∧
  ∃ out st,
    print_dag_from sample_str entered_cycle "A" None = Some (out, st) ∧
    (∀ x, x ∈ emitted (p_trace st) → reaches entered_cycle "A" x) ∧
    (out = Returned → ∀ x, reaches entered_cycle "A" x → x ∈ emitted (p_trace st)).
Proof.
  split; [compute_done |].
  apply (forward_labels_exactly_the_reachable_nodes sample_str entered_cycle "A").
  compute_done.
Defined.

(** X2. Whatever the depth limit, the forward traversal labels the start
    node first, and every other labelled node after a node that has an edge
    to it (a pre-order over the edges actually followed).  Otherwise the label
    of the start node could not be built: the walk raises and nothing at all
    is printed. *)
Theorem forward_labels_parents_first
    (py_str : pyval → string) (g : nx.DiGraph) (start : string) (max_depth : option Z) :
  nx.wf g →
  ∃ out st,
    print_dag_from py_str g start max_depth = Some (out, st) ∧
    ((∃ rest, emitted (p_trace st) = start :: rest) ∨ (p_trace st = [] ∧ out ≠ Returned)) ∧
    (∀ l1 x l2, emitted (p_trace st) = l1 ++ x :: l2 → l1 ≠ [] →
                ∃ u, u ∈ l1 ∧ nx.edge g u x).
Proof.
  intros Hwf.
  destruct (print_dag_from_returns py_str g start max_depth Hwf) as (out & st & Hrun & _).
  exists out, st. split; [done |].
  destruct (print_dag_labels_tree _ _ _ _ _ _ _ _ _ _ _ Hrun) as (t & Ht & Hshape & _).
  simpl in Ht. rewrite Ht.
  destruct Hshape as [[-> Hout] | (rest & Hrest & Hpred)].
  - split; [by right |]. intros l1 x l2 Heq. by destruct l1.
  - rewrite Hrest. split; [left; by eexists | done].
Qed.

Lemma forward_labels_parents_first_witness :
  nx.wf diamond ∧
  ∃ out st,
    print_dag_from sample_str diamond "A" (Some 1%Z) = Some (out, st) ∧
    ((∃ rest, emitted (p_trace st) = "A" :: rest) ∨ (p_trace st = [] ∧ out ≠ Returned)) ∧
    (∀ l1 x l2, emitted (p_trace st) = l1 ++ x :: l2 → l1 ≠ [] →
                ∃ u, u ∈ l1 ∧ nx.edge diamond u x).
Proof.
  split; [compute_done |].
  apply (forward_labels_parents_first sample_str diamond "A" (Some 1%Z)).
  compute_done.
Defined.

(** X3. Under a depth limit [m] the forward traversal labels only nodes
    that lie within [m] edges of the start node (within 0 edges, the start
    node alone, when [m] is 0 or negative). *)
Theorem forward_labels_within_depth_limit
    (py_str : pyval → string) (g : nx.DiGraph) (start : string) (m : Z) :
  nx.wf g →
  ∃ out st,
    print_dag_from py_str g start (Some m) = Some (out, st) ∧
    ∀ x, x ∈ emitted (p_trace st) → reach_within g (Z.to_nat m) start x.
Proof.
  intros Hwf.
  destruct (print_dag_from_returns py_str g start (Some m) Hwf) as (out & st & Hrun & _).
  exists out, st. split; [done |].
  destruct (print_dag_labels_tree _ _ _ _ _ _ _ _ _ _ _ Hrun) as (t & Ht & _ & Hlim).
  simpl in Ht. rewrite Ht. intros x Hx. specialize (Hlim x Hx).
  unfold within_limit in Hlim. by rewrite Z.sub_0_r in Hlim.
Qed.

Lemma forward_labels_within_depth_limit_witness :
  nx.wf entered_cycle ∧
  ∃ out st,
    print_dag_from sample_str entered_cycle "S" (Some 2%Z) = Some (out, st) ∧
    ∀ x, x ∈ emitted (p_trace st) → reach_within entered_cycle (Z.to_nat 2) "S" x.
Proof.
  split; [compute_done |].
  apply (forward_labels_within_depth_limit sample_str entered_cycle "S" 2%Z).
  compute_done.
Defined.

(** ** The reverse run: the lines it prints and the texts it records *)

(** X4. The reverse run prints one line per emitted node, in the order of
    emission, and each line is the label of its node after a prefix and a
    connector; the only other line ever printed is the notice that follows
    the writing of the artifact. *)
Theorem reverse_prints_one_label_per_emitted_node
    (py_str : pyval → string) (llm : nat → string → result string)
    (g : nx.DiGraph) (max_depth : option Z) (to_generate_code : bool) :
  nx.wf g →
  ∃ out st lines,
    print_dag_in_reverse py_str llm g max_depth to_generate_code = Some (out, st) ∧
    Forall2 (λ n line, ∃ prefix is_last label,
                         get_node_label py_str g n = Ok label ∧
                         line = prefix +:+ connector is_last +:+ label)
      (emitted (trace st)) lines ∧
    stdout (trace st)
      = lines ++ (if to_generate_code
                  then match out with Returned => [saved_notice] | Raised _ => [] end
                  else []).
Proof.
  intros Hwf.
  destruct (run_returns py_str llm g max_depth to_generate_code Hwf) as (out & st & Hrun).
  destruct (run_structure _ _ _ _ _ _ _ _ Hrun) as (st0 & Hchain & Hcases).
  apply sweep_events_faithful in Hchain as (t & Ht & Hev & _).
  simpl in Ht. exists out, st, (stdout t). split; [done |].
  pose proof (walk_events_stdout py_str g t Hev) as Hlines.
  destruct Hcases as [(-> & -> & ->) | [(-> & -> & ->) | ([e ->] & ->)]].
  - unfold save_generated_code. simpl.
    rewrite Ht, <- app_assoc, emitted_app, stdout_app. simpl.
    by rewrite app_nil_r.
  - rewrite Ht. simpl. by rewrite app_nil_r.
  - rewrite Ht. split; [done |]. destruct to_generate_code; by rewrite app_nil_r.
Qed.

Lemma reverse_prints_one_label_per_emitted_node_witness :
  nx.wf diamond ∧
  ∃ out st lines,
    print_dag_in_reverse sample_str sample_llm diamond (Some 2%Z) true = Some (out, st) ∧
    Forall2 (λ n line, ∃ prefix is_last label,
                         get_node_label sample_str diamond n = Ok label ∧
                         line = prefix +:+ connector is_last +:+ label)
      (emitted (trace st)) lines ∧
    stdout (trace st)
      = lines ++ match out with Returned => [saved_notice] | Raised _ => [] end.
Proof.
  split; [compute_done |].
  apply (reverse_prints_one_label_per_emitted_node sample_str sample_llm diamond
           (Some 2%Z) true).
  compute_done.
Defined.

(** X5. With code generation requested, the text recorded for the [i]-th
    synthesised node is what [generate_code] returned for that node as
    request number [i] to the model, and that node is the [i]-th emitted
    node: the requests are made in emission order and numbered from 0. *)
Theorem synthesised_texts_are_the_model_answers
    (py_str : pyval → string) (llm : nat → string → result string)
    (g : nx.DiGraph) (max_depth : option Z) :
  nx.wf g →
  ∃ out st,
    print_dag_in_reverse py_str llm g max_depth true = Some (out, st) ∧
    llm_calls st = length (synthesized (trace st)) ∧
    ∀ i n text,
      synthesized (trace st) !! i = Some (n, text) →
      generate_code py_str llm i n g = Ok text ∧ emitted (trace st) !! i = Some n.
Proof.
  intros Hwf.
  destruct (run_returns py_str llm g max_depth true Hwf) as (out & st & Hrun).
  exists out, st. split; [done |].
  destruct (run_code _ _ _ _ _ _ _ Hrun) as (t' & _ & Hpre & _ & _ & Hcases').
  destruct (run_structure _ _ _ _ _ _ _ _ Hrun) as (st0 & Hchain & Hcases).
  apply sweep_events_faithful in Hchain as (t & Ht & _ & Hk & _ & Hgen).
  simpl in Ht, Hk, Hgen.
  assert (Hsame : synthesized (trace st) = synthesized t ∧
                  emitted (trace st) = emitted t ∧ llm_calls st = llm_calls st0 ∧
                  t' = t).
  { destruct Hcases as [(-> & _ & ->) | [(_ & ? & _) | ([e ->] & ->)]]; [| done |].
    - destruct Hcases' as [(_ & _ & Ht') | [(_ & ? & _) | ([e ?] & _)]]; [| done | done].
      unfold save_generated_code in *. simpl in *.
      rewrite Ht, <- app_assoc in Ht'. simpl in Ht'.
      assert (t' = t) as ->.
      { apply (f_equal (λ l, take (length l - 2) l)) in Ht'.
        rewrite !length_app in Ht'. simpl in Ht'.
        rewrite !take_app_length' in Ht' by lia. done. }
      rewrite Ht, <- app_assoc, synthesized_app, emitted_app. simpl.
      by rewrite !app_nil_r.
    - destruct Hcases' as [(? & _) | [(_ & ? & _) | (_ & Ht')]]; [done | done |].
      rewrite Ht in Ht'. by rewrite Ht. }
  destruct Hsame as (Hs & He & Hk' & ->). rewrite Hs, He, Hk'.
  split; [done |].
  intros i n text Hi. split; [by apply Hgen |].
  destruct Hpre as [rest Hrest]. rewrite Hrest.
  apply lookup_app_l_Some. rewrite list_lookup_fmap, Hi. done.
Qed.

Lemma synthesised_texts_are_the_model_answers_witness :
  nx.wf diamond ∧
  ∃ out st,
    print_dag_in_reverse sample_str sample_llm diamond None true = Some (out, st) ∧
    llm_calls st = length (synthesized (trace st)) ∧
    ∀ i n text,
      synthesized (trace st) !! i = Some (n, text) →
      generate_code sample_str sample_llm i n diamond = Ok text ∧
      emitted (trace st) !! i = Some n.
Proof.
  split; [compute_done |].
  apply (synthesised_texts_are_the_model_answers sample_str sample_llm diamond None).
  compute_done.
Defined.

(** ** The reverse run under a depth limit *)

Section ReverseDepth.

Context (py_str : pyval → string) (llm : nat → string → result string).
Context (g : nx.DiGraph) (max_depth : option Z) (to_generate_code : bool).

Local Abbreviation walk fuel :=
  (_print_dag_recursive py_str llm fuel g max_depth to_generate_code).

(** Induction over the calls of the reverse walk, keeping track of the depth. *)
Section WalkInductionAt.

Variable P : string → Z → rstate → outcome → rstate → Prop.

Definition P_call_at (depth : Z) (n : string) (st : rstate) (out : outcome)
    (st' : rstate) : Prop :=
  P n depth st out st' ∧ walks py_str llm g max_depth to_generate_code n st out st'.

Hypothesis P_processed : ∀ n depth st,
  n ∈ fully_processed st → P n depth st Returned st.

Hypothesis P_cycle : ∀ n depth st,
  n ∉ fully_processed st → n ∈ visited st → P n depth st Returned (r_log (ECycle n) st).

Hypothesis P_depth : ∀ n depth st,
  n ∉ fully_processed st → n ∉ visited st →
  depth_limit_reached max_depth depth = true → P n depth st Returned st.

Hypothesis P_successors : ∀ n depth st e,
  n ∉ fully_processed st → n ∉ visited st → nx.successors g n = Raise e →
  P n depth st (Raised e) (enter n st).

Hypothesis P_child_raised : ∀ n depth st children e st',
  n ∉ fully_processed st → n ∉ visited st →
  depth_limit_reached max_depth depth = false →
  nx.successors g n = Ok children →
  chain (P_call_at (depth + 1)) children (enter n st) (Raised e) st' →
  P n depth st (Raised e) st'.

Hypothesis P_emit : ∀ n depth st children st2 prefix is_last out st',
  n ∉ fully_processed st → n ∉ visited st →
  depth_limit_reached max_depth depth = false →
  nx.successors g n = Ok children →
  chain (P_call_at (depth + 1)) children (enter n st) Returned st2 →
  visited st2 = {[n]} ∪ visited st →
  emit_node py_str llm g to_generate_code n prefix is_last st2 = (out, st') →
  P n depth st out st'.

Lemma walk_ind_at (fuel : nat) (n prefix : string) (is_last : bool) (depth : Z)
    (st : rstate) (out : outcome) (st' : rstate) :
  walk fuel n prefix is_last depth st = Some (out, st') → P n depth st out st'.
Proof.
  revert n prefix is_last depth st out st'.
  induction fuel as [| fuel IH]; intros n prefix is_last depth st out st' Hwalk; [done |].
  rewrite walk_unfold in Hwalk.
  case_decide as Hfp; [injection Hwalk as <- <-; by apply P_processed |].
  case_decide as Hvis; [injection Hwalk as <- <-; by apply P_cycle |].
  destruct (depth_limit_reached max_depth depth) eqn:Hdepth.
  { rewrite enter_leave in Hwalk by done. injection Hwalk as <- <-. by apply P_depth. }
  destruct (nx.successors g n) as [children | e] eqn:Hsucc;
    [| injection Hwalk as <- <-; by apply P_successors].
  destruct (for_enumerate _ _ _ _) as [[[| e] st2] |] eqn:Hloop; [| | done].
  - apply for_enumerate_chain with (P := P_call_at (depth + 1)) in Hloop.
    2: { intros i x s o s' _ Hx. split; [by eapply IH |]. by eexists _, _, _, _. }
    injection Hwalk as Hemit.
    eapply P_emit; [done | done | done | done | exact Hloop | | exact Hemit].
    apply (chain_visited children (enter n st) Returned); [| done].
    eapply chain_impl; [| exact Hloop]. simpl.
    intros x s o s' _ [_ Hw] ->. by apply walks_restores_visited in Hw.
  - apply for_enumerate_chain with (P := P_call_at (depth + 1)) in Hloop.
    2: { intros i x s o s' _ Hx. split; [by eapply IH |]. by eexists _, _, _, _. }
    injection Hwalk as <- <-. by eapply P_child_raised.
Qed.

End WalkInductionAt.

(** The nodes a call at [depth] emits lie below the depth limit: fewer than
    [m - depth] edges from the node of the call. *)
Definition below_limit (depth : Z) (n x : string) : Prop :=
  ∀ m, max_depth = Some m →
       (depth < m)%Z ∧ reach_within g (Z.to_nat (m - depth - 1)) n x.

Definition emits_below_limit (n : string) (depth : Z) (st : rstate) (out : outcome)
    (st' : rstate) : Prop :=
  (∃ t, trace st' = trace st ++ t ∧ ∀ x, x ∈ emitted t → below_limit depth n x) ∧
  (out = Returned → depth_limit_reached max_depth depth = false → n ∉ visited st →
   n ∈ fully_processed st').

Lemma below_limit_child (depth : Z) (n c x : string) :
  nx.edge g n c → below_limit (depth + 1) c x → below_limit depth n x.
Proof.
  intros Hedge Hc m Hm. destruct (Hc m Hm) as [Hlt Hreach]. split; [lia |].
  replace (Z.to_nat (m - depth - 1)) with (S (Z.to_nat (m - (depth + 1) - 1))) by lia.
  by eapply reach_step.
Qed.

Lemma below_limit_here (depth : Z) (n : string) :
  depth_limit_reached max_depth depth = false → below_limit depth n n.
Proof.
  unfold depth_limit_reached. intros Hlimit m Hm. rewrite Hm in Hlimit.
  apply Z.leb_gt in Hlimit. split; [done | constructor].
Qed.

Lemma emits_below_limit_chain (n : string) (depth : Z) (items : list string)
    (st : rstate) (out : outcome) (st' : rstate) :
  (∀ c, c ∈ items → nx.edge g n c) →
  chain (P_call_at emits_below_limit (depth + 1)) items st out st' →
  ∃ t, trace st' = trace st ++ t ∧ ∀ x, x ∈ emitted t → below_limit depth n x.
Proof.
  intros Hitems Hchain.
  induction Hchain as [st | c rest st e st' [[Hc _] _]
                       | c rest st st1 out st' [[Hc _] _] Hrest IH].
  - exists []. rewrite app_nil_r. split; [done |].
    intros x Hx. by apply not_elem_of_nil in Hx.
  - destruct Hc as (t & Ht & Hlim). exists t. split; [done |].
    intros x Hx. eapply below_limit_child; [| by apply Hlim].
    apply Hitems, list_elem_of_here.
  - destruct Hc as (t1 & Ht1 & Hlim1). destruct IH as (t2 & Ht2 & Hlim2).
    { intros c' Hc'. by apply Hitems, list_elem_of_further. }
    exists (t1 ++ t2). split; [by rewrite Ht2, Ht1, app_assoc |].
    intros x. rewrite emitted_app. intros [Hx | Hx]%elem_of_app; [| by apply Hlim2].
    eapply below_limit_child; [| by apply Hlim1]. apply Hitems, list_elem_of_here.
Qed.

Lemma walk_emits_below_limit (fuel : nat) (n prefix : string) (is_last : bool)
    (depth : Z) (st : rstate) (out : outcome) (st' : rstate) :
  walk fuel n prefix is_last depth st = Some (out, st') →
  emits_below_limit n depth st out st'.
Proof.
  apply (walk_ind_at emits_below_limit); clear.
  - intros n depth st Hn. split; [| done]. exists []. rewrite app_nil_r.
    split; [done |]. intros x Hx. by apply not_elem_of_nil in Hx.
  - intros n depth st _ Hn. split; [| done]. exists [ECycle n].
    split; [done |]. intros x Hx. by apply not_elem_of_nil in Hx.
  - intros n depth st _ _ Hlimit. split; [| congruence]. exists []. rewrite app_nil_r.
    split; [done |]. intros x Hx. by apply not_elem_of_nil in Hx.
  - intros n depth st e _ _ _. split; [| done]. exists []. simpl. rewrite app_nil_r.
    split; [done |]. intros x Hx. by apply not_elem_of_nil in Hx.
  - intros n depth st children e st' _ _ _ Hsucc Hchain. split; [| done].
    apply successors_inv in Hsucc as ->.
    apply (emits_below_limit_chain n) in Hchain;
      [done | by intros c Hc%elem_of_out_edges].
  - intros n depth st children st2 prefix is_last out st' Hfp Hvis Hlimit Hsucc
      Hchain Hv2 Hemit.
    apply successors_inv in Hsucc as ->.
    apply (emits_below_limit_chain n) in Hchain as (t & Ht & Hlim);
      [| by intros c Hc%elem_of_out_edges].
    simpl in Ht.
    assert (Hin : n ∈ visited st2) by (rewrite Hv2; set_solver).
    destruct (emit_node_cases _ _ _ _ _ _ _ _ _ _ Hemit Hin)
      as [[-> (line & _ & Hfp' & Htrace)] | (e & -> & _ & _ & _ & Htrace)].
    + split; [| intros _ _ _; rewrite Hfp'; set_solver].
      assert (∃ t', trace st' = trace st2 ++ t' ∧ emitted t' = [n]) as (t' & Ht' & Hem).
      { destruct Htrace as [(_ & -> & _) | (_ & text & -> & _)]; by eexists. }
      exists (t ++ t'). split; [by rewrite Ht', Ht, app_assoc |].
      intros x. rewrite emitted_app, Hem.
      intros [Hx | ->%list_elem_of_singleton]%elem_of_app;
        [by apply Hlim | by apply below_limit_here].
    + split; [| done].
      assert (∃ t', trace st' = trace st2 ++ t' ∧ (emitted t' = [] ∨ emitted t' = [n]))
        as (t' & Ht' & Hem).
      { destruct Htrace as [-> | (line & ->)]; [exists [] | eexists]; split;
          [by rewrite app_nil_r | by left | done | by right]. }
      exists (t ++ t'). split; [by rewrite Ht', Ht, app_assoc |].
      intros x. rewrite emitted_app. intros [Hx | Hx]%elem_of_app; [by apply Hlim |].
      destruct Hem as [Hem | Hem]; rewrite Hem in Hx;
        [by apply not_elem_of_nil in Hx |].
      apply list_elem_of_singleton in Hx as ->. by apply below_limit_here.
Qed.

End ReverseDepth.

Section ReverseDepthRun.

Context (py_str : pyval → string) (llm : nat → string → result string).
Context (g : nx.DiGraph) (max_depth : option Z) (to_generate_code : bool).

(** The walk started at a source, at depth 0 with an empty active path. *)
Definition source_walk_top (s : string) (st : rstate) (out : outcome) (st' : rstate)
    : Prop :=
  ∃ fuel prefix is_last,
    _print_dag_recursive py_str llm fuel g max_depth to_generate_code
      s prefix is_last 0%Z (set_visited ∅ st) = Some (out, st').

Lemma source_walk_top_walk (s : string) (st : rstate) (out : outcome) (st' : rstate) :
  source_walk_top s st out st' →
  source_walk py_str llm g max_depth to_generate_code s st out st'.
Proof. intros (fuel & prefix & is_last & Hwalk). by eexists _, _, _, _. Qed.

Lemma run_structure_top (fuel : nat) (out : outcome) (st : rstate) :
  print_dag_in_reverse_with py_str llm fuel g max_depth to_generate_code = Some (out, st) →
  ∃ st0, chain source_walk_top (source_nodes g) initial_rstate out st0 ∧
         emitted (trace st) = emitted (trace st0).
Proof.
  unfold print_dag_in_reverse_with. intros Hrun.
  destruct (for_enumerate _ _ _ _) as [[[| e] st0] |] eqn:Hloop; [| | done].
  - apply for_enumerate_chain with (P := source_walk_top) in Hloop.
    2: { intros i x s o s' _ Hx. by eexists _, _, _. }
    exists st0. split; [| destruct to_generate_code; injection Hrun as <- <-];
      [by destruct to_generate_code; injection Hrun as <- _
      | apply emitted_save_generated_code | done].
  - apply for_enumerate_chain with (P := source_walk_top) in Hloop.
    2: { intros i x s o s' _ Hx. by eexists _, _, _. }
    injection Hrun as <- <-. by exists st0.
Qed.

Lemma sweep_below_limit (items : list string) (st : rstate) (out : outcome)
    (st' : rstate) :
  chain source_walk_top items st out st' →
  (∃ t, trace st' = trace st ++ t ∧
        ∀ x, x ∈ emitted t → ∃ s, s ∈ items ∧ below_limit g max_depth 0 s x) ∧
  (out = Returned → depth_limit_reached max_depth 0 = false →
   ∀ s, s ∈ items → s ∈ fully_processed st').
Proof.
  intros Hchain.
  induction Hchain as [st | s rest st e st' Hs | s rest st st1 out st' Hs Hrest IH].
  - split.
    + exists []. rewrite app_nil_r. split; [done |].
      intros x Hx. by apply not_elem_of_nil in Hx.
    + intros _ _ s Hs. by apply not_elem_of_nil in Hs.
  - split; [| done]. destruct Hs as (fuel & prefix & is_last & Hwalk).
    apply walk_emits_below_limit in Hwalk as [(t & Ht & Hlim) _].
    exists t. split; [done |]. intros x Hx. exists s.
    split; [apply list_elem_of_here | by apply Hlim].
  - assert (Hmono : fully_processed st1 ⊆ fully_processed st').
    { clear -Hrest. induction Hrest as [| ? ? ? ? ? Hw | ? ? ? ? ? ? Hw ? IH]; [done | |].
      - apply source_walk_top_walk in Hw. by apply walks_processed_mono in Hw.
      - apply source_walk_top_walk in Hw. apply walks_processed_mono in Hw.
        simpl in Hw. set_solver. }
    destruct Hs as (fuel & prefix & is_last & Hwalk).
    apply walk_emits_below_limit in Hwalk as [(t1 & Ht1 & Hlim1) Hroot].
    destruct IH as [(t2 & Ht2 & Hlim2) Hroots]. split.
    + exists (t1 ++ t2). split; [by rewrite Ht2, Ht1, app_assoc |].
      intros x. rewrite emitted_app. intros [Hx | Hx]%elem_of_app.
      * exists s. split; [apply list_elem_of_here | by apply Hlim1].
      * destruct (Hlim2 x Hx) as (s' & Hs' & ?). exists s'.
        split; [by apply list_elem_of_further | done].
    + intros Hout Hlimit s' [-> | Hs']%elem_of_cons; [| by apply Hroots].
      apply Hmono, Hroot; [done | done | simpl; set_solver].
Qed.

End ReverseDepthRun.

(** X6. Under a depth limit [m] the reverse traversal still emits no node
    twice, and it emits only nodes that lie fewer than [m] edges below a
    source (nothing at all when [m] is 0 or negative).  When [m] is positive
    and the run returns, every source is emitted, whether or not its
    successors were. *)
Theorem reverse_under_depth_limit
    (py_str : pyval → string) (llm : nat → string → result string)
    (g : nx.DiGraph) (m : Z) (to_generate_code : bool) :
  nx.wf g →
  ∃ out st,
    print_dag_in_reverse py_str llm g (Some m) to_generate_code = Some (out, st) ∧
    NoDup (emitted (trace st)) ∧
    (∀ x, x ∈ emitted (trace st) →
          (0 < m)%Z ∧ ∃ s, is_source g s ∧ reach_within g (Z.to_nat (m - 1)) s x) ∧
    (out = Returned → (0 < m)%Z → ∀ s, is_source g s → s ∈ emitted (trace st)).
Proof.
  intros Hwf.
  destruct (run_returns py_str llm g (Some m) to_generate_code Hwf) as (out & st & Hrun).
  exists out, st. split; [done |].
  split; [by eapply run_emitted_once |].
  destruct (run_structure_top _ _ _ _ _ _ _ _ Hrun) as (st0 & Hchain & ->).
  destruct (sweep_below_limit _ _ _ _ _ _ _ _ _ Hchain) as [(t & Ht & Hlim) Hroots].
  simpl in Ht. split.
  - intros x Hx. rewrite Ht in Hx. destruct (Hlim x Hx) as (s & Hs & Hbelow).
    destruct (Hbelow m eq_refl) as [Hpos Hreach]. split; [done |].
    exists s. split; [by apply elem_of_source_nodes |].
    by replace (m - 1)%Z with (m - 0 - 1)%Z by lia.
  - intros Hout Hpos s Hs.
    assert (Hcons : consistent st0).
    { eapply chain_impl in Hchain; [| intros ? ? ? ? _; apply source_walk_top_walk].
      by destruct (sweep_emits_fresh _ _ _ _ _ _ _ _ _ Hchain initial_consistent)
        as (_ & _ & [? _]). }
    apply Hcons, Hroots; [done | | by apply elem_of_source_nodes].
    simpl. by apply Z.leb_gt.
Qed.

Lemma reverse_under_depth_limit_witness :
  nx.wf diamond ∧
  ∃ out st,
    print_dag_in_reverse sample_str sample_llm diamond (Some 2%Z) false = Some (out, st) ∧
    NoDup (emitted (trace st)) ∧
    (∀ x, x ∈ emitted (trace st) →
          (0 < 2)%Z ∧
          ∃ s, is_source diamond s ∧ reach_within diamond (Z.to_nat (2 - 1)) s x) ∧
    (out = Returned → (0 < 2)%Z → ∀ s, is_source diamond s → s ∈ emitted (trace st)).
Proof.
  split; [compute_done |].
  apply (reverse_under_depth_limit sample_str sample_llm diamond 2%Z false).
  compute_done.
Defined.

(** ** The synthesis step and the labels *)

(** X7. The two labellings and the synthesis step fail together: on any
    node [print_dag]'s label raises an exception exactly when
    [get_node_label] raises it, and then [generate_code] raises the same
    exception without consulting the model.  When the label of a node can be
    built, [generate_code] either raises [TypeError] (the response has no
    length) or returns whatever the model answers to one request. *)
Theorem labels_and_synthesis_fail_together
    (py_str : pyval → string) (llm : nat → string → result string)
    (k : nat) (g : nx.DiGraph) (n : string) :
  (∀ e new_prefix,
     print_dag_label py_str g n new_prefix = Raise e ↔
     get_node_label py_str g n = Raise e) ∧
  (∀ e, get_node_label py_str g n = Raise e →
        generate_code py_str llm k n g = Raise e) ∧
  (∀ label, get_node_label py_str g n = Ok label →
            (∃ msg, generate_code py_str llm k n g = Raise (TypeError msg)) ∨
            (∃ request, generate_code py_str llm k n g = llm k request)).
Proof.
  unfold print_dag_label, get_node_label, generate_code.
  destruct (nx.getitem g n) as [attrs | e0]; simpl.
  2: { split_and!; [done | done | done]. }
  destruct (dict_get attrs "content" (PStr "")) as [| s | l | c]; simpl;
    try (split_and!; [done | done | done]).
  split_and!; [done | done |]. intros label _.
  destruct (dict_get c "value" (PStr "")) as [| s | l | d]; simpl;
    [left; by eexists | right; by eexists ..].
Qed.

(** The same character repeated: a response of any wanted length. *)
Definition long_response (character : string) (length : positive) : string :=
  Pos.iter (String.append character) EmptyString length.

(** The letter e with an acute accent: one character, two bytes. *)
Definition e_acute : string := String "195"%char (String "169"%char EmptyString).

Definition long_node (response : string) (extracted_parts : pyval) : Py.dict :=
  [("node_type", PStr "cURL");
   ("content", PDict [("key", PStr "curl a"); ("value", PStr response)]);
   ("dynamic_parts", PList []);
   ("extracted_parts", extracted_parts);
   ("input_variables", PList [])].

Definition long_graph (response : string) (extracted_parts : pyval) : nx.DiGraph :=
  {| nx.node_data := [("A", long_node response extracted_parts)]; nx.edge_list := [] |}.

(** X8. When the response of a node is a string of more than 800000
    characters, the request [generate_code] sends to the model contains
    neither the response nor the names of the parts to extract: it is the
    prompt built from the request signature, the dynamic parts and the input
    variables alone, with the fixed line that names [{extracted_parts}]
    literally.  A response of at most 800000 characters is sent in full with
    the parts to extract, however many bytes its characters take. *)
Theorem long_response_is_left_out_of_the_prompt
    (py_str : pyval → string) (llm : nat → string → result string)
    (k : nat) (g : nx.DiGraph) (n : string) (attrs content : Py.dict)
    (response : string) :
  nx.getitem g n = Ok attrs →
  Py.lookup "content" attrs = Some (PDict content) →
  Py.lookup "value" content = Some (PStr response) →
  ((800000 < Z.of_nat (Py.code_points response))%Z →
   generate_code py_str llm k n g
     = llm k (prompt py_str (dict_get content "key" (PStr "")) PNone
                (dict_get attrs "dynamic_parts" (PStr "")) PNone
                (dict_get attrs "input_variables" (PStr "")) false)) ∧
  ((Z.of_nat (Py.code_points response) ≤ 800000)%Z →
   generate_code py_str llm k n g
     = llm k (prompt py_str (dict_get content "key" (PStr "")) (PStr response)
                (dict_get attrs "dynamic_parts" (PStr ""))
                (dict_get attrs "extracted_parts" (PStr ""))
                (dict_get attrs "input_variables" (PStr "")) true)).
Proof.
  intros Hattrs Hcontent Hvalue.
  assert (Hc : dict_get attrs "content" (PStr "") = PDict content)
    by (unfold dict_get; by rewrite Hcontent).
  assert (Hv : dict_get content "value" (PStr "") = PStr response)
    by (unfold dict_get; by rewrite Hvalue).
  unfold generate_code. rewrite Hattrs. simpl. rewrite Hc. simpl. rewrite Hv. simpl.
  split; intros Hlen.
  - by rewrite (proj2 (Z.ltb_lt _ _) Hlen).
  - by rewrite (proj2 (Z.ltb_ge _ _) Hlen).
Qed.

Lemma long_response_is_left_out_of_the_prompt_witness :
  ((800000 < Z.of_nat (Py.code_points (long_response e_acute 800001)))%Z ∧
   generate_code sample_str sample_llm 0 "A"
       (long_graph (long_response e_acute 800001) (PList [PStr "token"]))
     = sample_llm 0
         (prompt sample_str (PStr "curl a") PNone (PList []) PNone (PList []) false)) ∧
  ((800000 < Z.of_nat (String.length (long_response e_acute 400001)))%Z ∧
   (Z.of_nat (Py.code_points (long_response e_acute 400001)) ≤ 800000)%Z ∧
   generate_code sample_str sample_llm 0 "A"
       (long_graph (long_response e_acute 400001) (PList [PStr "token"]))
     = sample_llm 0
         (prompt sample_str (PStr "curl a") (PStr (long_response e_acute 400001))
            (PList []) (PList [PStr "token"]) (PList []) true)).
Proof.
  assert (Hlong : (800000 < Z.of_nat (Py.code_points (long_response e_acute 800001)))%Z)
    by (vm_compute; reflexivity).
  assert (Hbytes : (800000 < Z.of_nat (String.length (long_response e_acute 400001)))%Z)
    by (vm_compute; reflexivity).
  assert (Hshort : (Z.of_nat (Py.code_points (long_response e_acute 400001)) ≤ 800000)%Z)
    by (vm_compute; discriminate).
  split_and!; [exact Hlong | | exact Hbytes | exact Hshort |].
  - exact (proj1 (long_response_is_left_out_of_the_prompt sample_str sample_llm 0
                    (long_graph (long_response e_acute 800001) (PList [PStr "token"])) "A"
                    (long_node (long_response e_acute 800001) (PList [PStr "token"]))
                    [("key", PStr "curl a"); ("value", PStr (long_response e_acute 800001))]
                    (long_response e_acute 800001) eq_refl eq_refl eq_refl) Hlong).
  - exact (proj2 (long_response_is_left_out_of_the_prompt sample_str sample_llm 0
                    (long_graph (long_response e_acute 400001) (PList [PStr "token"])) "A"
                    (long_node (long_response e_acute 400001) (PList [PStr "token"]))
                    [("key", PStr "curl a"); ("value", PStr (long_response e_acute 400001))]
                    (long_response e_acute 400001) eq_refl eq_refl eq_refl) Hshort).
Defined.

(** ** The reverse run and the model *)

Lemma for_enumerate_ext {S : Type} (body body' : Z → string → S → option (outcome * S))
    (items : list string) :
  (∀ i x st, body i x st = body' i x st) →
  ∀ i st, for_enumerate body i items st = for_enumerate body' i items st.
Proof.
  intros Hext. induction items as [| x rest IH]; intros i st; simpl; [done |].
  rewrite Hext. destruct (body' i x st) as [[[| e] st1] |]; [apply IH | done | done].
Qed.

Lemma walk_without_synthesis (py_str : pyval → string)
    (llm llm' : nat → string → result string) (g : nx.DiGraph) (max_depth : option Z)
    (fuel : nat) (n prefix : string) (is_last : bool) (depth : Z) (st : rstate) :
  _print_dag_recursive py_str llm fuel g max_depth false n prefix is_last depth st
  = _print_dag_recursive py_str llm' fuel g max_depth false n prefix is_last depth st.
Proof.
  revert n prefix is_last depth st.
  induction fuel as [| fuel IH]; intros n prefix is_last depth st; [done |].
  rewrite !walk_unfold.
  case_decide; [done |]. case_decide; [done |].
  destruct (depth_limit_reached max_depth depth); [done |].
  destruct (nx.successors g n) as [children | e]; [| done].
  rewrite (for_enumerate_ext _
             (λ i child_id st0,
                _print_dag_recursive py_str llm' fuel g max_depth false child_id
                  (prefix +:+ indent is_last)
                  (i =? Z.of_nat (length children) - 1)%Z (depth + 1)%Z st0));
    [| intros; apply IH].
  by destruct (for_enumerate _ _ _ _) as [[[| e] st2] |].
Qed.

(** X9. Without code generation the reverse run never consults the model:
    its whole result is the same whatever the model is, no request is counted
    and no file is written. *)
Theorem reverse_run_without_synthesis_ignores_the_model
    (py_str : pyval → string) (llm llm' : nat → string → result string)
    (g : nx.DiGraph) (max_depth : option Z) :
  print_dag_in_reverse py_str llm g max_depth false
  = print_dag_in_reverse py_str llm' g max_depth false ∧
  ∀ out st,
    print_dag_in_reverse py_str llm g max_depth false = Some (out, st) →
    llm_calls st = 0 ∧ synthesized (trace st) = [] ∧ writes (trace st) = [] ∧
    generated_code st = "".
Proof.
  split.
  - unfold print_dag_in_reverse, print_dag_in_reverse_with.
    rewrite (for_enumerate_ext _
               (λ idx source_node st,
                  _print_dag_recursive py_str llm' (S (length (nx.nodes g))) g max_depth false
                    source_node ""
                    (idx =? Z.of_nat (length (source_nodes g)) - 1)%Z 0%Z
                    (set_visited ∅ st))); [done |].
    intros. apply walk_without_synthesis.
  - intros out st Hrun.
    destruct (run_code _ _ _ _ _ _ _ Hrun) as (t & Hw & _ & _ & Hnone & Hcases).
    unfold print_dag_in_reverse in Hrun.
    destruct (run_structure _ _ _ _ _ _ _ _ Hrun) as (st0 & Hchain & Hcases0).
    pose proof (sweep_code_follows _ _ _ _ _ _ _ _ _ Hchain)
      as (t0 & Ht0 & _ & Hcode & _ & _ & Hnone0).
    apply sweep_events_faithful in Hchain as (t1 & Ht1 & _ & Hk & Hnone1 & _).
    simpl in Ht0, Ht1, Hk, Hcode.
    assert (st = st0) as ->.
    { by destruct Hcases0 as [(_ & ? & _) | [(_ & _ & ->) | (_ & ->)]]. }
    assert (trace st0 = t) as Ht.
    { by destruct Hcases as [(_ & ? & _) | [(_ & _ & ->) | (_ & ->)]]. }
    rewrite Hk, Hnone1, Hcode, Hnone0, Ht, Hw, Hnone by done. done.
Qed.

Lemma reverse_run_without_synthesis_ignores_the_model_witness :
  ∃ st,
    print_dag_in_reverse sample_str sample_llm diamond None false = Some (Returned, st) ∧
    llm_calls st = 0 ∧ synthesized (trace st) = [] ∧ writes (trace st) = [] ∧
    generated_code st = "".
Proof.
  eexists. split; [vm_compute; reflexivity |].
  apply (proj2 (reverse_run_without_synthesis_ignores_the_model
                  sample_str sample_llm sample_llm diamond None) Returned).
  vm_compute. reflexivity.
Defined.

(** ** Code generation does not change the traversal *)

Section SynthesisAside.

Context (py_str : pyval → string) (llm llm' : nat → string → result string).
Context (g : nx.DiGraph) (max_depth : option Z).

(** Two states that differ by the synthesis only. *)
Definition same_walk (st1 st2 : rstate) : Prop :=
  visited st1 = visited st2 ∧ fully_processed st1 = fully_processed st2 ∧
  emitted (trace st1) = emitted (trace st2) ∧ stdout (trace st1) = stdout (trace st2).

Lemma for_enumerate_same_walk (body1 body2 : Z → string → rstate → option (outcome * rstate))
    (items : list string) :
  (∀ i x s1 s1' s2, body1 i x s1 = Some (Returned, s1') → same_walk s1 s2 →
                    ∃ s2', body2 i x s2 = Some (Returned, s2') ∧ same_walk s1' s2') →
  ∀ i s1 s1' s2,
    for_enumerate body1 i items s1 = Some (Returned, s1') → same_walk s1 s2 →
    ∃ s2', for_enumerate body2 i items s2 = Some (Returned, s2') ∧ same_walk s1' s2'.
Proof.
  intros Hbody. induction items as [| x rest IH]; intros i s1 s1' s2 Hrun Hsim; simpl in *.
  - injection Hrun as <-. by exists s2.
  - destruct (body1 i x s1) as [[[| e] s1m] |] eqn:Hx; [| done | done].
    destruct (Hbody _ _ _ _ _ Hx Hsim) as (s2m & -> & Hsim'). by eapply IH.
Qed.

Lemma same_walk_log (e : event) (st1 st2 : rstate) :
  label_node e = None → stdout_line e = None →
  same_walk st1 st2 → same_walk (r_log e st1) st2.
Proof.
  intros He Hs (Hv & Hfp & Hem & Hout). unfold same_walk, emitted, stdout. simpl.
  rewrite !omap_app. simpl. rewrite He, Hs. simpl. rewrite !app_nil_r. done.
Qed.

Lemma emit_same_walk (n prefix : string) (is_last : bool) (st1 st1' st2 : rstate) :
  emit_node py_str llm g true n prefix is_last st1 = (Returned, st1') →
  same_walk st1 st2 →
  ∃ st2', emit_node py_str llm' g false n prefix is_last st2 = (Returned, st2') ∧
          same_walk st1' st2'.
Proof.
  unfold emit_node. intros Hemit (Hv & Hfp & Hem & Hout).
  destruct (get_node_label py_str g n) as [label | e]; [| done].
  simpl in Hemit.
  destruct (generate_code py_str llm (llm_calls st1) n g) as [text | e]; [| done].
  unfold visited_remove in *. simpl in *. rewrite <- Hv.
  case_decide; [| done]. injection Hemit as <-. eexists. split; [done |].
  unfold same_walk, emitted, stdout in *. simpl. rewrite !omap_app, Hv, Hfp, Hem, Hout.
  simpl. by rewrite !app_nil_r.
Qed.

Lemma walk_same_walk (fuel : nat) (n prefix : string) (is_last : bool) (depth : Z)
    (st1 st1' st2 : rstate) :
  _print_dag_recursive py_str llm fuel g max_depth true n prefix is_last depth st1
    = Some (Returned, st1') →
  same_walk st1 st2 →
  ∃ st2',
    _print_dag_recursive py_str llm' fuel g max_depth false n prefix is_last depth st2
      = Some (Returned, st2') ∧
    same_walk st1' st2'.
Proof.
  revert n prefix is_last depth st1 st1' st2.
  induction fuel as [| fuel IH]; intros n prefix is_last depth st1 st1' st2 Hwalk Hsim;
    [done |].
  rewrite walk_unfold in *. pose proof Hsim as (Hv & Hfp & Hem & Hout).
  rewrite <- Hfp, <- Hv.
  case_decide; [injection Hwalk as <-; by exists st2 |].
  case_decide.
  { injection Hwalk as <-. eexists. split; [done |].
    apply same_walk_log; [done | done |].
    destruct (same_walk_log (ECycle n) st2 st1) as (? & ? & ? & ?); [done | done | |].
    - by split_and!.
    - by split_and!. }
  destruct (depth_limit_reached max_depth depth).
  { rewrite enter_leave in * by (by rewrite <- ?Hv). injection Hwalk as <-. by exists st2. }
  destruct (nx.successors g n) as [children | e]; [| done].
  destruct (for_enumerate _ _ _ _) as [[[| e] st1m] |] eqn:Hloop in Hwalk; [| done | done].
  injection Hwalk as Hemit.
  eapply (for_enumerate_same_walk _
            (λ i child_id st0,
               _print_dag_recursive py_str llm' fuel g max_depth false child_id
                 (prefix +:+ indent is_last)
                 (i =? Z.of_nat (length children) - 1)%Z (depth + 1)%Z st0))
    with (s2 := enter n st2) in Hloop as (st2m & -> & Hsim_m).
  - destruct (emit_same_walk _ _ _ _ _ _ Hemit Hsim_m) as (st2' & Hemit' & Hsim').
    exists st2'. by rewrite Hemit'.
  - intros i x s1 s1' s2 Hx Hs. by eapply IH.
  - unfold same_walk, enter. simpl. by rewrite Hv.
Qed.

End SynthesisAside.

(** X10. Requesting code generation does not change the traversal: when the
    run with code generation returns, the run without it (whatever the model)
    returns as well, has emitted the same nodes in the same order and printed
    the same lines; the only additional line is the final notice. *)
Theorem code_generation_does_not_change_the_traversal
    (py_str : pyval → string) (llm llm' : nat → string → result string)
    (g : nx.DiGraph) (max_depth : option Z) (st1 : rstate) :
  print_dag_in_reverse py_str llm g max_depth true = Some (Returned, st1) →
  ∃ st2,
    print_dag_in_reverse py_str llm' g max_depth false = Some (Returned, st2) ∧
    emitted (trace st2) = emitted (trace st1) ∧
    fully_processed st2 = fully_processed st1 ∧
    stdout (trace st1) = stdout (trace st2) ++ [saved_notice].
Proof.
  unfold print_dag_in_reverse, print_dag_in_reverse_with. intros Hrun.
  destruct (for_enumerate _ _ _ _) as [[[| e] st1m] |] eqn:Hloop in Hrun; [| done | done].
  injection Hrun as <-.
  eapply (for_enumerate_same_walk _
            (λ idx source_node st,
               _print_dag_recursive py_str llm' (S (length (nx.nodes g))) g max_depth false
                 source_node ""
                 (idx =? Z.of_nat (length (source_nodes g)) - 1)%Z 0%Z (set_visited ∅ st)))
    with (s2 := initial_rstate) in Hloop as (st2 & -> & (_ & Hfp & Hem & Hout)).
  - exists st2. split; [done |]. unfold save_generated_code, emitted, stdout in *. simpl.
    rewrite !omap_app. simpl. rewrite !app_nil_r, Hem, Hfp, Hout. done.
  - intros i x s1 s1' s2 Hx Hs. eapply walk_same_walk; [exact Hx |].
    destruct Hs as (? & ? & ? & ?). by split_and!.
  - by split_and!.
Qed.

Lemma code_generation_does_not_change_the_traversal_witness :
  ∃ st1,
    print_dag_in_reverse sample_str sample_llm entered_cycle None true
      = Some (Returned, st1) ∧
    ∃ st2,
      print_dag_in_reverse sample_str sample_llm entered_cycle None false
        = Some (Returned, st2) ∧
      emitted (trace st2) = emitted (trace st1) ∧
      fully_processed st2 = fully_processed st1 ∧
      stdout (trace st1) = stdout (trace st2) ++ [saved_notice].
Proof.
  eexists. split; [vm_compute; reflexivity |].
  apply (code_generation_does_not_change_the_traversal sample_str sample_llm sample_llm
           entered_cycle None).
  vm_compute. reflexivity.
Defined.

(** ** The two printers side by side *)

(** Without a depth limit, a call that returns on a node neither processed
    nor on the active path emits that node last. *)
Lemma walk_emits_its_node_last (py_str : pyval → string)
    (llm : nat → string → result string) (g : nx.DiGraph) (to_generate_code : bool)
    (fuel : nat) (n prefix : string) (is_last : bool) (depth : Z) (st st' : rstate) :
  _print_dag_recursive py_str llm fuel g None to_generate_code n prefix is_last depth st
    = Some (Returned, st') →
  n ∉ fully_processed st → n ∉ visited st →
  last (emitted (trace st')) = Some n.
Proof.
  intros Hwalk Hfp Hvis. destruct fuel as [| fuel]; [done |].
  rewrite walk_unfold in Hwalk.
  rewrite decide_False in Hwalk by done. rewrite decide_False in Hwalk by done.
  change (depth_limit_reached None depth) with false in Hwalk.
  destruct (nx.successors g n) as [children | e]; [| done].
  destruct (for_enumerate _ _ _ _) as [[[| e] st2] |] eqn:Hloop in Hwalk; [| done | done].
  injection Hwalk as Hemit.
  assert (Hin : n ∈ visited st2).
  { apply for_enumerate_chain
      with (P := λ _ st out st', out = Returned → visited st' = visited st) in Hloop.
    - apply chain_visited in Hloop; [| done]. rewrite Hloop. simpl. set_solver.
    - intros i x s1 o s1' _ Hx. by eapply walk_restores_visited. }
  destruct (emit_node_cases _ _ _ _ _ _ _ _ _ _ Hemit Hin)
    as [[_ (line & _ & _ & Htrace)] | (e & ? & _)]; [| done].
  destruct Htrace as [(_ & -> & _) | (_ & text & -> & _)];
    rewrite emitted_app; simpl; by rewrite last_snoc.
Qed.

(** X11. On a well-formed graph with a single source [s], the forward
    traversal from [s] and the reverse run, both without a depth limit, end;
    when both return they have covered the same nodes, the forward traversal
    labelling [s] first and the reverse run emitting [s] last. *)
Theorem forward_and_reverse_cover_the_same_nodes
    (py_str : pyval → string) (llm : nat → string → result string)
    (g : nx.DiGraph) (s : string) (to_generate_code : bool) :
  nx.wf g → source_nodes g = [s] →
  ∃ out_f st_f out_r st_r,
    print_dag_from py_str g s None = Some (out_f, st_f) ∧
    print_dag_in_reverse py_str llm g None to_generate_code = Some (out_r, st_r) ∧
    (out_f = Returned → out_r = Returned →
     (∀ x, x ∈ emitted (p_trace st_f) ↔ x ∈ emitted (trace st_r)) ∧
     head (emitted (p_trace st_f)) = Some s ∧
     last (emitted (trace st_r)) = Some s).
Proof.
  intros Hwf Hsrc.
  destruct (print_dag_from_returns py_str g s None Hwf) as (out_f & st_f & Hrun_f & Hv).
  destruct (run_returns py_str llm g None to_generate_code Hwf) as (out_r & st_r & Hrun_r).
  exists out_f, st_f, out_r, st_r. split_and!; [done | done |].
  intros Hf Hr.
  destruct (print_dag_from_labels_reachable _ _ _ _ _ Hrun_f Hv) as [Hsound Hcomplete].
  assert (Hsame : ∀ x, reachable_from_source g x ↔ reaches g s x).
  { intros x. split.
    - intros (s' & Hs' & Hreach). apply elem_of_source_nodes in Hs'.
      rewrite Hsrc in Hs'. by apply list_elem_of_singleton in Hs' as ->.
    - intros Hreach. exists s. split; [| done].
      apply elem_of_source_nodes. rewrite Hsrc. apply list_elem_of_here. }
  split_and!.
  - intros x. split.
    + intros Hx. eapply run_emitted_complete; [done | done | done |].
      by apply Hsame, Hsound.
    + intros Hx. apply (Hcomplete Hf), Hsame. by eapply run_emitted_reachable.
  - destruct (print_dag_labels_tree _ _ _ _ _ _ _ _ _ _ _ Hrun_f) as (t & Ht & Hshape & _).
    simpl in Ht. rewrite Ht.
    destruct Hshape as [[_ ?] | (rest & -> & _)]; [by subst | done].
  - subst out_r. unfold print_dag_in_reverse, print_dag_in_reverse_with in Hrun_r.
    rewrite Hsrc in Hrun_r. cbn [for_enumerate] in Hrun_r.
    destruct (_print_dag_recursive _ _ _ _ _ _ _ _ _ _ _) as [[[| e] st0] |] eqn:Hwalk
      in Hrun_r; [| done | done].
    apply walk_emits_its_node_last in Hwalk; [| simpl; set_solver | simpl; set_solver].
    destruct to_generate_code; injection Hrun_r as <-; [| done].
    by rewrite emitted_save_generated_code.
Qed.

Lemma forward_and_reverse_cover_the_same_nodes_witness :
  nx.wf entered_cycle ∧ source_nodes entered_cycle = ["S"] ∧
  ∃ out_f st_f out_r st_r,
    print_dag_from sample_str entered_cycle "S" None = Some (out_f, st_f) ∧
    print_dag_in_reverse sample_str sample_llm entered_cycle None true
      = Some (out_r, st_r) ∧
    (out_f = Returned → out_r = Returned →
     (∀ x, x ∈ emitted (p_trace st_f) ↔ x ∈ emitted (trace st_r)) ∧
     head (emitted (p_trace st_f)) = Some "S" ∧
     last (emitted (trace st_r)) = Some "S").
Proof.
  assert (Hwf : nx.wf entered_cycle) by compute_done.
  split_and!; [done | reflexivity |].
  apply (forward_and_reverse_cover_the_same_nodes sample_str sample_llm entered_cycle "S"
           true Hwf).
  reflexivity.
Defined.
